(** * Admissions RAG assistant: chunking, ingestion and retrieval

    Shallow embedding of the ingestion scripts (text and PDF variants), of
    the chat routes (the four-stage route [src/app/api/chat/route.ts] and the
    multi-strategy variant) and of [src/lib], followed by the properties of
    the specification that concern them.

    JavaScript strings are sequences of UTF-16 code units, numbers that are
    lengths, indices or row ids are integers ([Z]), similarity scores are
    rationals ([Q]).  Collaborators (the embedding provider, the language
    model, the document store, [JSON.parse], [toLowerCase]) are arguments of
    the functions that call them; a call that throws returns [None]. *)

From stdpp Require Import base list gmap sets.
From Stdlib Require Import ZArith QArith Qabs Qround String Ascii Sorted Lia Lqa.

Local Open Scope Z_scope.

(** ** JavaScript strings *)

Module JS.

(** A string is its sequence of UTF-16 code units. *)
Definition jsstring := list Z.

Definition length (s : jsstring) : Z := Z.of_nat (List.length s).

(** Source literals are written as Rocq strings (UTF-8 bytes) and decoded
    to code units, so that they can be compared with the source text. *)
Definition bytes (s : string) : list Z :=
  List.map (fun a => Z.of_nat (nat_of_ascii a)) (list_ascii_of_string s).

Definition cont (b : Z) : Z := Z.land b 63.

Fixpoint utf8 (bs : list Z) : list Z :=
  match bs with
  | [] => []
  | b0 :: r0 =>
      if b0 <? 128 then b0 :: utf8 r0
      else match r0 with
      | [] => []
      | b1 :: r1 =>
          if b0 <? 224 then
            (Z.shiftl (Z.land b0 31) 6 + cont b1) :: utf8 r1
          else match r1 with
          | [] => []
          | b2 :: r2 =>
              if b0 <? 240 then
                (Z.shiftl (Z.land b0 15) 12 + Z.shiftl (cont b1) 6 + cont b2)
                  :: utf8 r2
              else match r2 with
              | [] => []
              | b3 :: r3 =>
                  (Z.shiftl (Z.land b0 7) 18 + Z.shiftl (cont b1) 12
                   + Z.shiftl (cont b2) 6 + cont b3) :: utf8 r3
              end
          end
      end
  end.

(** Code points above the basic plane become a surrogate pair. *)
Definition utf16 (cps : list Z) : jsstring :=
  List.flat_map (fun cp =>
    if cp <? 65536 then [cp]
    else [55296 + Z.shiftr (cp - 65536) 10; 56320 + Z.land (cp - 65536) 1023])
    cps.

Definition lit (s : string) : jsstring := utf16 (utf8 (bytes s)).

Definition LF : Z := 10.

(** WhiteSpace and LineTerminator code units: what [trim] strips and what
    the class [\s] matches. *)
Definition isSpace (c : Z) : bool :=
  ((9 <=? c) && (c <=? 13)) || (c =? 32) || (c =? 160) || (c =? 5760)
  || ((8192 <=? c) && (c <=? 8202)) || (c =? 8232) || (c =? 8233)
  || (c =? 8239) || (c =? 8287) || (c =? 12288) || (c =? 65279).

Fixpoint trimStart (s : jsstring) : jsstring :=
  match s with
  | c :: s' => if isSpace c then trimStart s' else s
  | [] => []
  end.

Definition trimEnd (s : jsstring) : jsstring := rev (trimStart (rev s)).

Definition trim (s : jsstring) : jsstring := trimEnd (trimStart s).

(** A string used as a condition is true when it is not empty. *)
Definition truthy (s : jsstring) : bool :=
  match s with [] => false | _ => true end.

Definition truthy_opt (o : option jsstring) : bool :=
  match o with Some s => truthy s | None => false end.

Fixpoint startsWith (s p : jsstring) : bool :=
  match p, s with
  | [], _ => true
  | _ :: _, [] => false
  | a :: p', b :: s' => (a =? b) && startsWith s' p'
  end.

(** [indexOfFrom i s p]: least position of [p] in [s], counted from [i]. *)
Fixpoint indexOfFrom (i : Z) (s p : jsstring) : Z :=
  if startsWith s p then i
  else match s with
       | [] => -1
       | _ :: s' => indexOfFrom (i + 1) s' p
       end.

Definition indexOf (s p : jsstring) : Z := indexOfFrom 0 s p.

Definition includes (s p : jsstring) : bool := 0 <=? indexOf s p.

(** [s.lastIndexOf(p, pos)]: greatest [i <= clamp pos 0 (length s)] at
    which [p] occurs, [-1] when there is none. *)
Fixpoint lastIndexUpTo (n : nat) (s p : jsstring) : Z :=
  if startsWith (drop n s) p then Z.of_nat n
  else match n with
       | O => -1
       | S n' => lastIndexUpTo n' s p
       end.

Definition lastIndexOf (s p : jsstring) (pos : Z) : Z :=
  lastIndexUpTo (Z.to_nat (Z.min (Z.max pos 0) (length s))) s p.

(** [s.slice(from, to)]: negative indices count from the end. *)
Definition sliceIndex (len i : Z) : Z :=
  if i <? 0 then Z.max (len + i) 0 else Z.min i len.

Definition slice (s : jsstring) (from to : Z) : jsstring :=
  let a := sliceIndex (length s) from in
  let b := sliceIndex (length s) to in
  take (Z.to_nat (b - a)) (drop (Z.to_nat a) s).

(** [s.substring(a, b)]: indices are clamped and swapped when out of order. *)
Definition substring (s : jsstring) (a b : Z) : jsstring :=
  let a' := Z.min (Z.max a 0) (length s) in
  let b' := Z.min (Z.max b 0) (length s) in
  take (Z.to_nat (Z.max a' b' - Z.min a' b'))
       (drop (Z.to_nat (Z.min a' b')) s).

(** [s.split(sep)] for a one-unit separator such as ['\n'] or [' ']. *)
Fixpoint splitOn (sep : Z) (s : jsstring) : list jsstring :=
  match s with
  | [] => [[]]
  | c :: s' =>
      if c =? sep then [] :: splitOn sep s'
      else match splitOn sep s' with
           | w :: ws => (c :: w) :: ws
           | [] => [[c]]
           end
  end.

(** [parts.join(sep)]. *)
Fixpoint join (sep : jsstring) (parts : list jsstring) : jsstring :=
  match parts with
  | [] => []
  | [p] => p
  | p :: ps => p ++ sep ++ join sep ps
  end.

(** Decimal digits of a non-negative integer, as [String(n)] prints them. *)
Fixpoint digitsFuel (fuel : nat) (n : Z) (acc : jsstring) : jsstring :=
  match fuel with
  | O => acc
  | S fuel' =>
      let acc' := (48 + n mod 10) :: acc in
      if n <? 10 then acc' else digitsFuel fuel' (n / 10) acc'
  end.

Definition digits (n : Z) : jsstring :=
  digitsFuel (S (Z.to_nat (Z.log2 (Z.max n 1)))) n [].

(** [p] occurs in [s]. *)
Definition occursIn (p s : jsstring) : Prop :=
  exists before after, s = before ++ p ++ after.

End JS.

Import JS.

(** ** Regular expressions

    A backtracking matcher in continuation-passing style, following the
    pattern semantics of the language standard: alternatives are tried left
    to right, quantifiers are greedy unless marked lazy, and an iteration of
    a quantifier whose minimum is met must consume input.  Only what the
    patterns of this program use is present; none of them has a capturing
    group under a quantifier, a back-reference, or the multiline flag. *)

Module RegExp.

Inductive cset : Type :=
| CChar (c : Z)
| CRange (lo hi : Z)
| CSpace
| CNotSpace
| CDigit.

Definition inSet (c : Z) (i : cset) : bool :=
  match i with
  | CChar c' => c =? c'
  | CRange lo hi => (lo <=? c) && (c <=? hi)
  | CSpace => isSpace c
  | CNotSpace => negb (isSpace c)
  | CDigit => (48 <=? c) && (c <=? 57)
  end.

Inductive regex : Type :=
| Lit (s : jsstring)
| Class (neg : bool) (items : list cset)
| Seq (r1 r2 : regex)
| Alt (r1 r2 : regex)
| Rep (min : nat) (max : option nat) (greedy : bool) (r : regex)
| Group (i : nat) (r : regex)
| Ahead (r : regex)
| Bol
| Eol.

Fixpoint cat (rs : list regex) : regex :=
  match rs with
  | [] => Lit []
  | [r] => r
  | r :: rs' => Seq r (cat rs')
  end.

Fixpoint alt (rs : list regex) : regex :=
  match rs with
  | [] => Class false []
  | [r] => r
  | r :: rs' => Alt r (alt rs')
  end.

Definition star (r : regex) : regex := Rep 0 None true r.
Definition lazyStar (r : regex) : regex := Rep 0 None false r.
Definition plus (r : regex) : regex := Rep 1 None true r.
Definition opt (r : regex) : regex := Rep 0 (Some 1%nat) true r.
Definition times (n : nat) (r : regex) : regex := Rep n (Some n) true r.
Definition atLeast (n : nat) (r : regex) : regex := Rep n None true r.

Definition ch (s : string) : cset :=
  match lit s with c :: _ => CChar c | [] => CChar (-1) end.
Definition oneOf (items : list cset) : regex := Class false items.
Definition noneOf (items : list cset) : regex := Class true items.
Definition space : regex := oneOf [CSpace].
Definition digit : regex := oneOf [CDigit].
Definition anyUnit : regex := oneOf [CSpace; CNotSpace].
(** [.] excludes the line terminators. *)
Definition dot : regex :=
  noneOf [CChar 10; CChar 13; CChar 8232; CChar 8233].
Definition text (s : string) : regex := Lit (lit s).

Fixpoint ngroups (r : regex) : nat :=
  match r with
  | Lit _ | Class _ _ | Bol | Eol => 0%nat
  | Seq r1 r2 | Alt r1 r2 => Nat.max (ngroups r1) (ngroups r2)
  | Rep _ _ _ r' | Ahead r' => ngroups r'
  | Group i r' => Nat.max i (ngroups r')
  end.

(** The matcher state: [pos] code units of the input are consumed, [rest]
    is what follows, [caps] the captures so far, by group number. *)
Record state : Type := State {
  pos : nat;
  rest : jsstring;
  caps : list (option jsstring)
}.

Definition advance (n : nat) (x : state) : state :=
  State (pos x + n) (drop n (rest x)) (caps x).

Definition capture (i : nat) (x y : state) : state :=
  State (pos y) (rest y)
        (<[i := Some (take (pos y - pos x) (rest x))]> (caps y)).

(** [reaches x y]: a state of the same input, not behind [x]. *)
Definition reaches (x y : state) : Prop :=
  (pos x <= pos y)%nat
  /\ (pos y + List.length (rest y) = pos x + List.length (rest x))%nat.

(** One turn of the loop of a quantifier at [x]: [body] matches the
    quantified pattern, [again] is the loop itself with one turn less, [k]
    what follows the quantifier.  A turn that is not required and consumes
    nothing fails. *)
Definition turn (greedy : bool) (k : state -> option state)
  (body : (state -> option state) -> state -> option state)
  (again : nat -> option nat -> state -> option state)
  (min : nat) (max : option nat) (x : state) : option state :=
  match max with
  | Some O => k x
  | _ =>
      let d := fun y : state =>
        if (min =? 0)%nat && (pos y =? pos x)%nat then None
        else again (Nat.pred min) (option_map Nat.pred max) y in
      if (0 <? min)%nat then body d x
      else if greedy then
        match body d x with
        | Some z => Some z
        | None => k x
        end
      else
        match k x with
        | Some z => Some z
        | None => body d x
        end
  end.

(** The matcher.  The loop of a quantifier is bounded by the number of turns
    it can take, the minimum that is left plus the input that is left, with
    [spare] turns on top: no match depends on [spare]. *)
Fixpoint matcher (spare : nat) (r : regex) (k : state -> option state)
  (x : state) {struct r} : option state :=
  match r with
  | Lit s =>
      if startsWith (rest x) s then k (advance (List.length s) x) else None
  | Class neg items =>
      match rest x with
      | c :: _ =>
          if xorb neg (existsb (inSet c) items) then k (advance 1 x)
          else None
      | [] => None
      end
  | Seq r1 r2 => matcher spare r1 (matcher spare r2 k) x
  | Alt r1 r2 =>
      match matcher spare r1 k x with
      | Some y => Some y
      | None => matcher spare r2 k x
      end
  | Rep min max greedy r' =>
      (fix loop (fuel min : nat) (max : option nat) (x : state)
         {struct fuel} : option state :=
         match fuel with
         | O => None
         | S fuel' =>
             turn greedy k (matcher spare r') (loop fuel') min max x
         end) (S (min + List.length (rest x)) + spare)%nat min max x
  | Group i r' => matcher spare r' (fun y => k (capture i x y)) x
  | Ahead r' =>
      match matcher spare r' Some x with
      | Some y => k (State (pos x) (rest x) (caps y))
      | None => None
      end
  | Bol => if (pos x =? 0)%nat then k x else None
  | Eol => match rest x with [] => k x | _ :: _ => None end
  end.

Definition m : regex -> (state -> option state) -> state -> option state :=
  matcher 0.

(** Group [i] takes part in every match of the pattern. *)
Fixpoint sets (i : nat) (r : regex) : bool :=
  match r with
  | Group j r' => (i =? j)%nat || sets i r'
  | Seq r1 r2 => sets i r1 || sets i r2
  | Alt r1 r2 => sets i r1 && sets i r2
  | Lit _ | Class _ _ | Rep _ _ _ _ | Ahead _ | Bol | Eol => false
  end.

(** Capture [i] is defined. *)
Definition defined (i : nat) (caps : list (option jsstring)) : Prop :=
  exists v, caps !! i = Some (Some v).

(** What a match hands to its continuation: the captures it had, and those
    of the groups that take part in every match. *)
Definition handsOver (r : regex) (x y : state) : Prop :=
  List.length (caps y) = List.length (caps x)
  /\ (forall j, defined j (caps x) -> defined j (caps y))
  /\ (forall i, sets i r = true -> (i < List.length (caps x))%nat ->
                defined i (caps y)).

(** A successful match: where it starts and ends, and the array the
    program indexes, whose entry 0 is the matched text. *)
Record result : Type := Result {
  index : nat;
  endIndex : nat;
  groups : list (option jsstring)
}.

Definition group (res : result) (i : nat) : option jsstring :=
  match groups res !! i with
  | Some g => g
  | None => None
  end.

(** One attempt at position [q] (what a sticky pattern does). *)
Definition execAt (r : regex) (s : jsstring) (q : nat) : option result :=
  let x := State q (drop q s) (replicate (S (ngroups r)) None) in
  match m r Some x with
  | Some y =>
      Some (Result q (pos y)
              (<[0%nat := Some (take (pos y - q) (drop q s))]> (caps y)))
  | None => None
  end.

(** Leftmost match at or after [q]: positions [q], [q+1], ... up to the
    end of the input included. *)
Fixpoint execFromFuel (fuel : nat) (r : regex) (s : jsstring) (q : nat)
  : option result :=
  match execAt r s q with
  | Some res => Some res
  | None =>
      match fuel with
      | O => None
      | S fuel' => execFromFuel fuel' r s (S q)
      end
  end.

Definition execFrom (r : regex) (s : jsstring) (q : nat) : option result :=
  if (q <=? List.length s)%nat
  then execFromFuel (List.length s - q) r s q
  else None.

(** [r.exec(s)] and [s.match(r)] for a pattern without the global flag. *)
Definition exec (r : regex) (s : jsstring) : option result :=
  execFrom r s 0.

(** [r.test(s)]. *)
Definition test (r : regex) (s : jsstring) : bool :=
  match exec r s with Some _ => true | None => false end.

(** All matches of a pattern with the global flag, left to right; after an
    empty match the search resumes one unit further. *)
Fixpoint scan (fuel : nat) (r : regex) (s : jsstring) (q : nat)
  : list result :=
  match fuel with
  | O => []
  | S fuel' =>
      match execFrom r s q with
      | None => []
      | Some res =>
          res :: scan fuel' r s
                   (if (endIndex res =? index res)%nat
                    then S (endIndex res) else endIndex res)
      end
  end.

Definition matches (r : regex) (s : jsstring) : list result :=
  scan (S (S (List.length s))) r s 0.

(** [s.match(r)] for a pattern with the global flag: the matched texts,
    or null when there is none. *)
Definition matchGlobal (r : regex) (s : jsstring) : option (list jsstring) :=
  match matches r s with
  | [] => None
  | ms => Some (List.map (fun res => take (endIndex res - index res)
                                       (drop (index res) s)) ms)
  end.

(** [s.replace(r, by)] where [by] has no substitution pattern: the first
    match, or every match under the global flag. *)
Fixpoint replaceAt (s : jsstring) (from : nat) (ms : list result)
  (by_ : jsstring) : jsstring :=
  match ms with
  | [] => drop from s
  | res :: ms' =>
      take (index res - from) (drop from s) ++ by_
        ++ replaceAt s (endIndex res) ms' by_
  end.

Definition replace (r : regex) (s by_ : jsstring) : jsstring :=
  match exec r s with
  | Some res => replaceAt s 0 [res] by_
  | None => s
  end.

Definition replaceGlobal (r : regex) (s by_ : jsstring) : jsstring :=
  replaceAt s 0 (matches r s) by_.

(** [s.split(r)] for a pattern without capturing groups: [p] is the start
    of the current piece, [q] the position tried next.  A match that ends
    at [p] splits nothing; the end of the input is never tried. *)
Fixpoint splitLoop (fuel : nat) (r : regex) (s : jsstring) (p q : nat)
  : list jsstring :=
  match fuel with
  | O => [drop p s]
  | S fuel' =>
      if (q <? List.length s)%nat then
        match execAt r s q with
        | None => splitLoop fuel' r s p (S q)
        | Some res =>
            let e := Nat.min (endIndex res) (List.length s) in
            if (e =? p)%nat then splitLoop fuel' r s p (S q)
            else take (q - p) (drop p s) :: splitLoop fuel' r s e e
        end
      else [drop p s]
  end.

Definition split (r : regex) (s : jsstring) : list jsstring :=
  match s with
  | [] => match execAt r s 0 with Some _ => [] | None => [s] end
  | _ => splitLoop (2 * List.length s + 1) r s 0 0
  end.

End RegExp.

Import RegExp.


(** ** Patterns as the program applies them *)

Module Pattern.

(** A pattern literal with its global flag. *)
Record pattern : Type := Pattern {
  re : regex;
  global : bool
}.

Definition once (r : regex) : pattern := Pattern r false.
Definition all (r : regex) : pattern := Pattern r true.

(** [s.match(p)]: the array of groups of the first match, or, under the
    global flag, the array of all matched texts; null when nothing matches. *)
Definition match_ (s : jsstring) (p : pattern) : option (list (option jsstring)) :=
  if global p then option_map (List.map Some) (matchGlobal (re p) s)
  else option_map groups (exec (re p) s).

(** [arr[i]], undefined when absent. *)
Definition at_ (arr : list (option jsstring)) (i : nat) : option jsstring :=
  match arr !! i with
  | Some v => v
  | None => None
  end.

(** [arr[i]] where group [i] takes part in every match of the pattern. *)
Definition the (arr : list (option jsstring)) (i : nat) : jsstring :=
  match at_ arr i with
  | Some v => v
  | None => []
  end.

(** [a || b] on possibly undefined strings. *)
Definition orElse (a b : option jsstring) : option jsstring :=
  if truthy_opt a then a else b.




End Pattern.

Import Pattern.

(** ** The text ingestion script *)

Module IngestText.

Inductive ChunkType : Type :=
| organizational_notes
| program
| section_header.

Record Metadata : Type := {
  program_name : option jsstring;
  program_code : option jsstring;
  institution : option jsstring;
  section : option jsstring;
  chunk_type : ChunkType;
  chunk_index : Z
}.

Record ProgramChunk : Type := {
  content : jsstring;
  metadata : Metadata
}.

(** [[:\s]*] *)
Definition colonSpaces : regex := star (oneOf [ch ":"; CSpace]).

Definition nameLabel : jsstring := lit "اسم البرنامج".
Definition codeLabel : jsstring := lit "رمز البرنامج".
Definition gradeLabel : jsstring := lit "الحد الأدنى".

(** [/^\d+\.\s*/] and [/^\*\s*/], removed from the front of a value. *)
Definition leadingNumber : regex := cat [Bol; plus digit; text "."; star space].
Definition leadingStar : regex := cat [Bol; text "*"; star space].

Definition namePatterns : list pattern :=
  let value := Group 1 (plus (noneOf [CChar LF; ch "*"; ch "•"])) in
  [ once (cat [text "اسم البرنامج"; colonSpaces; value]);
    once (cat [text "البرنامج"; colonSpaces; value]);
    once (cat [plus digit; text "."; star space; text "اسم البرنامج";
               colonSpaces; value]);
    once (cat [text "*"; star space; text "اسم البرنامج"; colonSpaces; value]) ].

(** The value a name pattern proposes for a text, when it matches. *)
Definition nameCandidate (text : jsstring) (p : pattern) : option jsstring :=
  match match_ text p with
  | Some mt =>
      Some (replace leadingStar (replace leadingNumber (trim (the mt 1)) []) [])
  | None => None
  end.

(** The candidate is rejected when it is too long or runs into the code. *)
Definition nameRejected (name : jsstring) : bool :=
  (200 <? length name) || includes name codeLabel.

Fixpoint extractProgramNameFrom (patterns : list pattern) (text : jsstring)
  : option jsstring :=
  match patterns with
  | [] => None
  | p :: patterns' =>
      match nameCandidate text p with
      | Some name =>
          if nameRejected name then extractProgramNameFrom patterns' text
          else Some name
      | None => extractProgramNameFrom patterns' text
      end
  end.

Definition extractProgramName (text : jsstring) : option jsstring :=
  extractProgramNameFrom namePatterns text.

Definition codeShape : regex :=
  Seq (times 2 (oneOf [CRange 65 90])) (times 3 digit).

Definition codePatterns : list pattern :=
  let value := Group 1 (plus (noneOf [CChar LF; ch "•"])) in
  [ once (cat [text "رمز البرنامج"; colonSpaces; value]);
    once (cat [text "الرمز"; colonSpaces; Group 1 codeShape]);
    once (cat [text "*"; star space; text "رمز البرنامج"; colonSpaces; value]);
    all (Group 1 codeShape) ].

(** [match[1] || match[0]], trimmed and without a leading star.  Under the
    global flag entry 1 is the second code of the text. *)
Definition codeCandidate (text : jsstring) (p : pattern) : option jsstring :=
  match match_ text p with
  | Some mt =>
      let code := match orElse (at_ mt 1) (at_ mt 0) with
                  | Some c => c
                  | None => []
                  end in
      Some (replace leadingStar (trim code) [])
  | None => None
  end.

Definition codeRejected (code : jsstring) : bool :=
  (50 <? length code) || includes code gradeLabel.

Fixpoint extractProgramCodeFrom (patterns : list pattern) (text : jsstring)
  : option jsstring :=
  match patterns with
  | [] => None
  | p :: patterns' =>
      match codeCandidate text p with
      | Some code =>
          if codeRejected code then extractProgramCodeFrom patterns' text
          else Some code
      | None => extractProgramCodeFrom patterns' text
      end
  end.

Definition extractProgramCode (text : jsstring) : option jsstring :=
  extractProgramCodeFrom codePatterns text.

Definition institutionPatterns : list pattern :=
  let value := Group 1 (plus (noneOf [CChar LF; ch "•"])) in
  let name := Group 1 (plus (noneOf [CChar LF; ch "-"; ch "–"; ch "•"])) in
  [ once (cat [text "المؤسسة التعليمية"; colonSpaces; value]);
    once (cat [text "المؤسســــة التعليميـــة"; colonSpaces; value]);
    once (cat [text "جامعة"; plus space; name]);
    once (cat [text "كلية"; plus space; name]) ].

Definition institutionCandidate (text : jsstring) (p : pattern)
  : option jsstring :=
  match match_ text p with
  | Some mt => Some (trim (the mt 1))
  | None => None
  end.

Definition institutionRejected (inst : jsstring) : bool :=
  (100 <? length inst) || includes inst nameLabel.

Fixpoint extractInstitutionFrom (patterns : list pattern) (text : jsstring)
  : option jsstring :=
  match patterns with
  | [] => None
  | p :: patterns' =>
      match institutionCandidate text p with
      | Some inst =>
          if institutionRejected inst then extractInstitutionFrom patterns' text
          else Some inst
      | None => extractInstitutionFrom patterns' text
      end
  end.

Definition extractInstitution (text : jsstring) : option jsstring :=
  extractInstitutionFrom institutionPatterns text.

(** [chunks.push(...)] with [chunkIndex++]: the running state of a splitter. *)
Record Chunks : Type := {
  chunks : list ProgramChunk;
  chunkIndex : Z
}.

Definition push (content : jsstring) (name code inst section : option jsstring)
  (type : ChunkType) (cs : Chunks) : Chunks :=
  {| chunks := chunks cs ++
       [ {| content := content;
            metadata := {| program_name := name; program_code := code;
                           institution := inst; section := section;
                           chunk_type := type;
                           chunk_index := chunkIndex cs |} |} ];
     chunkIndex := chunkIndex cs + 1 |}.

Definition notesSection : jsstring := lit "ملاحظات تنظيمية".

Definition orgNotesPattern : pattern :=
  once (cat [Bol;
             Group 1 (Seq (text "ملاحظة تنظيمية مهمة") (lazyStar anyUnit));
             Ahead (alt [Seq (text "قسم") (plus space);
                         text "اسم البرنامج";
                         cat [plus digit; text "."; star space; text "اسم"]])]).

Definition lineStart : regex := Alt Bol (Lit [LF]).

Definition programSeparators : regex :=
  alt [ Ahead (cat [lineStart;
                    opt (cat [plus digit; text "."; star space]);
                    opt (cat [text "*"; star space]);
                    Alt (text "اسم البرنامج") (text "البرنامج");
                    oneOf [ch ":"; CSpace]]);
        Ahead (cat [lineStart; text "قسم"; plus space;
                    plus (noneOf [CChar LF])]);
        atLeast 5 (text "_") ].

Definition onlyUnderscores : regex := cat [Bol; plus (text "_"); Eol].

Definition sectionHeader : pattern :=
  once (cat [Bol; text "قسم"; plus space; Group 1 (plus (noneOf [CChar LF]))]).

(** The state of the primary split between two blocks. *)
Record Primary : Type := {
  emitted : Chunks;
  currentSection : jsstring
}.

(** One turn of the loop over the blocks. *)
Definition blockStep (st : Primary) (block : jsstring) : Primary :=
  let trimmedBlock := trim block in
  if length trimmedBlock <? 50 then st
  else if test onlyUnderscores trimmedBlock then st
  else
    match match_ trimmedBlock sectionHeader with
    | Some sectionMatch =>
        let section := trim (the sectionMatch 1) in
        {| emitted := push trimmedBlock None None None (Some section)
                        section_header (emitted st);
           currentSection := section |}
    | None =>
        let programName := extractProgramName trimmedBlock in
        let programCode := extractProgramCode trimmedBlock in
        let institution := extractInstitution trimmedBlock in
        if truthy_opt programName || truthy_opt programCode then
          {| emitted := push trimmedBlock programName programCode institution
                          (Some (currentSection st)) program (emitted st);
             currentSection := currentSection st |}
        else st
    end.

(** The chunks of the pattern-driven split, before the count is checked. *)
Definition primarySplit (text : jsstring) : list ProgramChunk :=
  let none := {| chunks := []; chunkIndex := 0 |} in
  let start :=
    match match_ text orgNotesPattern with
    | Some orgNotesMatch =>
        push (trim (the orgNotesMatch 1)) None None None (Some notesSection)
          organizational_notes none
    | None => none
    end in
  chunks (emitted (fold_left blockStep (split programSeparators text)
                     {| emitted := start; currentSection := [] |})).

(** The state of the line-by-line splitter. *)
Record Lines : Type := {
  out : Chunks;
  section_ : jsstring;
  currentBlock : list jsstring;
  currentProgramName : option jsstring;
  currentProgramCode : option jsstring;
  currentInstitution : option jsstring
}.

Definition flushBlock (st : Lines) : Lines :=
  let content := trim (join [LF] (currentBlock st)) in
  let keep :=
    (0 <? Z.of_nat (List.length (currentBlock st)))
    && (50 <? length content)
    && (truthy_opt (currentProgramName st) || truthy_opt (currentProgramCode st)) in
  {| out := if keep
            then push content (currentProgramName st) (currentProgramCode st)
                   (currentInstitution st) (Some (section_ st)) program (out st)
            else out st;
     section_ := section_ st;
     currentBlock := [];
     currentProgramName := None;
     currentProgramCode := None;
     currentInstitution := None |}.

Definition restOfLine : regex := Seq (Group 1 (plus dot)) Eol.

Definition sectionLine : pattern :=
  once (cat [Bol; text "قسم"; plus space; restOfLine]).
Definition separatorLine : regex := cat [Bol; atLeast 3 (text "_"); Eol].
Definition programNameLine : pattern :=
  once (cat [opt (cat [plus digit; text "."; star space]);
             opt (cat [text "*"; star space]);
             text "اسم البرنامج"; colonSpaces; restOfLine]).
Definition programLine : pattern :=
  once (cat [Bol; opt (cat [text "*"; star space]);
             text "البرنامج"; colonSpaces; restOfLine]).
Definition codeLine : pattern :=
  once (cat [opt (cat [text "*"; star space]);
             text "رمز البرنامج"; colonSpaces; restOfLine]).
Definition altCodeLine : pattern :=
  once (cat [opt (cat [text "*"; star space]);
             text "الرمز"; colonSpaces; Group 1 codeShape]).
Definition institutionLine : pattern :=
  once (cat [text "المؤسسة التعليمية"; colonSpaces; restOfLine]).

Definition startProgram (name : jsstring) (line : jsstring) (st : Lines) : Lines :=
  let st' := flushBlock st in
  {| out := out st';
     section_ := section_ st';
     currentBlock := currentBlock st' ++ [line];
     currentProgramName := Some name;
     currentProgramCode := currentProgramCode st';
     currentInstitution := currentInstitution st' |}.

(** The part of a turn that follows the four tests ending in [continue]. *)
Definition collectLine (trimmedLine : jsstring) (st : Lines) : Lines :=
  let code1 :=
    match match_ trimmedLine codeLine with
    | Some codeMatch => Some (trim (the codeMatch 1))
    | None => currentProgramCode st
    end in
  let code2 :=
    match match_ trimmedLine altCodeLine with
    | Some altCodeMatch => Some (the altCodeMatch 1)
    | None => code1
    end in
  let inst :=
    match match_ trimmedLine institutionLine with
    | Some instMatch => Some (trim (the instMatch 1))
    | None => currentInstitution st
    end in
  {| out := out st;
     section_ := section_ st;
     currentBlock := if 0 <? length trimmedLine
                     then currentBlock st ++ [trimmedLine]
                     else currentBlock st;
     currentProgramName := currentProgramName st;
     currentProgramCode := code2;
     currentInstitution := inst |}.

(** One turn of the loop over the lines. *)
Definition lineStep (st : Lines) (line : jsstring) : Lines :=
  let trimmedLine := trim line in
  match match_ trimmedLine sectionLine with
  | Some sectionMatch =>
      let st' := flushBlock st in
      {| out := out st';
         section_ := trim (the sectionMatch 1);
         currentBlock := currentBlock st';
         currentProgramName := currentProgramName st';
         currentProgramCode := currentProgramCode st';
         currentInstitution := currentInstitution st' |}
  | None =>
      if test separatorLine trimmedLine then flushBlock st
      else
        match match_ trimmedLine programNameLine with
        | Some programNameMatch =>
            startProgram (trim (the programNameMatch 1)) trimmedLine st
        | None =>
            match match_ trimmedLine programLine with
            | Some programMatch =>
                if negb (truthy_opt (currentProgramName st))
                then startProgram (trim (the programMatch 1)) trimmedLine st
                else collectLine trimmedLine st
            | None => collectLine trimmedLine st
            end
        end
  end.

(** The alternative splitter. *)
Definition splitByProgramBlocks (text : jsstring) : list ProgramChunk :=
  let none := {| chunks := []; chunkIndex := 0 |} in
  let orgNotesEnd := indexOf text (lit "قسم") in
  let orgNotes := trim (substring text 0 orgNotesEnd) in
  let start :=
    if (0 <? orgNotesEnd) && (100 <? length orgNotes)
    then push orgNotes None None None (Some notesSection)
           organizational_notes none
    else none in
  let st := fold_left lineStep (splitOn LF text)
              {| out := start; section_ := []; currentBlock := [];
                 currentProgramName := None; currentProgramCode := None;
                 currentInstitution := None |} in
  chunks (out (flushBlock st)).

Definition fewChunksWarning : jsstring :=
  lit "⚠️ Few chunks detected, trying line-by-line program detection...".

(** What a call leaves on the console, and what it returns. *)
Record Logged (A : Type) : Type := {
  console : list jsstring;
  value : A
}.
Arguments console {A} _.
Arguments value {A} _.

Definition splitIntoChunksLogged (text : jsstring) : Logged (list ProgramChunk) :=
  let chunks := primarySplit text in
  if Z.of_nat (List.length chunks) <? 10
  then {| console := [fewChunksWarning]; value := splitByProgramBlocks text |}
  else {| console := []; value := chunks |}.

Definition splitIntoChunks (text : jsstring) : list ProgramChunk :=
  value (splitIntoChunksLogged text).

(** A chunk of type [program] carries a name or a code. *)
Definition named (c : ProgramChunk) : Prop :=
  chunk_type (metadata c) = program ->
  truthy_opt (program_name (metadata c)) = true
  \/ truthy_opt (program_code (metadata c)) = true.

End IngestText.


(** ** The PDF ingestion script *)

Module IngestPdf.

(** Chunks of this script carry no [chunk_type]. *)
Record Metadata : Type := {
  program_name : option jsstring;
  program_code : option jsstring;
  institution : option jsstring;
  section : option jsstring;
  chunk_index : Z
}.

Record ProgramChunk : Type := {
  content : jsstring;
  metadata : Metadata
}.

Definition breakPoints : list jsstring :=
  [ [LF; LF]; [LF]; lit "。"; lit "."; lit "،"; lit "," ].

(** The inner loop over the break points.  [maxLength / 2] is a division of
    numbers, so [lastBreak > start + maxLength / 2] is compared doubled. *)
Fixpoint findBreak (bps : list jsstring) (text : jsstring)
  (start maxLength end_ : Z) : Z :=
  match bps with
  | [] => end_
  | bp :: bps' =>
      let lastBreak := lastIndexOf text bp end_ in
      if 2 * start + maxLength <? 2 * lastBreak then lastBreak + length bp
      else findBreak bps' text start maxLength end_
  end.

(** The value of [end] when the chunk is pushed. *)
Definition cut (text : jsstring) (maxLength start : Z) : Z :=
  let end_ := start + maxLength in
  if end_ <? length text then findBreak breakPoints text start maxLength end_
  else end_.

(** The [while] loop, run for at most [fuel] turns: [None] when it is still
    running after that many. *)
Fixpoint splitLongBlockLoop (fuel : nat) (text : jsstring)
  (maxLength overlap start : Z) (chunks : list jsstring)
  : option (list jsstring) :=
  if start <? length text then
    match fuel with
    | O => None
    | S fuel' =>
        let end_ := cut text maxLength start in
        splitLongBlockLoop fuel' text maxLength overlap (end_ - overlap)
          (chunks ++ [trim (slice text start end_)])
    end
  else Some chunks.

Definition splitLongBlock (fuel : nat) (text : jsstring)
  (maxLength overlap : Z) : option (list jsstring) :=
  splitLongBlockLoop fuel text maxLength overlap 0 [].

(** The case flag of the source pattern changes nothing: its literals are
    Arabic letters, which have no case. *)
Definition orgNotesPattern : pattern :=
  once (cat [text "ملاحظة تنظيمية مهمة"; lazyStar anyUnit;
             Ahead (Alt (text "قسم") (text "اسم البرنامج"))]).

Definition sectionBoundary : regex :=
  Ahead (cat [text "قسم"; plus space; plus (noneOf [CChar LF])]).

Definition sectionHeader : pattern :=
  once (cat [Bol; text "قسم"; plus space; Group 1 (plus (noneOf [CChar LF]))]).

Definition programBoundary : regex :=
  Ahead (Alt (cat [plus digit; text "."; star space; text "اسم البرنامج"])
             (cat [text "اسم البرنامج"; oneOf [ch ":"; CSpace]])).

Definition colonSpaces : regex := star (oneOf [ch ":"; CSpace]).

Definition programNamePattern : pattern :=
  once (cat [text "اسم البرنامج"; colonSpaces;
             Group 1 (plus (noneOf [CChar LF; ch "*"]))]).
Definition programCodePattern : pattern :=
  once (cat [text "رمز البرنامج"; colonSpaces;
             Group 1 (plus (noneOf [CChar LF]))]).
Definition institutionPattern : pattern :=
  once (cat [text "المؤسسة التعليمية"; colonSpaces;
             Group 1 (plus (noneOf [CChar LF]))]).

(** [m ? m[1].trim() : undefined] *)
Definition field (block : jsstring) (p : pattern) : option jsstring :=
  match match_ block p with
  | Some mt => Some (trim (the mt 1))
  | None => None
  end.

Record Chunks : Type := {
  chunks : list ProgramChunk;
  chunkIndex : Z
}.

Definition push (content : jsstring) (name code inst section : option jsstring)
  (cs : Chunks) : Chunks :=
  {| chunks := chunks cs ++
       [ {| content := content;
            metadata := {| program_name := name; program_code := code;
                           institution := inst; section := section;
                           chunk_index := chunkIndex cs |} |} ];
     chunkIndex := chunkIndex cs + 1 |}.

(** One turn of the loop over the program blocks of a section.  The long
    block is split with the lengths of the source, 1500 and 200, for which
    the loop of [splitLongBlock] ends within [length block] turns. *)
Definition blockStep (sectionName : option jsstring) (cs : Chunks)
  (block : jsstring) : Chunks :=
  if length (trim block) <? 100 then cs
  else
    let programName := field block programNamePattern in
    let programCode := field block programCodePattern in
    let institution := field block institutionPattern in
    if 2000 <? length block then
      let subChunks :=
        match splitLongBlock (S (List.length block)) block 1500 200 with
        | Some l => l
        | None => []
        end in
      fold_left (fun cs' subChunk =>
                   push subChunk programName programCode institution
                     sectionName cs')
                subChunks cs
    else push (trim block) programName programCode institution sectionName cs.

(** One turn of the loop over the sections. *)
Definition sectionStep (cs : Chunks) (section : jsstring) : Chunks :=
  if length (trim section) <? 50 then cs
  else
    let sectionName := field section sectionHeader in
    fold_left (blockStep sectionName) (split programBoundary section) cs.

Definition splitIntoChunks (text : jsstring) : list ProgramChunk :=
  let notes :=
    match match_ text orgNotesPattern with
    | Some orgNotesMatch =>
        [ {| content := trim (the orgNotesMatch 0);
             metadata := {| program_name := None; program_code := None;
                            institution := None;
                            section := Some (lit "ملاحظات تنظيمية");
                            chunk_index := 0 |} |} ]
    | None => []
    end in
  chunks (fold_left sectionStep (split sectionBoundary text)
            {| chunks := notes; chunkIndex := 1 |}).

End IngestPdf.


(** ** Ingestion runs against the document store

    The table [documents] is a list of rows.  The embedding provider and the
    store are collaborators: whether a call fails is theirs to decide.  The
    chunks of one batch are processed concurrently in the source; they are
    taken here in the order of the batch. *)

Module Ingestion.

Definition Embedding : Type := list Q.

Record Row (M : Type) : Type := {
  id : Z;
  content : jsstring;
  metadata : M;
  embedding : Embedding
}.
Arguments id {M} _.
Arguments content {M} _.
Arguments metadata {M} _.
Arguments embedding {M} _.

(** A request sent to the table. *)
Inductive Request (M : Type) : Type :=
| Delete
| Insert (content : jsstring) (metadata : M) (embedding : Embedding).
Arguments Delete {M}.
Arguments Insert {M} _ _ _.

Definition isInsert {M : Type} (r : Request M) : bool :=
  match r with Insert _ _ _ => true | Delete => false end.

(** How the store answers an insert. *)
Inductive Reply : Type :=
| Stored
| Refused
| Thrown.

(** The table, and the requests sent so far, each with the rows that were in
    the table when it was sent. *)
Record World (M : Type) : Type := {
  rows : list (Row M);
  sent : list (Request M * list (Row M))
}.
Arguments rows {M} _.
Arguments sent {M} _.

Record Counts : Type := {
  successCount : Z;
  errorCount : Z
}.

Inductive Outcome : Type :=
| Exited (code : Z)
| Completed (counts : Counts).

Record Run (M : Type) : Type := {
  outcome : Outcome;
  world : World M
}.
Arguments outcome {M} _.
Arguments world {M} _.

(** [chunks.slice(i, i + batchSize)] for [i = 0, batchSize, ...]. *)
Fixpoint batches {A : Type} (fuel batchSize : nat) (chunks : list A)
  : list (list A) :=
  match fuel, chunks with
  | S fuel', _ :: _ =>
      take batchSize chunks :: batches fuel' batchSize (drop batchSize chunks)
  | _, _ => []
  end.

Section Collaborators.

Context {M : Type}.

(** [embeddings.embedQuery], [None] when it rejects. *)
Variable embedQuery : jsstring -> option Embedding.
(** The answer of the store to an insert, and the id it gives the row. *)
Variable insertReply : list (Row M) -> jsstring -> Reply.
Variable newId : list (Row M) -> Z.
(** Whether the delete request comes back with an error. *)
Variable deleteFails : list (Row M) -> bool.

Definition send (r : Request M) (w : World M) : World M :=
  {| rows := rows w; sent := sent w ++ [(r, rows w)] |}.

(** The body of the callback given to [batch.map]. *)
Definition processChunk (st : World M * Counts) (chunk : jsstring * M)
  : World M * Counts :=
  let '(w, n) := st in
  let failed := {| successCount := successCount n;
                   errorCount := errorCount n + 1 |} in
  match embedQuery (fst chunk) with
  | None => (w, failed)
  | Some e =>
      let w' := send (Insert (fst chunk) (snd chunk) e) w in
      match insertReply (rows w) (fst chunk) with
      | Stored =>
          ({| rows := rows w' ++
                [ {| id := newId (rows w); content := fst chunk;
                     metadata := snd chunk; embedding := e |} ];
              sent := sent w' |},
           {| successCount := successCount n + 1;
              errorCount := errorCount n |})
      | Refused | Thrown => (w', failed)
      end
  end.

(** The loop over the batches. *)
Definition insertAll (batchSize : nat) (chunks : list (jsstring * M))
  (w : World M) : World M * Counts :=
  fold_left (fun st batch => fold_left processChunk batch st)
            (batches (List.length chunks) batchSize chunks)
            (w, {| successCount := 0; errorCount := 0 |}).

(** [supabase.from('documents').delete().neq('id', 0)]: every row whose id
    is not 0 goes, unless the request fails. *)
Definition clear (w : World M) : option (World M) :=
  let w' := send Delete w in
  if deleteFails (rows w) then None
  else Some {| rows := filter (fun r => id r = 0) (rows w'); sent := sent w' |}.

End Collaborators.

Definition textChunks (text : jsstring) : list (jsstring * IngestText.Metadata) :=
  List.map (fun c => (IngestText.content c, IngestText.metadata c))
           (IngestText.splitIntoChunks text).

Definition pdfChunks (text : jsstring) : list (jsstring * IngestPdf.Metadata) :=
  List.map (fun c => (IngestPdf.content c, IngestPdf.metadata c))
           (IngestPdf.splitIntoChunks text).

(** A run of the text script; [file] is [None] when the file does not exist.
    The table is cleared, then the chunks are inserted in batches of 5. *)
Definition ingestTextFile (embedQuery : jsstring -> option Embedding)
  (insertReply : list (Row IngestText.Metadata) -> jsstring -> Reply)
  (newId : list (Row IngestText.Metadata) -> Z)
  (deleteFails : list (Row IngestText.Metadata) -> bool)
  (file : option jsstring) (table : list (Row IngestText.Metadata))
  : Run IngestText.Metadata :=
  let w := {| rows := table; sent := [] |} in
  match file with
  | None => {| outcome := Exited 1; world := w |}
  | Some text =>
      let chunks := textChunks text in
      match clear deleteFails w with
      | None => {| outcome := Exited 1; world := send Delete w |}
      | Some w' =>
          let '(w'', n) := insertAll embedQuery insertReply newId 5 chunks w' in
          {| outcome := Completed n; world := w'' |}
      end
  end.

(** A run of the PDF script; [extracted] is the text read from the PDF,
    [None] when the file does not exist.  The chunks are inserted in batches
    of 10; no delete request is sent. *)
Definition ingestPDF (embedQuery : jsstring -> option Embedding)
  (insertReply : list (Row IngestPdf.Metadata) -> jsstring -> Reply)
  (newId : list (Row IngestPdf.Metadata) -> Z)
  (extracted : option jsstring) (table : list (Row IngestPdf.Metadata))
  : Run IngestPdf.Metadata :=
  let w := {| rows := table; sent := [] |} in
  match extracted with
  | None => {| outcome := Exited 1; world := w |}
  | Some text =>
      let chunks := pdfChunks text in
      let '(w', n) := insertAll embedQuery insertReply newId 10 chunks w in
      {| outcome := Completed n; world := w' |}
  end.

(** A row made from one of the chunks of a list. *)
Definition ofChunks {M : Type} (chunks : list (jsstring * M)) (row : Row M)
  : Prop :=
  (content row, metadata row) ∈ chunks.

(** What holds of the state of the loop over the chunks, started in [w0],
    after [processed] chunks: rows were only added, each made from a chunk;
    only inserts were sent, each when the table held nothing but the rows of
    [w0] and rows of this run; and the counters add up. *)
Inductive InsertedOnly {M : Type} (chunks : list (jsstring * M))
  (w0 : World M) (processed : nat) (st : World M * Counts) : Prop :=
| InsertedOnly_intro (added : list (Row M))
    (requests : list (Request M * list (Row M)))
    (rows_added : rows (fst st) = rows w0 ++ added)
    (sent_added : sent (fst st) = sent w0 ++ requests)
    (added_ofChunks : Forall (ofChunks chunks) added)
    (requests_inserts :
       Forall (fun r => isInsert (fst r) = true
                        /\ Forall (fun row => row ∈ rows w0
                                              \/ ofChunks chunks row)
                                  (snd r))
              requests)
    (counted_rows : successCount (snd st) = Z.of_nat (List.length added))
    (counted_all :
       successCount (snd st) + errorCount (snd st) = Z.of_nat processed).

End Ingestion.


(** ** Retrieval: what the chat routes share *)

Module Retrieval.

Definition Embedding : Type := list Q.

(** The metadata of a stored chunk, as the routes read it. *)
Record Metadata : Type := {
  program_name : option jsstring;
  program_code : option jsstring;
  institution : option jsstring;
  section : option jsstring
}.

Record MatchDocumentsResult : Type := {
  id : Z;
  content : jsstring;
  metadata : Metadata;
  similarity : Q
}.

(** A row as the hybrid search function of the store returns it. *)
Record Scored : Type := {
  row_id : Z;
  row_content : jsstring;
  row_metadata : Metadata;
  match_score : option Q;
  final_score : option Q
}.

(** A row as a plain select returns it. *)
Record Plain : Type := {
  plain_id : Z;
  plain_content : jsstring;
  plain_metadata : Metadata
}.

(** What a call to the store comes back with: it rejects, or resolves to an
    error, or to data, which may be null. *)
Inductive Reply (A : Type) : Type :=
| Rejects
| Error
| Data (data : option (list A)).
Arguments Rejects {A}.
Arguments Error {A}.
Arguments Data {A} _.

(** [data || []] *)
Definition orEmpty {A : Type} (data : option (list A)) : list A :=
  match data with Some l => l | None => [] end.

(** [a || b] on numbers: 0 and undefined give way. *)
Definition numOr (a : option Q) (b : Q) : Q :=
  match a with
  | Some q => if Qeq_bool q 0 then b else q
  | None => b
  end.

(** What the analysis model is asked to return; a field that is absent or
    null is [None]. *)
Record QueryAnalysis : Type := {
  program : option jsstring;
  university : option jsstring;
  code : option jsstring;
  search_query : option jsstring;
  search_queries : option (list jsstring);
  is_general_question : option bool;
  keywords : option (list jsstring)
}.

(** What [JSON.parse] hands to the analyzer: [null], of which no property
    can be read, or a value that is read through its properties; a value
    that has none of them, such as a number, a string or an array, is the
    record in which every field is absent.  A field that is there holds
    what the prompt asks for: a string, a list of strings or a boolean. *)
Inductive Parsed : Type :=
| Null
| Value (analysis : QueryAnalysis).

(** [a || b] on strings. *)
Definition strOr (a : option jsstring) (b : jsstring) : jsstring :=
  match a with
  | Some s => if truthy s then s else b
  | None => b
  end.

(** The code fences stripped from the answer of the analysis model. *)
Definition codeFence : regex := Alt (text "```json") (text "```").

(** What a request can fail on: the embedding of a text, or the search of
    the store for a text. *)
Inductive Failure : Type :=
| EmbeddingFailed (text : jsstring)
| SearchFailed (queryText : jsstring).

(** A computation that may raise. *)
Inductive Result (A : Type) : Type :=
| Raised (why : Failure)
| Ok (a : A).
Arguments Raised {A} _.
Arguments Ok {A} _.

Definition bind {A B : Type} (c : Result A) (k : A -> Result B) : Result B :=
  match c with
  | Raised why => Raised why
  | Ok a => k a
  end.

Notation "'await' x <- c ; k" := (bind c (fun x => k))
  (at level 10, x name, c at level 100, k at level 200).

(** [await embeddings.embedQuery(text)] *)
Definition embed (embedQuery : jsstring -> option Embedding) (text : jsstring)
  : Result Embedding :=
  match embedQuery text with
  | Some e => Ok e
  | None => Raised (EmbeddingFailed text)
  end.

(** A store whose failures are replaced by an empty answer. *)
Definition quiet {A : Type} (rpc : Embedding -> jsstring -> Q -> Z -> Reply A)
  : Embedding -> jsstring -> Q -> Z -> Reply A :=
  fun e t threshold count =>
    match rpc e t threshold count with
    | Data data => Data data
    | Error | Rejects => Data (Some [])
    end.

(** The running result set and the ids it holds. *)
Record Merged : Type := {
  relevantDocs : list MatchDocumentsResult;
  existingIds : gset Z
}.

Definition nothing : Merged := {| relevantDocs := []; existingIds := ∅ |}.

(** The body of the loop of [addDocs]. *)
Definition addDoc (st : Merged) (doc : MatchDocumentsResult) : Merged :=
  if decide (id doc ∈ existingIds st) then st
  else {| relevantDocs := relevantDocs st ++ [doc];
          existingIds := {[ id doc ]} ∪ existingIds st |}.

Definition addDocs (st : Merged) (docs : list MatchDocumentsResult) : Merged :=
  fold_left addDoc docs st.

(** [arr.sort(cmp)]: the stable sort, for a comparator that is consistent.
    [cmp x y < 0] puts [x] first; elements that compare equal keep their
    order. *)
Fixpoint insertSorted {A : Type} (cmp : A -> A -> Q) (x : A) (l : list A)
  : list A :=
  match l with
  | [] => [x]
  | y :: l' =>
      if Qle_bool (cmp x y) 0 then x :: l
      else y :: insertSorted cmp x l'
  end.

Fixpoint sort {A : Type} (cmp : A -> A -> Q) (l : list A) : list A :=
  match l with
  | [] => []
  | x :: l' => insertSorted cmp x (sort cmp l')
  end.

(** [before cmp x y]: the comparator does not put [y] ahead of [x]. *)
Definition before {A : Type} (cmp : A -> A -> Q) (x y : A) : Prop :=
  (cmp x y <= 0)%Q.

(** The integer nearest to a rational, the even one on a tie. *)
Definition halfEven (q : Q) : Z :=
  let n := Qfloor q in
  match (q - inject_Z n ?= 1 # 2)%Q with
  | Lt => n
  | Gt => n + 1
  | Eq => if Z.even n then n else n + 1
  end.

(** The exponent of the last place of the binary64 numbers around a
    positive rational [q]: the [e] with [2^52 <= q / 2^e < 2^53], and
    [-1074] for what lies below the normal numbers. *)
Definition lastPlace (q : Q) : Z :=
  let e := Z.log2 (Qnum q) - Z.log2 (Zpos (Qden q)) - 52 in
  let e := if Qle_bool (inject_Z (2 ^ 52)) (q / Qpower 2 e)%Q then e
           else e - 1 in
  Z.max e (-1074).

(** A rational read as a JavaScript number: the IEEE 754 binary64 value
    nearest to it, the one with the even significand on a tie.  A number is
    a rational that this leaves as it is; the scores of the rows of the
    store are numbers, and a score written in decimal stands for the number
    nearest to it.  Magnitudes of [2^1024] and more, which the numbers round
    to Infinity, are outside this model. *)
Definition number (q : Q) : Q :=
  if Qeq_bool q 0 then 0%Q
  else
    let a := Qabs q in
    let e := lastPlace a in
    let v := (inject_Z (halfEven (a / Qpower 2 e)) * Qpower 2 e)%Q in
    if Qlt_le_dec q 0 then (- v)%Q else v.

(** [x * y] on numbers: the product, rounded to a number. *)
Definition times (x y : Q) : Q := number (number x * number y)%Q.

(** [x.toFixed(f)] on a number below 10^21: the decimal with [f] digits
    after the point that is nearest to the value of the number, the larger
    one on a tie, after the sign is set aside. *)
Definition toFixed (x : Q) (f : nat) : jsstring :=
  let x := number x in
  let ax := Qabs x in
  let n := Qfloor (ax * inject_Z (10 ^ Z.of_nat f) + (1 # 2)) in
  let ds := digits n in
  let padded := replicate (S f - List.length ds) 48 ++ ds in
  let int := take (List.length padded - f) padded in
  let frac := drop (List.length padded - f) padded in
  (if Qlt_le_dec x 0 then lit "-" else [])
    ++ int ++ (match f with O => [] | S _ => lit "." ++ frac end).

(** The first document of a list that has a given id. *)
Definition firstWithId (i : Z) (docs : list MatchDocumentsResult)
  : option MatchDocumentsResult :=
  List.find (fun d => bool_decide (id d = i)) docs.

(** What is true of the result set after any number of additions: its ids
    are those recorded, none twice, they are the ids seen so far, and each
    document kept is the first seen with its id. *)
Record MergedFrom (seen : list MatchDocumentsResult) (st : Merged) : Prop := {
  ids_recorded : forall i, i ∈ existingIds st <-> i ∈ List.map id (relevantDocs st);
  ids_once : NoDup (List.map id (relevantDocs st));
  ids_seen : forall i, i ∈ List.map id seen <-> i ∈ List.map id (relevantDocs st);
  kept_first : forall d, d ∈ relevantDocs st -> firstWithId (id d) seen = Some d
}.

End Retrieval.


(** ** The chat route *)

Module Chat.

Import Retrieval.

Inductive Response : Type :=
| Status400
| Status500
| Streams (sources : list MatchDocumentsResult) (context : jsstring).

Definition noInformation : jsstring :=
  lit "لا توجد معلومات متاحة في قاعدة البيانات للإجابة على هذا السؤال.".

Definition divider : jsstring :=
  [LF; LF] ++ lit "────────────────────────────────────" ++ [LF; LF].

(** The block of one document; [index] counts from 0. *)
Definition formatDoc (index : nat) (doc : MatchDocumentsResult) : jsstring :=
  let md := metadata doc in
  let programCode :=
    match program_code md with
    | Some c => if truthy c then lit "(" ++ c ++ lit ")" else []
    | None => []
    end in
  let institution := strOr (institution md) (lit "غير محدد") in
  let programName := strOr (program_name md) (lit "غير محدد") in
  lit "═══ مصدر " ++ digits (Z.of_nat index + 1) ++ lit " ═══" ++ [LF]
  ++ lit "اسم المؤسسة التعليمية: " ++ institution ++ [LF]
  ++ lit "اسم البرنامج الدراسي: " ++ programName ++ lit " " ++ programCode
  ++ [LF]
  ++ lit "القسم: " ++ strOr (section md) (lit "عام") ++ [LF]
  ++ lit "المحتوى والشروط:" ++ [LF]
  ++ content doc ++ [LF]
  ++ lit "(نسبة التطابق مع البحث: "
  ++ toFixed (times (similarity doc) 100) 0 ++ lit "%)".

Definition formatContext (docs : list MatchDocumentsResult) : jsstring :=
  match docs with
  | [] => noInformation
  | _ => join divider (imap formatDoc docs)
  end.

(** The comparator given to [relevantDocs.sort]. *)
Definition byRelevance (program : option jsstring)
  (a b : MatchDocumentsResult) : Q :=
  let bySimilarity := (similarity b - similarity a)%Q in
  match program with
  | Some p =>
      if truthy p then
        let aMatchesProg := includes (content a) p in
        let bMatchesProg := includes (content b) p in
        if aMatchesProg && negb bMatchesProg then (-1)%Q
        else if negb aMatchesProg && bMatchesProg then 1%Q
        else bySimilarity
      else bySimilarity
  | None => bySimilarity
  end.

Section Collaborators.

(** The instruction template with the question put in it. *)
Variable prompt : jsstring -> jsstring.
(** [analysisModel.invoke], [None] when it rejects. *)
Variable invoke : jsstring -> option jsstring.
(** [JSON.parse], [None] when it throws. *)
Variable JSON_parse : jsstring -> option Parsed.
Variable embedQuery : jsstring -> option Embedding.
(** [supabase.rpc('match_documents_hybrid', ...)] *)
Variable rpc : Embedding -> jsstring -> Q -> Z -> Reply Scored.

Definition fallback (query : jsstring) : QueryAnalysis :=
  {| program := None; university := None; code := None;
     search_query := Some query; search_queries := None;
     is_general_question := None; keywords := None |}.

Definition analyzeQuery (query : jsstring) : Parsed :=
  match invoke (prompt query) with
  | Some content =>
      let jsonStr := trim (replaceGlobal codeFence content []) in
      match JSON_parse jsonStr with
      | Some analysis => analysis
      | None => Value (fallback query)
      end
  | None => Value (fallback query)
  end.

Definition scored (doc : Scored) : MatchDocumentsResult :=
  {| id := row_id doc; content := row_content doc;
     metadata := row_metadata doc;
     similarity := numOr (match_score doc) 0 |}.

(** Whatever the store does, the caller gets a list. *)
Definition matchDocuments (queryEmbedding : Embedding) (queryText : jsstring)
  (matchThreshold : Q) (matchCount : Z) : list MatchDocumentsResult :=
  match rpc queryEmbedding queryText matchThreshold matchCount with
  | Data data => List.map scored (orEmpty data)
  | Error | Rejects => []
  end.

(** The texts a request may ask an embedding for. *)
Definition embedded (analysis : QueryAnalysis) (message : jsstring)
  : list jsstring :=
  [ strOr (search_query analysis) message; strOr (program analysis) [];
    strOr (code analysis) []; strOr (university analysis) [] ].

(** The stages of retrieval, up to the merged result set. *)
Definition gather (analysis : QueryAnalysis) (message : jsstring)
  : Result Merged :=
  let optimizedQuery := strOr (search_query analysis) message in
  await queryEmbedding <- embed embedQuery optimizedQuery;
  let st1 := addDocs nothing
               (matchDocuments queryEmbedding optimizedQuery (1 # 10) 8) in
  await st2 <-
    (match program analysis with
     | Some p =>
         if truthy p && negb (bool_decide (p = optimizedQuery)) then
           await progEmbedding <- embed embedQuery p;
           Ok (addDocs st1 (matchDocuments progEmbedding p (1 # 10) 5))
         else Ok st1
     | None => Ok st1
     end);
  await st3 <-
    (match code analysis with
     | Some c =>
         if truthy c then
           await codeEmbedding <- embed embedQuery c;
           Ok (addDocs st2 (matchDocuments codeEmbedding c (5 # 100) 5))
         else Ok st2
     | None => Ok st2
     end);
  match university analysis with
  | Some u =>
      if (Z.of_nat (List.length (relevantDocs st3)) <? 5) && truthy u then
        await uniEmbedding <- embed embedQuery u;
        Ok (addDocs st3 (matchDocuments uniEmbedding u (1 # 10) 5))
      else Ok st3
  | None => Ok st3
  end.

(** The documents handed to the formatter: merged, sorted, cut to 12. *)
Definition retrieve (analysis : QueryAnalysis) (message : jsstring)
  : Result (list MatchDocumentsResult) :=
  await st <- gather analysis message;
  Ok (take 12 (sort (byRelevance (program analysis)) (relevantDocs st))).

(** The request handler, up to the context given to the chat model;
    [message] is [None] when the body carries no string under that key.
    Reading [analysis.search_query] of [null] throws, which the handler
    catches as it catches what retrieval raises. *)
Definition POST (message : option jsstring) : Response :=
  match message with
  | None => Status400
  | Some message =>
      if truthy message then
        match analyzeQuery message with
        | Null => Status500
        | Value analysis =>
            match retrieve analysis message with
            | Ok relevantDocs =>
                Streams relevantDocs (formatContext relevantDocs)
            | Raised _ => Status500
            end
        end
      else Status400
  end.

End Collaborators.

End Chat.


(** ** The multi-strategy variant of the chat route *)

Module ChatMulti.

Import Retrieval.

Definition noInformation : jsstring := lit "لا توجد معلومات متاحة حالياً.".

Definition divider : jsstring :=
  [LF; LF] ++ lit "────────────────────────────────────" ++ [LF; LF].

(** [/\(([^)]+)\)/] *)
Definition inParentheses : pattern :=
  once (cat [text "("; Group 1 (plus (noneOf [ch ")"])); text ")"]).

Definition formatDoc (index : nat) (doc : MatchDocumentsResult) : jsstring :=
  let md := metadata doc in
  let programCode :=
    match program_code md with
    | Some c => if truthy c then lit "(" ++ c ++ lit ")" else []
    | None => []
    end in
  let fromName :=
    match program_name md with
    | Some n =>
        match match_ n inParentheses with
        | Some mt => at_ mt 1
        | None => None
        end
    | None => None
    end in
  let institution :=
    strOr (institution md) (strOr fromName (lit "غير محدد")) in
  let programName := strOr (program_name md) (lit "برنامج دراسي") in
  let section := strOr (section md) [] in
  lit "═══ معلومة " ++ digits (Z.of_nat index + 1) ++ lit " ═══" ++ [LF]
  ++ lit "🏫 المؤسسة: " ++ institution ++ [LF]
  ++ lit "📚 البرنامج: " ++ programName ++ lit " " ++ programCode ++ [LF]
  ++ (if truthy section then lit "📂 القسم: " ++ section else []) ++ [LF]
  ++ lit "📝 التفاصيل:" ++ [LF]
  ++ content doc ++ [LF]
  ++ lit "(نسبة الصلة: " ++ toFixed (times (similarity doc) 100) 0 ++ lit "%)".

Definition formatContext (docs : list MatchDocumentsResult) : jsstring :=
  match docs with
  | [] => noInformation
  | _ => join divider (imap formatDoc docs)
  end.

Section Collaborators.

Variable prompt : jsstring -> jsstring.
Variable invoke : jsstring -> option jsstring.
Variable JSON_parse : jsstring -> option Parsed.
Variable embedQuery : jsstring -> option Embedding.
Variable rpc : Embedding -> jsstring -> Q -> Z -> Reply Scored.
(** The select with the [ilike] conditions, and the select of rows that
    have a program name, each with its limit. *)
Variable selectLike : list jsstring -> Z -> Reply Plain.
Variable selectNamed : Z -> Reply Plain.
(** [String.prototype.toLowerCase] *)
Variable toLowerCase : jsstring -> jsstring.

Definition fallback (query : jsstring) : QueryAnalysis :=
  {| program := None; university := None; code := None;
     search_query := None; search_queries := Some [query];
     is_general_question := Some true;
     keywords := Some (List.filter (fun w => 2 <? length w)
                                   (splitOn 32 query)) |}.

Definition analyzeQuery (query : jsstring) : Parsed :=
  match invoke (prompt query) with
  | Some content =>
      let jsonStr := trim (replaceGlobal codeFence content []) in
      match JSON_parse jsonStr with
      | Some analysis => analysis
      | None => Value (fallback query)
      end
  | None => Value (fallback query)
  end.

Definition scored (doc : Scored) : MatchDocumentsResult :=
  {| id := row_id doc; content := row_content doc;
     metadata := row_metadata doc;
     similarity := numOr (match_score doc) (numOr (final_score doc) 0) |}.

Definition matchDocuments (queryEmbedding : Embedding) (queryText : jsstring)
  (matchThreshold : Q) (matchCount : Z) : list MatchDocumentsResult :=
  match rpc queryEmbedding queryText matchThreshold matchCount with
  | Data data => List.map scored (orEmpty data)
  | Error | Rejects => []
  end.

Definition withSimilarity (s : Q) (doc : Plain) : MatchDocumentsResult :=
  {| id := plain_id doc; content := plain_content doc;
     metadata := plain_metadata doc; similarity := s |}.

Definition directTextSearch (searchTerms : list jsstring) (limit : Z)
  : list MatchDocumentsResult :=
  match selectLike searchTerms limit with
  | Data data => List.map (withSimilarity (5 # 10)) (orEmpty data)
  | Error | Rejects => []
  end.

Definition getRandomSample (limit : Z) : list MatchDocumentsResult :=
  match selectNamed limit with
  | Data data => List.map (withSimilarity (3 # 10)) (orEmpty data)
  | Error | Rejects => []
  end.

(** The loop of the first strategy, which stops at 15 documents. *)
Fixpoint searchAll (searchQueries : list jsstring) (st : Merged)
  : Result Merged :=
  match searchQueries with
  | [] => Ok st
  | searchQuery :: rest =>
      await queryEmbedding <- embed embedQuery searchQuery;
      let st' := addDocs st
                   (matchDocuments queryEmbedding searchQuery (5 # 100) 12) in
      if 15 <=? Z.of_nat (List.length (relevantDocs st')) then Ok st'
      else searchAll rest st'
  end.

Definition count (st : Merged) : Z := Z.of_nat (List.length (relevantDocs st)).

Definition gather (analysis : QueryAnalysis) (message : jsstring)
  : Result Merged :=
  let searchQueries :=
    match search_queries analysis with
    | Some qs => qs
    | None => [message]
    end in
  let hasProgram := truthy_opt (program analysis) in
  await st1 <- searchAll (take 3 searchQueries) nothing;
  await st2 <-
    (if hasProgram && (count st1 <? 10) then
       let p := strOr (program analysis) [] in
       await progEmbedding <- embed embedQuery p;
       Ok (addDocs st1 (matchDocuments progEmbedding p (5 # 100) 10))
     else Ok st1);
  await st3 <-
    (if truthy_opt (code analysis) then
       let c := strOr (code analysis) [] in
       await codeEmbedding <- embed embedQuery c;
       Ok (addDocs st2 (matchDocuments codeEmbedding c (1 # 100) 5))
     else Ok st2);
  let st4 :=
    if count st3 <? 5 then
      let keywords :=
        orEmpty (keywords analysis)
        ++ (if hasProgram then [strOr (program analysis) []] else []) in
      match keywords with
      | [] => st3
      | _ => addDocs st3 (directTextSearch keywords 10)
      end
    else st3 in
  Ok (if (count st4 <? 3) && bool_decide (is_general_question analysis = Some true)
      then addDocs st4 (getRandomSample 10)
      else st4).

(** The comparator of this variant lowers both sides before it looks for
    the program name. *)
Definition byRelevance (program : option jsstring)
  (a b : MatchDocumentsResult) : Q :=
  let bySimilarity := (similarity b - similarity a)%Q in
  match program with
  | Some p =>
      if truthy p then
        let aMatchesProg := includes (toLowerCase (content a)) (toLowerCase p) in
        let bMatchesProg := includes (toLowerCase (content b)) (toLowerCase p) in
        if aMatchesProg && negb bMatchesProg then (-1)%Q
        else if negb aMatchesProg && bMatchesProg then 1%Q
        else bySimilarity
      else bySimilarity
  | None => bySimilarity
  end.

Definition retrieve (analysis : QueryAnalysis) (message : jsstring)
  : Result (list MatchDocumentsResult) :=
  await st <- gather analysis message;
  Ok (take 15 (sort (byRelevance (program analysis)) (relevantDocs st))).

End Collaborators.

End ChatMulti.

(** ** The library: one search, no catch *)

Module Lib.

Import Retrieval.

Definition noInformation : jsstring :=
  lit "لا توجد معلومات متاحة في قاعدة البيانات للإجابة على هذا السؤال.".

Definition formatDoc (index : nat) (doc : MatchDocumentsResult) : jsstring :=
  let md := metadata doc in
  let programInfo :=
    match program_name md with
    | Some n =>
        if truthy n
        then lit "[" ++ n ++ lit " - "
             ++ strOr (institution md) (lit "غير محدد") ++ lit "]"
        else []
    | None => []
    end in
  lit "--- مقطع " ++ digits (Z.of_nat index + 1) ++ lit " " ++ programInfo
  ++ lit " (تطابق: " ++ toFixed (times (similarity doc) 100) 1 ++ lit "%) ---"
  ++ [LF] ++ content doc.

Definition formatContext (docs : list MatchDocumentsResult) : jsstring :=
  match docs with
  | [] => noInformation
  | _ => join [LF; LF] (imap formatDoc docs)
  end.

Section Collaborators.

Variable embedQuery : jsstring -> option Embedding.
Variable rpc : Embedding -> jsstring -> Q -> Z -> Reply MatchDocumentsResult.

(** An error of the store is thrown again, a rejection is not caught. *)
Definition matchDocuments (queryEmbedding : Embedding) (queryText : jsstring)
  (matchThreshold : Q) (matchCount : Z) : Result (list MatchDocumentsResult) :=
  match rpc queryEmbedding queryText matchThreshold matchCount with
  | Data data => Ok (orEmpty data)
  | Error | Rejects => Raised (SearchFailed queryText)
  end.

Definition retrieveRelevantDocs (query : jsstring) (threshold : Q) (limit : Z)
  : Result (list MatchDocumentsResult) :=
  await queryEmbedding <- embed embedQuery query;
  matchDocuments queryEmbedding query threshold limit.

(** The context [createRAGResponse] and [streamRAGResponse] build. *)
Definition context (question : jsstring) : Result jsstring :=
  await relevantDocs <- retrieveRelevantDocs question (2 # 10) 10;
  Ok (formatContext relevantDocs).

End Collaborators.

End Lib.

(** ** Sample inputs *)

Module Sample.

Import Retrieval.

Definition noMetadata : Metadata :=
  {| program_name := None; program_code := None;
     institution := None; section := None |}.

Definition medicine : jsstring := lit "طب".

(** Two documents of equal similarity; only the first names the program. *)
Definition docA : MatchDocumentsResult :=
  {| id := 1; content := lit "اسم البرنامج: طب"; metadata := noMetadata;
     similarity := 5 # 10 |}.
Definition docB : MatchDocumentsResult :=
  {| id := 2; content := lit "اسم البرنامج: هندسة معمارية";
     metadata := noMetadata; similarity := 5 # 10 |}.

(** A document with a section line and two programs. *)
Definition twoPrograms : jsstring := lit "قسم الهندسة
1. اسم البرنامج: هندسة معمارية
رمز البرنامج: BS140
المؤسسة التعليمية: جامعة ظفار
الحد الأدنى: 70 في الرياضيات والفيزياء
_____
اسم البرنامج: طب
رمز البرنامج: SQ959
الحد الأدنى: 90 في الأحياء والكيمياء والفيزياء
".

Definition oneProgram : jsstring := lit "اسم البرنامج: طب
رمز البرنامج: SQ959
الحد الأدنى: 90 في الأحياء والكيمياء والفيزياء
".

(** The first chunk of [twoPrograms]. *)
Definition architecture : IngestText.ProgramChunk :=
  {| IngestText.content := lit "1. اسم البرنامج: هندسة معمارية
رمز البرنامج: BS140
المؤسسة التعليمية: جامعة ظفار
الحد الأدنى: 70 في الرياضيات والفيزياء";
     IngestText.metadata :=
       {| IngestText.program_name := Some (lit "هندسة معمارية");
          IngestText.program_code := Some (lit "BS140");
          IngestText.institution := Some (lit "جامعة ظفار");
          IngestText.section := Some (lit "الهندسة");
          IngestText.chunk_type := IngestText.program;
          IngestText.chunk_index := 0 |} |}.


(** The same program ten times over. *)
Definition tenPrograms : jsstring := List.concat (replicate 10 oneProgram).

Definition question : jsstring := lit "ما هي شروط الطب؟".

(** The last line of the instruction template. *)
Definition template (query : jsstring) : jsstring := lit "السؤال: " ++ query.

(** An analysis model that answers with something that is no JSON, and a
    parser that throws on it. *)
Definition chatter (prompt : jsstring) : option jsstring :=
  Some (lit "عذراً، لا أستطيع تحليل هذا السؤال").
Definition neverParses (jsonStr : jsstring) : option Parsed := None.

(** What the analyzer makes of [question]. *)
Definition analysis : QueryAnalysis :=
  {| program := Some medicine; university := None; code := None;
     search_query := Some (lit "شروط الطب"); search_queries := None;
     is_general_question := None; keywords := None |}.

(** An embedding provider that fails on the program name alone, and one
    that never fails. *)
Definition failsOnProgram (text : jsstring) : option Embedding :=
  if bool_decide (text = medicine) then None else Some [1 # 2; 1 # 3].
Definition embeds (text : jsstring) : option Embedding := Some [1 # 2; 1 # 3].

(** A store that returns [docA] and [docB] to every search, one that fails
    on the program name, and one that always fails. *)
Definition asRow (d : MatchDocumentsResult) : Scored :=
  {| row_id := id d; row_content := content d; row_metadata := metadata d;
     match_score := Some (similarity d); final_score := None |}.
Definition answers (e : Embedding) (t : jsstring) (threshold : Q) (count : Z)
  : Reply Scored :=
  Data (Some [asRow docB; asRow docA]).
Definition failsOnProgramSearch (e : Embedding) (t : jsstring) (threshold : Q)
  (count : Z) : Reply Scored :=
  if bool_decide (t = medicine) then Error else Data (Some [asRow docB; asRow docA]).
Definition down (e : Embedding) (t : jsstring) (threshold : Q) (count : Z)
  : Reply MatchDocumentsResult :=
  Error.

(** A text the PDF script cuts in two chunks. *)
Definition pdfText : jsstring := lit "قسم الهندسة
1. اسم البرنامج: هندسة معمارية
رمز البرنامج: BS140
المؤسسة التعليمية: جامعة ظفار
الحد الأدنى: 70 في الرياضيات والفيزياء
_____
اسم البرنامج: طب
رمز البرنامج: SQ959
الحد الأدنى: 90 في الأحياء والكيمياء والفيزياء ..........................
".

(** A store that accepts every insert and numbers the rows as they come. *)
Definition accepts {M : Type} (table : list (Ingestion.Row M))
  (content : jsstring) : Ingestion.Reply :=
  Ingestion.Stored.
Definition nextId {M : Type} (table : list (Ingestion.Row M)) : Z :=
  100 + Z.of_nat (List.length table).

(** A row left by an earlier run of the PDF script. *)
Definition oldPdfRow : Ingestion.Row IngestPdf.Metadata :=
  {| Ingestion.id := 7; Ingestion.content := lit "اسم البرنامج: محاسبة";
     Ingestion.metadata :=
       {| IngestPdf.program_name := Some (lit "محاسبة");
          IngestPdf.program_code := None; IngestPdf.institution := None;
          IngestPdf.section := None; IngestPdf.chunk_index := 1 |};
     Ingestion.embedding := [] |}.

(** A row of the text script whose id is 0. *)
Definition rowZero : Ingestion.Row IngestText.Metadata :=
  {| Ingestion.id := 0; Ingestion.content := lit "اسم البرنامج: محاسبة";
     Ingestion.metadata :=
       {| IngestText.program_name := Some (lit "محاسبة");
          IngestText.program_code := None; IngestText.institution := None;
          IngestText.section := None;
          IngestText.chunk_type := IngestText.program;
          IngestText.chunk_index := 0 |};
     Ingestion.embedding := [] |}.

(** A row of the text script with an ordinary id. *)
Definition rowSeven : Ingestion.Row IngestText.Metadata :=
  {| Ingestion.id := 7; Ingestion.content := Ingestion.content rowZero;
     Ingestion.metadata := Ingestion.metadata rowZero;
     Ingestion.embedding := [] |}.

End Sample.

(** ** What a pattern can consume and capture *)

Module Captures.

(** No match of the pattern consumes the code unit [f]. *)
Fixpoint avoids (f : Z) (r : regex) : bool :=
  match r with
  | Lit s => negb (existsb (Z.eqb f) s)
  | Class neg items => negb (xorb neg (existsb (inSet f) items))
  | Seq r1 r2 | Alt r1 r2 => avoids f r1 && avoids f r2
  | Rep _ _ _ r' | Group _ r' => avoids f r'
  | Ahead _ | Bol | Eol => true
  end.

(** Every match of the pattern consumes at least one code unit. *)
Fixpoint consumesSome (r : regex) : bool :=
  match r with
  | Lit s => match s with [] => false | _ :: _ => true end
  | Class _ _ => true
  | Seq r1 r2 => consumesSome r1 || consumesSome r2
  | Alt r1 r2 => consumesSome r1 && consumesSome r2
  | Rep min max _ r' =>
      (0 <? min)%nat
      && match max with Some O => false | _ => true end
      && consumesSome r'
  | Group _ r' => consumesSome r'
  | Ahead _ | Bol | Eol => false
  end.

(** Group [i] occurs in the pattern. *)
Fixpoint mentions (i : nat) (r : regex) : bool :=
  match r with
  | Group j r' => (i =? j)%nat || mentions i r'
  | Seq r1 r2 | Alt r1 r2 => mentions i r1 || mentions i r2
  | Rep _ _ _ r' | Ahead r' => mentions i r'
  | Lit _ | Class _ _ | Bol | Eol => false
  end.

(** The pattern is a sequence in which group [i] stands once, outside of
    alternatives and quantifiers: what the group encloses. *)
Fixpoint lastGroup (i : nat) (r : regex) : option regex :=
  match r with
  | Group j v => if (i =? j)%nat then Some v else None
  | Seq r1 r2 => if mentions i r2 then lastGroup i r2 else lastGroup i r1
  | _ => None
  end.

(** Group 1 stands once in the sequence of a pattern without the global
    flag, and what it encloses always consumes and avoids [f]. *)
Definition captures1 (f : Z) (p : pattern) : bool :=
  negb (global p) && (1 <=? ngroups (re p))%nat
  && match lastGroup 1 (re p) with
     | Some v => avoids f v && consumesSome v
     | None => false
     end.

End Captures.

(** ** What the chunks of the text script have in common *)

Module TextChunks.

Import IngestText.

(** The chunks pushed so far are numbered from 0 in the order they were
    pushed, and the counter is their number. *)
Definition Numbered (cs : Chunks) : Prop :=
  List.map (fun c => chunk_index (metadata c)) (chunks cs)
  = seqZ 0 (chunkIndex cs)
  /\ chunkIndex cs = Z.of_nat (List.length (chunks cs)).

(** The section in force after a list of chunks: the section of the last
    section header among them, [current] when there is none. *)
Fixpoint sectionAfter (current : jsstring) (cs : list ProgramChunk) : jsstring :=
  match cs with
  | [] => current
  | c :: cs' =>
      sectionAfter
        (match chunk_type (metadata c), section (metadata c) with
         | section_header, Some s => s
         | _, _ => current
         end) cs'
  end.

(** Every program chunk of a list carries the section in force where it
    stands. *)
Fixpoint Sectioned (current : jsstring) (cs : list ProgramChunk) : Prop :=
  match cs with
  | [] => True
  | c :: cs' =>
      (chunk_type (metadata c) = program ->
       section (metadata c) = Some current)
      /\ Sectioned (sectionAfter current [c]) cs'
  end.

(** A string that [trim] leaves as it is. *)
Definition trimmed (s : jsstring) : Prop := trim s = s.

(** What the line-by-line splitter holds between two lines: lines of the
    text, trimmed, and fields that were read from such lines. *)
Record Collected (text : jsstring) (F : jsstring -> Prop) (st : Lines)
  : Prop := {
  collected_lines :
    Forall (fun l => exists line, line ∈ splitOn LF text /\ l = trim line)
           (currentBlock st);
  collected_name : forall v, currentProgramName st = Some v -> F v;
  collected_code : forall v, currentProgramCode st = Some v -> F v;
  collected_institution : forall v, currentInstitution st = Some v -> F v
}.

End TextChunks.

(** ** What the chunks of the PDF script have in common *)

Module PdfChunks.

Import IngestPdf.

(** The chunks pushed so far are numbered from [first] on, one by one, and
    the counter is the number that comes next. *)
Definition NumberedFrom (first : Z) (cs : Chunks) : Prop :=
  List.map (fun c => chunk_index (metadata c)) (chunks cs)
  = seqZ first (Z.of_nat (List.length (chunks cs)))
  /\ chunkIndex cs = first + Z.of_nat (List.length (chunks cs)).

(** A pattern that matches without consuming. *)
Fixpoint zeroWidth (r : regex) : bool :=
  match r with
  | Ahead _ | Bol | Eol => true
  | Alt r1 r2 | Seq r1 r2 => zeroWidth r1 && zeroWidth r2
  | Lit _ | Class _ _ | Rep _ _ _ _ | Group _ _ => false
  end.

(** The windows of the loop of [splitLongBlock]: the values of [start] and
    [end] each time a chunk is pushed. *)
Fixpoint windows (fuel : nat) (text : jsstring) (maxLength overlap start : Z)
  : list (Z * Z) :=
  if start <? length text then
    match fuel with
    | O => []
    | S fuel' =>
        let end_ := cut text maxLength start in
        (start, end_) :: windows fuel' text maxLength overlap (end_ - overlap)
    end
  else [].

(** [p] is in [s] at index [i]. *)
Definition occursAt (i : Z) (p s : jsstring) : Prop :=
  0 <= i <= length s /\ exists after, drop (Z.to_nat i) s = p ++ after.

End PdfChunks.

(** ** What a run sends to the store *)

Module Runs.

Import Ingestion.

(** The insert request a chunk gives rise to; none when its embedding
    fails. *)
Definition insertFor {M : Type} (embedQuery : jsstring -> option Embedding)
  (chunk : jsstring * M) : option (Request M) :=
  match embedQuery (fst chunk) with
  | Some e => Some (Insert (fst chunk) (snd chunk) e)
  | None => None
  end.

End Runs.

(** ** The prompt given to the chat model *)

Module Prompts.

(** [GetSubstitution] for a search string, which has no captures: in the
    replacement [$$] stands for a dollar sign, [$&] for the matched text,
    [$`] for what precedes the match and [$'] for what follows it; any
    other dollar sign stands for itself. *)
Fixpoint getSubstitution (matched preceding following template : jsstring)
  : jsstring :=
  match template with
  | [] => []
  | c :: t =>
      if c =? 36 then
        match t with
        | d :: t' =>
            if d =? 36 then
              36 :: getSubstitution matched preceding following t'
            else if d =? 38 then
              matched ++ getSubstitution matched preceding following t'
            else if d =? 96 then
              preceding ++ getSubstitution matched preceding following t'
            else if d =? 39 then
              following ++ getSubstitution matched preceding following t'
            else 36 :: getSubstitution matched preceding following t
        | [] => [36]
        end
      else c :: getSubstitution matched preceding following t
  end.

(** [s.replace(searchString, replaceValue)] with two strings: the first
    occurrence is replaced, and the string comes back as it is when there
    is none. *)
Definition replaceString (s searchString replaceValue : jsstring) : jsstring :=
  let pos := indexOf s searchString in
  if pos <? 0 then s
  else
    let preceding := take (Z.to_nat pos) s in
    let following := drop (Z.to_nat pos + List.length searchString) s in
    preceding
      ++ getSubstitution searchString preceding following replaceValue
      ++ following.

Section Templates.

(** The two templates of [@/lib/prompts]. *)
Variable SYSTEM_PROMPT : jsstring.
Variable QUESTION_TEMPLATE : jsstring.

Definition finalPrompt (context question : jsstring) : jsstring :=
  let fullSystemPrompt := replaceString SYSTEM_PROMPT (lit "{context}") context in
  let formattedQuestion :=
    replaceString QUESTION_TEMPLATE (lit "{question}") question in
  fullSystemPrompt ++ [LF; LF] ++ formattedQuestion.

End Templates.

End Prompts.

(** ** The event stream of the route *)

Module Stream.

Import Retrieval.

(** A document as the first event carries it. *)
Record Source : Type := {
  source_id : Z;
  source_content : jsstring;
  source_metadata : Metadata;
  source_similarity : Q
}.

(** [doc.content.substring(0, n) + '...'] with the rest of the document. *)
Definition preview (n : Z) (doc : MatchDocumentsResult) : Source :=
  {| source_id := id doc;
     source_content := substring (content doc) 0 n ++ lit "...";
     source_metadata := metadata doc;
     source_similarity := similarity doc |}.

Inductive Event : Type :=
| sources (data : list Source)
| chunk (data : jsstring)
| done
| error (data : jsstring).

(** What [chatModel.stream] comes to when it is iterated: it yields a
    chunk and goes on, or ends, or breaks; a call that rejects breaks before
    the first chunk. *)
Inductive Generation : Type :=
| Ends
| Breaks
| Yields (content : jsstring) (rest : Generation).

Definition streamingError : jsstring := lit "حدث خطأ أثناء معالجة السؤال".

(** The loop over the chunks of the model, with what follows it and with
    the catch clause. *)
Fixpoint relay (response : Generation) : list Event :=
  match response with
  | Ends => [done]
  | Breaks => [error streamingError]
  | Yields content rest =>
      (if truthy content then [chunk content] else []) ++ relay rest
  end.

(** What was enqueued when the controller is closed. *)
Definition start (previewLength : Z) (relevantDocs : list MatchDocumentsResult)
  (response : Generation) : list Event :=
  sources (List.map (preview previewLength) relevantDocs) :: relay response.

(** What the model yielded before it ended or broke. *)
Fixpoint yielded (response : Generation) : list jsstring :=
  match response with
  | Ends | Breaks => []
  | Yields content rest => content :: yielded rest
  end.

Fixpoint completes (response : Generation) : bool :=
  match response with
  | Ends => true
  | Breaks => false
  | Yields _ rest => completes rest
  end.

Section Wire.

(** [JSON.stringify] on the events. *)
Variable JSON_stringify : Event -> jsstring.

(** [`data: ${...}\n\n`] *)
Definition frame (e : Event) : jsstring :=
  lit "data: " ++ JSON_stringify e ++ [LF; LF].

End Wire.

End Stream.

(** ** The reader of the event stream in the chat interface *)

Module Client.

Import Stream.

(** What the interface has gathered of an answer. *)
Record Received : Type := {
  fullContent : jsstring;
  sources_ : list Source
}.

(** What an event does to it: the sources are set, a chunk is added to the
    content, and the other events change nothing. *)
Definition absorb (st : Received) (e : Event) : Received :=
  match e with
  | sources data => {| fullContent := fullContent st; sources_ := data |}
  | chunk data =>
      {| fullContent := fullContent st ++ data; sources_ := sources_ st |}
  | done | error _ => st
  end.

Section Reader.

(** [JSON.parse] on the text of an event, [None] when it throws or returns
    a value in which the reader finds no event. *)
Variable JSON_parse : jsstring -> option Event.

(** The body of the loop over the lines of a read. *)
Definition handle (st : Received) (line : jsstring) : Received :=
  if startsWith line (lit "data: ") then
    match JSON_parse (slice line 6 (length line)) with
    | Some data => absorb st data
    | None => st
    end
  else st.

(** [reads]: the decoded text of each read of the body, in order. *)
Definition receive (reads : list jsstring) : Received :=
  fold_left (fun st read => fold_left handle (splitOn LF read) st) reads
            {| fullContent := []; sources_ := [] |}.

End Reader.

End Client.

(** ** The non-streaming handler of the route *)

Module ChatGet.

Import Retrieval Stream.

Inductive Response : Type :=
| Status400
| Status500
| Answers (answer : jsstring) (sources : list Source).

Section Collaborators.

Variable prompt : jsstring -> jsstring.
Variable invoke : jsstring -> option jsstring.
Variable JSON_parse : jsstring -> option Parsed.
Variable embedQuery : jsstring -> option Embedding.
Variable rpc : Embedding -> jsstring -> Q -> Z -> Reply Scored.
Variable SYSTEM_PROMPT : jsstring.
Variable QUESTION_TEMPLATE : jsstring.
(** [chatModel.invoke], [None] when it rejects. *)
Variable chatModel_invoke : jsstring -> option jsstring.

(** The three stages of this handler. *)
Definition gather (analysis : QueryAnalysis) (question : jsstring)
  : Result Merged :=
  let optimizedQuery := strOr (search_query analysis) question in
  await queryEmbedding <- embed embedQuery optimizedQuery;
  let st1 := addDocs nothing
               (Chat.matchDocuments rpc queryEmbedding optimizedQuery
                  (1 # 10) 8) in
  await st2 <-
    (match program analysis with
     | Some p =>
         if truthy p && negb (bool_decide (p = optimizedQuery)) then
           await progEmbedding <- embed embedQuery p;
           Ok (addDocs st1 (Chat.matchDocuments rpc progEmbedding p (1 # 10) 5))
         else Ok st1
     | None => Ok st1
     end);
  match code analysis with
  | Some c =>
      if truthy c then
        await codeEmbedding <- embed embedQuery c;
        Ok (addDocs st2 (Chat.matchDocuments rpc codeEmbedding c (5 # 100) 5))
      else Ok st2
  | None => Ok st2
  end.

(** [question] is what [searchParams.get('q')] returns, [None] for null.
    Reading [analysis.search_query] of [null] throws inside the [try]. *)
Definition GET (question : option jsstring) : Response :=
  match question with
  | None => Status400
  | Some question =>
      if truthy question then
        match Chat.analyzeQuery prompt invoke JSON_parse question with
        | Null => Status500
        | Value analysis =>
            match gather analysis question with
            | Raised _ => Status500
            | Ok st =>
                let relevantDocs :=
                  sort (Chat.byRelevance (program analysis))
                       (relevantDocs st) in
                let context := Chat.formatContext (take 12 relevantDocs) in
                let finalPrompt :=
                  Prompts.finalPrompt SYSTEM_PROMPT QUESTION_TEMPLATE context
                    question in
                match chatModel_invoke finalPrompt with
                | Some answer =>
                    Answers answer (List.map (preview 200) relevantDocs)
                | None => Status500
                end
            end
        end
      else Status400
  end.

End Collaborators.

End ChatGet.

(** ** The route with one search *)

Module ChatSimple.

Import Retrieval.

Definition noInformation : jsstring :=
  lit "لا توجد معلومات متاحة في قاعدة البيانات للإجابة على هذا السؤال.".

Definition divider : jsstring :=
  [LF; LF] ++ lit "────────────────────────────────────" ++ [LF; LF].

Definition formatDoc (index : nat) (doc : MatchDocumentsResult) : jsstring :=
  let md := metadata doc in
  let programCode :=
    match program_code md with
    | Some c => if truthy c then lit "(" ++ c ++ lit ")" else []
    | None => []
    end in
  let programInfo :=
    match program_name md with
    | Some n =>
        if truthy n then
          lit "[البرنامج: " ++ n ++ lit " " ++ programCode
          ++ match institution md with
             | Some i => if truthy i then lit " - المؤسسة: " ++ i else []
             | None => []
             end
          ++ lit "]"
        else []
    | None => []
    end in
  let sectionInfo :=
    match section md with
    | Some s => if truthy s then lit "[القسم: " ++ s ++ lit "]" else []
    | None => []
    end in
  lit "═══ مصدر " ++ digits (Z.of_nat index + 1) ++ lit " " ++ programInfo
  ++ lit " " ++ sectionInfo ++ lit " ═══" ++ [LF]
  ++ content doc ++ [LF]
  ++ lit "(نسبة التطابق: " ++ toFixed (times (similarity doc) 100) 0 ++ lit "%)".

Definition formatContext (docs : list MatchDocumentsResult) : jsstring :=
  match docs with
  | [] => noInformation
  | _ => join divider (imap formatDoc docs)
  end.

Section Collaborators.

Variable embedQuery : jsstring -> option Embedding.
(** The rows come back with their [similarity] and are returned as they
    are. *)
Variable rpc : Embedding -> jsstring -> Q -> Z -> Reply MatchDocumentsResult.

Definition matchDocuments (queryEmbedding : Embedding) (queryText : jsstring)
  (matchThreshold : Q) (matchCount : Z) : list MatchDocumentsResult :=
  match rpc queryEmbedding queryText matchThreshold matchCount with
  | Data data => orEmpty data
  | Error | Rejects => []
  end.

(** The request handler, up to the context given to the chat model. *)
Definition POST (message : option jsstring) : Chat.Response :=
  match message with
  | None => Chat.Status400
  | Some message =>
      if truthy message then
        match embed embedQuery message with
        | Ok queryEmbedding =>
            let relevantDocs :=
              matchDocuments queryEmbedding message (2 # 10) 10 in
            Chat.Streams relevantDocs (formatContext relevantDocs)
        | Raised _ => Chat.Status500
        end
      else Chat.Status400
  end.

End Collaborators.

End ChatSimple.

(** ** The route with a second, targeted search *)

Module ChatTwoStage.

Import Retrieval.

Definition bySimilarity (a b : MatchDocumentsResult) : Q :=
  (similarity b - similarity a)%Q.

(** The merge of the second search: the set of ids is made once, from the
    documents of the first search. *)
Definition merge (relevantDocs secondaryDocs : list MatchDocumentsResult)
  : list MatchDocumentsResult :=
  let existingIds : gset Z := list_to_set (List.map id relevantDocs) in
  relevantDocs
    ++ List.filter (fun doc => negb (bool_decide (id doc ∈ existingIds)))
                   secondaryDocs.

Section Collaborators.

Variable embedQuery : jsstring -> option Embedding.
Variable rpc : Embedding -> jsstring -> Q -> Z -> Reply Scored.

(** The documents handed to the formatter. *)
Definition retrieve (analysis : QueryAnalysis) (message : jsstring)
  : Result (list MatchDocumentsResult) :=
  let optimizedQuery := strOr (search_query analysis) message in
  await queryEmbedding <- embed embedQuery optimizedQuery;
  let relevantDocs :=
    Chat.matchDocuments rpc queryEmbedding optimizedQuery (15 # 100) 10 in
  await merged <-
    (if (Z.of_nat (List.length relevantDocs) <? 3)
        && (truthy_opt (code analysis) || truthy_opt (program analysis))
     then
       let secondaryQuery :=
         strOr (code analysis) (strOr (program analysis) []) in
       await secondaryEmbedding <- embed embedQuery secondaryQuery;
       Ok (merge relevantDocs
             (Chat.matchDocuments rpc secondaryEmbedding secondaryQuery
                (15 # 100) 5))
     else Ok relevantDocs);
  Ok (sort bySimilarity merged).

End Collaborators.

End ChatTwoStage.

(** ** The answers of the library *)

Module LibRag.

Import Retrieval.

(** What the library throws at its caller: a failure of retrieval, or the
    failure of the chain. *)
Inductive Thrown : Type :=
| RetrievalFailed (why : Failure)
| ChainFailed.

Inductive Event : Type :=
| sources (data : list MatchDocumentsResult)
| chunk (data : jsstring)
| done.

(** What a generator did when its caller has taken all it gives: the
    events it yielded, and whether it returned or threw. *)
Record Generated : Type := {
  yields : list Event;
  thrown : option Thrown
}.

(** The loop over the stream of the chain and the [yield] that follows it:
    the events yielded, and what the loop threw. *)
Fixpoint relayAll (response : Stream.Generation)
  : list Event * option Thrown :=
  match response with
  | Stream.Ends => ([done], None)
  | Stream.Breaks => ([], Some ChainFailed)
  | Stream.Yields content rest =>
      let '(events, thrown) := relayAll rest in
      (chunk content :: events, thrown)
  end.

Section Collaborators.

Variable embedQuery : jsstring -> option Embedding.
Variable rpc : Embedding -> jsstring -> Q -> Z -> Reply MatchDocumentsResult.
Variable SYSTEM_PROMPT : jsstring.
Variable QUESTION_TEMPLATE : jsstring.
(** The chain made from the prompt text, invoked and streamed; the chunks
    of the stream are messages, which have a content. *)
Variable chain_invoke : jsstring -> option jsstring.
Variable chain_stream : jsstring -> Stream.Generation.

Definition template (relevantDocs : list MatchDocumentsResult)
  (question : jsstring) : jsstring :=
  Prompts.finalPrompt SYSTEM_PROMPT QUESTION_TEMPLATE
    (Lib.formatContext relevantDocs) question.

Definition createRAGResponse (question : jsstring)
  : Thrown + (jsstring * list MatchDocumentsResult) :=
  match Lib.retrieveRelevantDocs embedQuery rpc question (2 # 10) 10 with
  | Raised why => inl (RetrievalFailed why)
  | Ok relevantDocs =>
      match chain_invoke (template relevantDocs question) with
      | Some answer => inr (answer, relevantDocs)
      | None => inl ChainFailed
      end
  end.

Definition streamRAGResponse (question : jsstring) : Generated :=
  match Lib.retrieveRelevantDocs embedQuery rpc question (2 # 10) 10 with
  | Raised why => {| yields := []; thrown := Some (RetrievalFailed why) |}
  | Ok relevantDocs =>
      let '(events, thrown) :=
        relayAll (chain_stream (template relevantDocs question)) in
      {| yields := sources relevantDocs :: events; thrown := thrown |}
  end.

End Collaborators.

End LibRag.

(** ** What a block of the context shows of a field *)

Module Blocks.

Import Retrieval.

(** [value] is what a block shows of a field of the metadata: the field
    when it is there and not empty, and [default] otherwise. *)
Definition shows (field : option jsstring) (default value : jsstring) : Prop :=
  (exists s, field = Some s /\ s <> [] /\ value = s)
  \/ ((field = None \/ field = Some []) /\ value = default).

(** The same for a field that is shown between two marks. *)
Definition showsBetween (field : option jsstring) (left right value : jsstring)
  : Prop :=
  (exists s, field = Some s /\ s <> [] /\ value = left ++ s ++ right)
  \/ ((field = None \/ field = Some []) /\ value = []).

End Blocks.

(** ** The value of a pattern, as the specification has it *)

Module Captured.

Import IngestText.





End Captured.

(** ** More sample data *)

Module Fixture.

Import Retrieval Stream.

(** A text with three sentences. *)
Definition sentences : jsstring :=
  lit "aaaa bbbb. cccc dddd. eeee ffff gggg".

(** A model that yields a word, an empty chunk and a word, and ends. *)
Definition response : Generation :=
  Yields (lit "مرحبا") (Yields [] (Yields (lit " بكم") Ends)).

(** A serializer that writes a letter for the type of an event, followed by
    the text of a chunk or of an error, and a parser for it that knows the
    sources of the request. *)
Definition stringify (e : Event) : jsstring :=
  match e with
  | sources _ => lit "S"
  | chunk data => lit "C" ++ data
  | done => lit "D"
  | error data => lit "E" ++ data
  end.

Definition parse (known : list Source) (text : jsstring) : option Event :=
  match text with
  | [] => None
  | c :: data =>
      if c =? 83 then Some (sources known)
      else if c =? 67 then Some (chunk data)
      else if c =? 68 then Some done
      else if c =? 69 then Some (error data)
      else None
  end.

(** [toLowerCase] on a text whose only letters with a lower case are the
    Basic Latin capitals. *)
Definition lowerLatin (s : jsstring) : jsstring :=
  List.map (fun c => if (65 <=? c) && (c <=? 90) then c + 32 else c) s.

(** Two documents of equal similarity that name a program in different
    case. *)
Definition IT : jsstring := lit "IT".
Definition upper : MatchDocumentsResult :=
  {| id := 1; content := lit "برنامج IT"; metadata := Sample.noMetadata;
     similarity := 5 # 10 |}.
Definition lower : MatchDocumentsResult :=
  {| id := 2; content := lit "برنامج it"; metadata := Sample.noMetadata;
     similarity := 5 # 10 |}.


End Fixture.


(** * Properties *)

(** ** The matcher *)

Section Matcher.

Lemma reaches_refl (x : state) : reaches x x.
Proof. split; lia. Qed.

Lemma reaches_trans (x y z : state) : reaches x y -> reaches y z -> reaches x z.
Proof. intros [H1 H2] [H3 H4]. split; lia. Qed.

Lemma startsWith_length (s p : jsstring) :
  startsWith s p = true -> (List.length p <= List.length s)%nat.
Proof.
  revert s. induction p as [|a p IH]; intros [|b s]; simpl;
    try lia; try discriminate.
  intros H. apply andb_prop in H as [_ H]. apply IH in H. lia.
Qed.

Lemma reaches_advance (n : nat) (x : state) :
  (n <= List.length (rest x))%nat -> reaches x (advance n x).
Proof.
  intros H. unfold reaches, advance. simpl. rewrite length_drop. lia.
Qed.

Lemma reaches_capture (i : nat) (x y : state) :
  reaches x y -> reaches x (capture i x y).
Proof. done. Qed.

(** A turn depends on what follows only at states that are reached, and on
    the rest of the loop only where a turn goes on. *)
Lemma turn_agree greedy k k' body body' again again' min max x :
  k x = k' x ->
  (forall d d', (forall y, reaches x y -> d y = d' y) -> body d x = body' d' x) ->
  (forall y, reaches x y ->
     (min =? 0)%nat && (pos y =? pos x)%nat = false ->
     again (Nat.pred min) (option_map Nat.pred max) y
     = again' (Nat.pred min) (option_map Nat.pred max) y) ->
  turn greedy k body again min max x = turn greedy k' body' again' min max x.
Proof.
  intros Hk Hbody Hagain. unfold turn.
  assert (Hd : body (fun y => if (min =? 0)%nat && (pos y =? pos x)%nat
                              then None
                              else again (Nat.pred min)
                                     (option_map Nat.pred max) y) x
               = body' (fun y => if (min =? 0)%nat && (pos y =? pos x)%nat
                                 then None
                                 else again' (Nat.pred min)
                                        (option_map Nat.pred max) y) x).
  { apply Hbody. intros y Hy.
    destruct ((min =? 0)%nat && (pos y =? pos x)%nat) eqn:E; [done|].
    by apply Hagain. }
  cbv zeta. rewrite Hd, Hk. reflexivity.
Qed.

(** The matcher depends on its continuation only at states that are
    reached, and not at all on the turns to spare. *)
Lemma matcher_agree (r : regex) : forall spare spare' k k' x,
  (forall y, reaches x y -> k y = k' y) ->
  matcher spare r k x = matcher spare' r k' x.
Proof.
  induction r as [s|neg items|r1 IH1 r2 IH2|r1 IH1 r2 IH2
                  |min max greedy r' IH|i r' IH|r' IH| |];
    intros spare spare' k k' x Hk.
  - simpl. destruct (startsWith (rest x) s) eqn:E; [|done].
    apply Hk, reaches_advance, startsWith_length, E.
  - simpl. destruct (rest x) as [|c rest'] eqn:E; [done|].
    destruct (xorb neg (existsb (inSet c) items)); [|done].
    apply Hk, reaches_advance. rewrite E. simpl. lia.
  - simpl. apply IH1. intros y Hy. apply IH2. intros z Hz.
    apply Hk. by eapply reaches_trans.
  - simpl. rewrite (IH1 spare spare' k k' x Hk), (IH2 spare spare' k k' x Hk).
    done.
  - cbn [matcher].
    set (F := (S (min + List.length (rest x)) + spare)%nat).
    set (F' := (S (min + List.length (rest x)) + spare')%nat).
    assert (HF : (min + List.length (rest x) < F)%nat) by (subst F; lia).
    assert (HF' : (min + List.length (rest x) < F')%nat) by (subst F'; lia).
    clearbody F F'.
    match goal with
    | |- ?f F min max x = ?g F' min max x =>
        enough (Hloop : forall F F' min1 max1 x1,
                   reaches x x1 ->
                   (min1 + List.length (rest x1) < F)%nat ->
                   (min1 + List.length (rest x1) < F')%nat ->
                   f F min1 max1 x1 = g F' min1 max1 x1)
          by (apply Hloop; [apply reaches_refl|done|done])
    end.
    clear F F' HF HF'.
    induction F as [|F IHF]; intros F' min1 max1 x1 Hx HF HF'; [lia|].
    destruct F' as [|F']; [lia|].
    apply turn_agree.
    + by apply Hk.
    + intros d d' Hd. by apply IH.
    + intros y [Hy1 Hy2] E. apply IHF.
      * eapply reaches_trans; [exact Hx|]. by split.
      * apply andb_false_iff in E as [E|E]; apply Nat.eqb_neq in E; lia.
      * apply andb_false_iff in E as [E|E]; apply Nat.eqb_neq in E; lia.
  - simpl. apply IH. intros y Hy. apply Hk. by apply reaches_capture.
  - simpl. rewrite (IH spare spare' Some Some x) by done.
    destruct (matcher spare' r' Some x); [|done]. apply Hk. split; simpl; lia.
  - simpl. destruct (pos x =? 0)%nat; [|done]. apply Hk, reaches_refl.
  - simpl. destruct (rest x); [|done]. apply Hk, reaches_refl.
Qed.

(** The turns to spare are never used. *)
Lemma matcher_spare (spare : nat) (r : regex) (k : state -> option state)
  (x : state) :
  matcher spare r k x = m r k x.
Proof. by apply matcher_agree. Qed.

Lemma turn_result greedy k body again min max x z :
  turn greedy k body again min max x = Some z ->
  k x = Some z
  \/ body (fun y => if (min =? 0)%nat && (pos y =? pos x)%nat then None
                    else again (Nat.pred min) (option_map Nat.pred max) y) x
     = Some z.
Proof.
  unfold turn. cbv zeta.
  destruct max as [[|n]|]; [by left| |];
    (destruct (0 <? min)%nat; [by right|]);
    (destruct greedy;
     [destruct (body _ x) as [z'|] eqn:E; [intros [= <-]; by right|by left]
     |destruct (k x) as [z'|] eqn:E; [intros [= <-]; by left|by right]]).
Qed.

Lemma defined_insert (i j : nat) (v : jsstring) (caps : list (option jsstring)) :
  (j < List.length caps)%nat ->
  (i = j \/ defined i caps) -> defined i (<[j := Some v]> caps).
Proof.
  intros Hj [->|[w Hw]]; unfold defined.
  - exists v. by apply list_lookup_insert_eq.
  - destruct (decide (i = j)) as [->|Hij].
    + exists v. by apply list_lookup_insert_eq.
    + exists w. by rewrite list_lookup_insert_ne.
Qed.

Lemma matcher_hands_over (r : regex) : forall spare k x z,
  matcher spare r k x = Some z ->
  exists y, k y = Some z /\ handsOver r x y.
Proof.
  assert (Hsame : forall r x y, caps y = caps x ->
                                (forall i, sets i r = true -> False) ->
                                handsOver r x y).
  { intros r0 x y Hc Hr. unfold handsOver. rewrite Hc.
    split; [done|]. split; [done|]. intros i Hi. by destruct (Hr i). }
  induction r as [s|neg items|r1 IH1 r2 IH2|r1 IH1 r2 IH2
                  |min max greedy r' IH|i r' IH|r' IH| |];
    intros spare k x z H.
  - simpl in H. destruct (startsWith (rest x) s); [|done].
    eexists. split; [exact H|]. by apply (Hsame (Lit s)).
  - simpl in H. destruct (rest x) as [|c rest']; [done|].
    destruct (xorb neg (existsb (inSet c) items)); [|done].
    eexists. split; [exact H|]. by apply (Hsame (Class neg items)).
  - simpl in H. apply IH1 in H as (y1 & H & Hlen1 & Hkeep1 & Hset1).
    apply IH2 in H as (y2 & H & Hlen2 & Hkeep2 & Hset2).
    exists y2. split; [done|]. split; [congruence|]. split; [auto|].
    intros i Hi Hlt. simpl in Hi. apply orb_prop in Hi as [Hi|Hi].
    + auto.
    + apply Hset2; [done|congruence].
  - simpl in H. destruct (matcher spare r1 k x) as [z1|] eqn:E1.
    + injection H as <-. apply IH1 in E1 as (y & Hy & Hlen & Hkeep & Hset).
      exists y. split; [done|]. split; [done|]. split; [done|].
      intros i Hi. simpl in Hi. apply andb_prop in Hi as [Hi _]. auto.
    + apply IH2 in H as (y & Hy & Hlen & Hkeep & Hset).
      exists y. split; [done|]. split; [done|]. split; [done|].
      intros i Hi. simpl in Hi. apply andb_prop in Hi as [_ Hi]. auto.
  - cbn [matcher] in H. revert H.
    generalize (S (min + List.length (rest x)) + spare)%nat.
    intros F. revert min max x.
    induction F as [|F IHF]; intros min max x H; [done|].
    apply turn_result in H as [H|H].
    + exists x. split; [done|]. by apply (Hsame (Rep min max greedy r')).
    + apply IH in H as (y1 & H & Hlen1 & Hkeep1 & _).
      destruct ((min =? 0)%nat && (pos y1 =? pos x)%nat); [done|].
      apply IHF in H as (y & H & Hlen & Hkeep & _).
      exists y. split; [done|]. split; [congruence|]. split; [auto|].
      intros i Hi. done.
  - simpl in H. apply IH in H as (y & H & Hlen & Hkeep & Hset).
    exists (capture i x y). split; [done|]. unfold capture, handsOver.
    cbn [caps sets]. split; [by rewrite length_insert|]. split.
    + intros j Hj. destruct (decide (i < List.length (caps y))%nat).
      * apply defined_insert; [done|]. right. auto.
      * rewrite list_insert_ge; [auto|by apply Nat.nlt_ge].
    + intros j Hj Hlt. apply orb_prop in Hj as [Hj|Hj].
      * apply Nat.eqb_eq in Hj as ->. apply defined_insert; [lia|by left].
      * destruct (decide (i < List.length (caps y))%nat).
        -- apply defined_insert; [done|]. right. auto.
        -- rewrite list_insert_ge; [auto|by apply Nat.nlt_ge].
  - simpl in H. destruct (matcher spare r' Some x) as [y|] eqn:E; [|done].
    apply IH in E as (y' & [= ->] & Hlen & Hkeep & _).
    eexists. split; [exact H|]. split; [done|]. split; [done|]. done.
  - simpl in H. destruct (pos x =? 0)%nat; [|done].
    exists x. split; [done|]. by apply (Hsame Bol).
  - simpl in H. destruct (rest x); [|done].
    exists x. split; [done|]. by apply (Hsame Eol).
Qed.

(** A group that takes part in every match of a pattern is defined in the
    array of a match. *)
Lemma execAt_group (r : regex) (s : jsstring) (q i : nat) (res : result) :
  execAt r s q = Some res ->
  sets i r = true -> (1 <= i <= ngroups r)%nat ->
  exists v, group res i = Some v.
Proof.
  unfold execAt. intros H Hi Hrange.
  destruct (m r Some _) as [y|] eqn:E; [|done]. injection H as <-.
  apply matcher_hands_over in E as (y' & [= ->] & Hlen & _ & Hset).
  simpl in Hlen, Hset. rewrite length_replicate in Hlen, Hset.
  destruct (Hset i Hi) as [v Hv]; [lia|].
  exists v. unfold group. simpl.
  rewrite list_lookup_insert_ne by lia. by rewrite Hv.
Qed.

Lemma execFromFuel_group (r : regex) (s : jsstring) (i : nat) (res : result) :
  sets i r = true -> (1 <= i <= ngroups r)%nat ->
  forall fuel q,
    execFromFuel fuel r s q = Some res -> exists v, group res i = Some v.
Proof.
  intros Hi Hrange. induction fuel as [|fuel IH]; intros q H; simpl in H.
  - destruct (execAt r s q) eqn:E; [|done]. injection H as <-.
    by eapply execAt_group.
  - destruct (execAt r s q) eqn:E.
    + injection H as <-. by eapply execAt_group.
    + by eapply IH.
Qed.

Lemma exec_group (r : regex) (s : jsstring) (i : nat) (res : result) :
  exec r s = Some res ->
  sets i r = true -> (1 <= i <= ngroups r)%nat ->
  exists v, group res i = Some v.
Proof.
  unfold exec, execFrom. intros H Hi Hrange.
  destruct (0 <=? List.length s)%nat; [|done].
  by eapply execFromFuel_group.
Qed.

(** So [the] never falls back on the empty string for such a group. *)
Lemma match_group (p : pattern) (text : jsstring) (i : nat)
  (mt : list (option jsstring)) :
  global p = false -> sets i (re p) = true -> (1 <= i <= ngroups (re p))%nat ->
  match_ text p = Some mt ->
  exists v, at_ mt i = Some v /\ the mt i = v.
Proof.
  unfold match_, the. intros -> Hi Hrange H.
  destruct (exec (re p) text) as [res|] eqn:E; [|done]. injection H as <-.
  destruct (exec_group _ _ i _ E Hi Hrange) as [v Hv].
  exists v. unfold at_, group in *. by rewrite Hv.
Qed.

Lemma execAt_whole (r : regex) (s : jsstring) (q : nat) (res : result) :
  execAt r s q = Some res -> exists v, group res 0 = Some v.
Proof.
  unfold execAt. destruct (m r Some _) as [y|] eqn:E; [|done].
  intros [= <-]. unfold group. simpl.
  apply matcher_hands_over in E as (y' & [= ->] & Hlen & _).
  simpl in Hlen. destruct (caps y); [done|]. simpl. by eexists.
Qed.

Lemma execFromFuel_whole (r : regex) (s : jsstring) (res : result) :
  forall fuel q,
    execFromFuel fuel r s q = Some res -> exists v, group res 0 = Some v.
Proof.
  induction fuel as [|fuel IH]; intros q H; simpl in H.
  - destruct (execAt r s q) eqn:E; [|done]. injection H as <-.
    by eapply execAt_whole.
  - destruct (execAt r s q) eqn:E.
    + injection H as <-. by eapply execAt_whole.
    + by eapply IH.
Qed.

(** Entry 0 of the array of a match is always defined. *)
Lemma match_whole (p : pattern) (text : jsstring) (mt : list (option jsstring)) :
  match_ text p = Some mt -> exists v, at_ mt 0 = Some v /\ the mt 0 = v.
Proof.
  unfold match_, the, at_. destruct (global p).
  - unfold matchGlobal. destruct (matches (re p) text) as [|res ms]; [done|].
    intros [= <-]. simpl. by eexists.
  - destruct (exec (re p) text) as [res|] eqn:E; [|done]. intros [= <-].
    unfold exec, execFrom in E.
    destruct (0 <=? List.length text)%nat; [|done].
    apply execFromFuel_whole in E as [v Hv].
    exists v. unfold group in Hv. by rewrite Hv.
Qed.

(** So the code an extractor reads from a match is never undefined. *)
Lemma match_code_defined (p : pattern) (text : jsstring)
  (mt : list (option jsstring)) :
  match_ text p = Some mt -> exists c, orElse (at_ mt 1) (at_ mt 0) = Some c.
Proof.
  intros H. destruct (match_whole p text mt H) as (v & Hv & _).
  unfold orElse. destruct (at_ mt 1) as [c|]; simpl.
  - destruct (truthy c); by eexists.
  - by eexists.
Qed.

(** Every pattern from whose match the program reads group 1. *)
Lemma group_1_always_defined :
  Forall (fun p => global p = false /\ sets 1 (re p) = true
                   /\ (1 <= 1 <= ngroups (re p))%nat)
    (IngestText.namePatterns ++ take 3 IngestText.codePatterns
     ++ IngestText.institutionPatterns
     ++ [ IngestText.orgNotesPattern; IngestText.sectionHeader;
          IngestText.sectionLine; IngestText.programNameLine;
          IngestText.programLine; IngestText.codeLine;
          IngestText.altCodeLine; IngestText.institutionLine;
          IngestPdf.sectionHeader; IngestPdf.programNamePattern;
          IngestPdf.programCodePattern; IngestPdf.institutionPattern ]).
Proof. repeat constructor. Qed.

(** A match ends at a state that is reached from where it started. *)
Lemma matcher_reaches (r : regex) : forall spare k x z,
  matcher spare r k x = Some z ->
  exists y, reaches x y /\ k y = Some z.
Proof.
  induction r as [s|neg items|r1 IH1 r2 IH2|r1 IH1 r2 IH2
                  |min max greedy r' IH|i r' IH|r' IH| |];
    intros spare k x z H.
  - simpl in H. destruct (startsWith (rest x) s) eqn:E; [|done].
    eexists. split; [|exact H]. by apply reaches_advance, startsWith_length.
  - simpl in H. destruct (rest x) as [|c rest'] eqn:E; [done|].
    destruct (xorb neg (existsb (inSet c) items)); [|done].
    eexists. split; [|exact H]. apply reaches_advance. rewrite E. simpl. lia.
  - simpl in H. apply IH1 in H as (y1 & Hy1 & H).
    apply IH2 in H as (y2 & Hy2 & H).
    exists y2. split; [by eapply reaches_trans|done].
  - simpl in H. destruct (matcher spare r1 k x) as [z1|] eqn:E1.
    + injection H as <-. by apply IH1 in E1.
    + by apply IH2 in H.
  - cbn [matcher] in H. revert H.
    generalize (S (min + List.length (rest x)) + spare)%nat.
    intros F. revert min max x.
    induction F as [|F IHF]; intros min max x H; [done|].
    apply turn_result in H as [H|H].
    + exists x. split; [apply reaches_refl|done].
    + apply IH in H as (y1 & Hy1 & H).
      destruct ((min =? 0)%nat && (pos y1 =? pos x)%nat); [done|].
      apply IHF in H as (y & Hy & H).
      exists y. split; [by eapply reaches_trans|done].
  - simpl in H. apply IH in H as (y & Hy & H).
    exists (capture i x y). split; [by apply reaches_capture|done].
  - simpl in H. destruct (matcher spare r' Some x) as [y|] eqn:E; [|done].
    eexists. split; [|exact H]. split; simpl; lia.
  - simpl in H. destruct (pos x =? 0)%nat; [|done].
    exists x. split; [apply reaches_refl|done].
  - simpl in H. destruct (rest x); [|done].
    exists x. split; [apply reaches_refl|done].
Qed.

(** A match attempted at [q] starts there and ends between [q] and the end
    of the input. *)
Lemma execAt_bounds (r : regex) (s : jsstring) (q : nat) (res : result) :
  (q <= List.length s)%nat ->
  execAt r s q = Some res ->
  index res = q /\ (q <= endIndex res <= List.length s)%nat.
Proof.
  unfold execAt. intros Hq H.
  destruct (m r Some _) as [y|] eqn:E; [|done]. injection H as <-. simpl.
  apply matcher_reaches in E as (y' & [Hpos Hlen] & [= ->]).
  simpl in Hpos, Hlen. rewrite length_drop in Hlen. split; [done|lia].
Qed.

Lemma execFromFuel_bounds (r : regex) (s : jsstring) (res : result) :
  forall fuel q,
    (q + fuel <= List.length s)%nat ->
    execFromFuel fuel r s q = Some res ->
    (q <= index res <= endIndex res)%nat /\ (endIndex res <= List.length s)%nat.
Proof.
  induction fuel as [|fuel IH]; intros q Hq H; simpl in H.
  - destruct (execAt r s q) eqn:E; [|done]. injection H as <-.
    apply execAt_bounds in E; lia.
  - destruct (execAt r s q) eqn:E.
    + injection H as <-. apply execAt_bounds in E; lia.
    + apply IH in H; lia.
Qed.

Lemma execFrom_bounds (r : regex) (s : jsstring) (q : nat) (res : result) :
  execFrom r s q = Some res ->
  (q <= index res <= endIndex res)%nat /\ (endIndex res <= List.length s)%nat.
Proof.
  unfold execFrom. destruct (Nat.leb_spec q (List.length s)); [|done].
  apply execFromFuel_bounds. lia.
Qed.

(** The bound on the turns of the scan for all matches is never reached
    before the scan is over. *)
Lemma scan_fuel (r : regex) (s : jsstring) : forall fuel fuel' q,
  (S (List.length s) - q <= fuel)%nat -> (S (List.length s) - q <= fuel')%nat ->
  scan fuel r s q = scan fuel' r s q.
Proof.
  induction fuel as [|fuel IH]; intros fuel' q Hf Hf'.
  - assert (Hq : (List.length s < q)%nat) by lia.
    destruct fuel'; simpl; [done|].
    unfold execFrom. destruct (Nat.leb_spec q (List.length s)); [lia|done].
  - destruct fuel' as [|fuel'].
    + assert (Hq : (List.length s < q)%nat) by lia. simpl.
      unfold execFrom. destruct (Nat.leb_spec q (List.length s)); [lia|done].
    + simpl. destruct (execFrom r s q) as [res|] eqn:E; [|done].
      apply execFrom_bounds in E. f_equal.
      destruct (Nat.eqb_spec (endIndex res) (index res)); apply IH; lia.
Qed.

(** Nor is the bound on the turns of [split]. *)
Lemma splitLoop_fuel (r : regex) (s : jsstring) : forall fuel fuel' p q,
  (p <= q)%nat ->
  (2 * (List.length s - q) + (if (q =? p)%nat then 0 else 1) < fuel)%nat ->
  (2 * (List.length s - q) + (if (q =? p)%nat then 0 else 1) < fuel')%nat ->
  splitLoop fuel r s p q = splitLoop fuel' r s p q.
Proof.
  induction fuel as [|fuel IH]; intros fuel' p q Hpq Hf Hf'; [lia|].
  destruct fuel' as [|fuel']; [lia|]. simpl.
  destruct (Nat.ltb_spec q (List.length s)) as [Hq|Hq]; [|done].
  destruct (execAt r s q) as [res|] eqn:E.
  - apply execAt_bounds in E as [_ E]; [|lia].
    rewrite (Nat.min_l (endIndex res)) by lia.
    destruct (Nat.eqb_spec (endIndex res) p) as [He|He].
    + apply IH; [lia| |];
        destruct (Nat.eqb_spec q p), (Nat.eqb_spec (S q) p); lia.
    + f_equal. apply IH; [lia| |]; rewrite Nat.eqb_refl;
        destruct (Nat.eqb_spec q p); lia.
  - apply IH; [lia| |];
      destruct (Nat.eqb_spec q p), (Nat.eqb_spec (S q) p); lia.
Qed.

(** The matcher at work on the patterns of the program. *)

Example name_pattern_captures_to_end_of_line :
  option_map (fun res => (index res, group res 1))
    (exec (cat [text "اسم البرنامج"; IngestText.colonSpaces;
                Group 1 (plus (noneOf [CChar LF; ch "*"; ch "•"]))])
          Sample.oneProgram)
  = Some (0%nat, Some (lit "طب")).
Proof. vm_compute. reflexivity. Qed.

Example value_pattern_gives_back_a_space :
  IngestText.extractProgramName (lit "البرنامج * رمز البرنامج") = Some [].
Proof. vm_compute. reflexivity. Qed.

Example global_code_pattern_prefers_second_code :
  IngestText.extractProgramCode (lit "AB123 ثم CD456") = Some (lit "CD456").
Proof. vm_compute. reflexivity. Qed.

Example separators_cut_before_programs :
  List.map List.length (split IngestText.programSeparators Sample.twoPrograms)
  = [11; 121; 85]%nat.
Proof. vm_compute. reflexivity. Qed.

Example code_fences_are_stripped :
  trim (replaceGlobal Retrieval.codeFence
          (lit "```json
{}
```") [])
  = lit "{}".
Proof. vm_compute. reflexivity. Qed.

Example lastIndexOf_clamps_position :
  lastIndexOf (lit "a.b.c") (lit ".") 2 = 1
  /\ lastIndexOf (lit "a.b.c") (lit ".") 100 = 3
  /\ lastIndexOf (lit "a.b.c") (lit ".") (-4) = -1.
Proof. vm_compute. repeat split. Qed.

End Matcher.

(** ** Merging the results of the strategies *)

Section Merging.

Import Retrieval.

Lemma firstWithId_app (i : Z) (l1 l2 : list MatchDocumentsResult) :
  firstWithId i (l1 ++ l2) =
  match firstWithId i l1 with
  | Some d => Some d
  | None => firstWithId i l2
  end.
Proof.
  unfold firstWithId. induction l1 as [|x l1 IH]; simpl; [done|].
  destruct (bool_decide (id x = i)); [done|apply IH].
Qed.

Lemma firstWithId_none (i : Z) (l : list MatchDocumentsResult) :
  firstWithId i l = None <-> i ∉ List.map id l.
Proof.
  unfold firstWithId. induction l as [|x l IH]; simpl.
  - split; [intros _ H; inversion H|done].
  - destruct (bool_decide_reflect (id x = i)) as [E|E].
    + split; [done|]. intros H. exfalso. apply H. subst. left.
    + rewrite IH, not_elem_of_cons.
      split; [intros H; split; [congruence|done]|intros [_ H]; done].
Qed.

Lemma MergedFrom_nothing : MergedFrom [] nothing.
Proof.
  split; simpl.
  - intros i. set_solver.
  - constructor.
  - done.
  - intros d H. inversion H.
Qed.

Lemma MergedFrom_addDoc seen st doc :
  MergedFrom seen st -> MergedFrom (seen ++ [doc]) (addDoc st doc).
Proof.
  intros [Hrec Honce Hseen Hfirst]. unfold addDoc.
  destruct (decide (id doc ∈ existingIds st)) as [Hin|Hin].
  - split; auto.
    + intros i. rewrite map_app, elem_of_app, Hseen. simpl.
      rewrite list_elem_of_singleton. split; [|auto].
      intros [H| ->]; [done|]. by apply Hrec.
    + intros d Hd. rewrite firstWithId_app, (Hfirst d Hd). done.
  - assert (Hnew : id doc ∉ List.map id (relevantDocs st)) by (by rewrite <- Hrec).
    split; simpl.
    + intros i. rewrite map_app, elem_of_app, elem_of_union, Hrec. simpl.
      rewrite list_elem_of_singleton, elem_of_singleton. tauto.
    + rewrite map_app. simpl. apply NoDup_app. split; [done|]. split.
      * intros i Hi. rewrite list_elem_of_singleton. intros ->. done.
      * apply NoDup_singleton.
    + intros i. rewrite !map_app, !elem_of_app, Hseen. done.
    + intros d. rewrite elem_of_app, list_elem_of_singleton.
      rewrite firstWithId_app. intros [Hd| ->].
      * by rewrite (Hfirst d Hd).
      * assert (Hnone : firstWithId (id doc) seen = None).
        { apply firstWithId_none. by rewrite Hseen. }
        rewrite Hnone. unfold firstWithId. simpl.
        by rewrite bool_decide_eq_true_2.
Qed.

Lemma MergedFrom_addDocs docs : forall seen st,
  MergedFrom seen st -> MergedFrom (seen ++ docs) (addDocs st docs).
Proof.
  unfold addDocs. induction docs as [|doc docs IH]; intros seen st H; simpl.
  - by rewrite app_nil_r.
  - replace (seen ++ doc :: docs) with ((seen ++ [doc]) ++ docs)
      by (by rewrite <- app_assoc).
    apply IH. by apply MergedFrom_addDoc.
Qed.

Lemma MergedFrom_results results : forall seen st,
  MergedFrom seen st ->
  MergedFrom (seen ++ List.concat results) (fold_left addDocs results st).
Proof.
  induction results as [|docs results IH]; intros seen st H; simpl.
  - by rewrite app_nil_r.
  - rewrite app_assoc. apply IH. by apply MergedFrom_addDocs.
Qed.

(** C1. Whatever lists the strategies return, and in whatever number, the
    result set built by the successive calls of [addDocs] holds every id
    that occurs in them, each once, and the document kept for an id (score
    included) is the first one with that id in the order of the calls. *)
Theorem addDocs_first_occurrence_wins (results : list (list MatchDocumentsResult)) :
  let merged := relevantDocs (fold_left addDocs results nothing) in
  NoDup (List.map id merged)
  /\ (forall i, i ∈ List.map id (List.concat results) <-> i ∈ List.map id merged)
  /\ (forall d, d ∈ merged -> firstWithId (id d) (List.concat results) = Some d).
Proof.
  destruct (MergedFrom_results results [] nothing MergedFrom_nothing)
    as [_ Honce Hseen Hfirst].
  simpl in *. auto.
Qed.

End Merging.


(** ** Re-ranking *)

Section Reranking.

Import Retrieval.

Local Open Scope Q_scope.

(** C2, as the code has it.  When the analyzer extracted a program name
    and exactly one of two documents passes the test of the comparator, the
    comparator puts that document first, whatever the two similarities are,
    equal ones included; between two documents on the same side of the
    test, the one with the larger similarity comes first.  The test of the
    route is that the content contains the name literally; the test of the
    multi-strategy variant is that the lowered content contains the lowered
    name. *)
Theorem byRelevance_program_then_similarity
  (toLowerCase : jsstring -> jsstring)
  (p : jsstring) (a b : MatchDocumentsResult) :
  truthy p = true ->
  ((includes (content a) p = true -> includes (content b) p = false ->
    Chat.byRelevance (Some p) a b < 0 /\ 0 < Chat.byRelevance (Some p) b a)
   /\ (includes (content a) p = includes (content b) p ->
       (Chat.byRelevance (Some p) a b < 0 <-> similarity b < similarity a)
       /\ (0 < Chat.byRelevance (Some p) a b
           <-> similarity a < similarity b)))
  /\ ((includes (toLowerCase (content a)) (toLowerCase p) = true ->
       includes (toLowerCase (content b)) (toLowerCase p) = false ->
       ChatMulti.byRelevance toLowerCase (Some p) a b < 0
       /\ 0 < ChatMulti.byRelevance toLowerCase (Some p) b a)
      /\ (includes (toLowerCase (content a)) (toLowerCase p)
          = includes (toLowerCase (content b)) (toLowerCase p) ->
          (ChatMulti.byRelevance toLowerCase (Some p) a b < 0
           <-> similarity b < similarity a)
          /\ (0 < ChatMulti.byRelevance toLowerCase (Some p) a b
              <-> similarity a < similarity b))).
Proof.
  intros Hp. unfold Chat.byRelevance, ChatMulti.byRelevance. rewrite Hp.
  split; split.
  - intros -> ->. simpl. split; reflexivity.
  - intros ->. destruct (includes (content b) p); simpl; lra.
  - intros -> ->. simpl. split; reflexivity.
  - intros ->. destruct (includes (toLowerCase (content b)) (toLowerCase p));
      simpl; lra.
Qed.

Lemma byRelevance_program_then_similarity_witness :
  (Chat.byRelevance (Some Sample.medicine) Sample.docA Sample.docB < 0
   /\ 0 < Chat.byRelevance (Some Sample.medicine) Sample.docB Sample.docA)
  /\ (ChatMulti.byRelevance Fixture.lowerLatin (Some Sample.medicine)
        Sample.docA Sample.docB < 0
      /\ 0 < ChatMulti.byRelevance Fixture.lowerLatin (Some Sample.medicine)
                Sample.docB Sample.docA).
Proof.
  destruct (byRelevance_program_then_similarity Fixture.lowerLatin
              Sample.medicine Sample.docA Sample.docB eq_refl)
    as [[Hroute _] [Hmulti _]].
  split; [apply Hroute|apply Hmulti]; vm_compute; reflexivity.
Defined.

(** The claim as it is written fails in the multi-strategy variant.  Of two
    documents of equal similarity only the first contains the name [IT]
    literally, the other has it in small letters; the comparator of the
    variant lowers both sides, finds the name in both and returns 0, so that
    the sort leaves the second document in front of the first. *)
Lemma lowered_comparator_looks_past_case :
  truthy Fixture.IT = true
  /\ similarity Fixture.upper == similarity Fixture.lower
  /\ includes (content Fixture.upper) Fixture.IT = true
  /\ includes (content Fixture.lower) Fixture.IT = false
  /\ ~ (ChatMulti.byRelevance Fixture.lowerLatin (Some Fixture.IT)
          Fixture.upper Fixture.lower < 0)
  /\ sort (ChatMulti.byRelevance Fixture.lowerLatin (Some Fixture.IT))
          [Fixture.lower; Fixture.upper]
     = [Fixture.lower; Fixture.upper]
  /\ sort (Chat.byRelevance (Some Fixture.IT)) [Fixture.lower; Fixture.upper]
     = [Fixture.upper; Fixture.lower].
Proof.
  split; [reflexivity|]. split; [reflexivity|].
  split; [vm_compute; reflexivity|]. split; [vm_compute; reflexivity|].
  split; [intros H; vm_compute in H; discriminate H|].
  split; vm_compute; reflexivity.
Qed.

(** Without a program name the comparator is the similarity alone. *)
Lemma byRelevance_no_program (a b : MatchDocumentsResult) :
  Chat.byRelevance None a b = similarity b - similarity a.
Proof. reflexivity. Qed.

(** The sort, for any comparator that is total and transitive. *)
Section SortFacts.

Context {A : Type} (cmp : A -> A -> Q).

Hypothesis cmp_total : forall x y, before cmp x y \/ before cmp y x.
Hypothesis cmp_trans :
  forall x y z, before cmp x y -> before cmp y z -> before cmp x z.

Lemma insertSorted_perm (x : A) (l : list A) :
  Permutation (insertSorted cmp x l) (x :: l).
Proof.
  induction l as [|y l IH]; simpl; [done|].
  destruct (Qle_bool (cmp x y) 0); [done|].
  rewrite IH. apply perm_swap.
Qed.

Lemma sort_perm (l : list A) : Permutation (sort cmp l) l.
Proof.
  induction l as [|x l IH]; simpl; [done|].
  rewrite insertSorted_perm. by constructor.
Qed.

Lemma insertSorted_sorted (x : A) (l : list A) :
  StronglySorted (before cmp) l -> StronglySorted (before cmp) (insertSorted cmp x l).
Proof.
  induction 1 as [|y l Hl IH Hy]; simpl.
  - repeat constructor.
  - destruct (Qle_bool (cmp x y) 0) eqn:E.
    + apply Qle_bool_iff in E. constructor; [by constructor|].
      constructor; [exact E|].
      eapply Forall_impl; [exact Hy|]. intros z Hz. by eapply cmp_trans.
    + assert (Hyx : before cmp y x).
      { destruct (cmp_total x y) as [H|H]; [|exact H].
        apply Qle_bool_iff in H. congruence. }
      constructor; [exact IH|].
      rewrite insertSorted_perm. by constructor.
Qed.

Lemma sort_sorted (l : list A) : StronglySorted (before cmp) (sort cmp l).
Proof.
  induction l as [|x l IH]; simpl; [constructor|].
  by apply insertSorted_sorted.
Qed.

End SortFacts.

Lemma byRelevance_total program (a b : MatchDocumentsResult) :
  before (Chat.byRelevance program) a b \/ before (Chat.byRelevance program) b a.
Proof.
  unfold before, Chat.byRelevance.
  destruct program as [p|]; [destruct (truthy p)|];
    try destruct (includes (content a) p); try destruct (includes (content b) p);
    simpl; lra.
Qed.

Lemma byRelevance_trans program (a b c : MatchDocumentsResult) :
  before (Chat.byRelevance program) a b ->
  before (Chat.byRelevance program) b c ->
  before (Chat.byRelevance program) a c.
Proof.
  unfold before, Chat.byRelevance.
  destruct program as [p|]; [destruct (truthy p)|];
    try destruct (includes (content a) p); try destruct (includes (content b) p);
    try destruct (includes (content c) p);
    simpl; lra.
Qed.

(** In the sorted result set a document that contains the program name is
    never behind one that does not, and on one side of the test the
    similarities fall. *)
Lemma sort_byRelevance_ordered (p : jsstring) (docs : list MatchDocumentsResult)
  (i j : nat) (a b : MatchDocumentsResult) :
  truthy p = true ->
  sort (Chat.byRelevance (Some p)) docs !! i = Some a ->
  sort (Chat.byRelevance (Some p)) docs !! j = Some b ->
  (i < j)%nat ->
  (includes (content b) p = true -> includes (content a) p = true)
  /\ (includes (content a) p = includes (content b) p ->
      similarity b <= similarity a).
Proof.
  intros Hp Ha Hb Hij.
  assert (H : before (Chat.byRelevance (Some p)) a b).
  { pose proof (sort_sorted (Chat.byRelevance (Some p))
                  (byRelevance_total (Some p)) (byRelevance_trans (Some p)) docs) as Hs.
    revert i j Ha Hb Hij. induction Hs as [|x l Hl IH Hx]; intros i j Ha Hb Hij.
    - done.
    - destruct i as [|i], j as [|j]; simpl in *; try lia.
      + injection Ha as ->. rewrite Forall_forall in Hx. apply Hx.
        eapply list_elem_of_lookup_2, Hb.
      + apply (IH i j); [done|done|lia]. }
  unfold before, Chat.byRelevance in H. rewrite Hp in H.
  destruct (includes (content a) p), (includes (content b) p);
    simpl in H; split; try done; try (intros _; lra).
Qed.

(** The comparator of the multi-strategy variant applies the same rule to
    the lowered texts, and is the same comparator on texts that lowering
    leaves alone, as it does Arabic text. *)
Lemma multi_byRelevance_lowered (toLowerCase : jsstring -> jsstring)
  (p : jsstring) (a b : MatchDocumentsResult) :
  truthy p = true ->
  includes (toLowerCase (content a)) (toLowerCase p) = true ->
  includes (toLowerCase (content b)) (toLowerCase p) = false ->
  ChatMulti.byRelevance toLowerCase (Some p) a b < 0
  /\ 0 < ChatMulti.byRelevance toLowerCase (Some p) b a.
Proof.
  intros Hp Ha Hb. unfold ChatMulti.byRelevance. rewrite Hp, Ha, Hb.
  simpl. split; reflexivity.
Qed.

Lemma multi_byRelevance_uncased (toLowerCase : jsstring -> jsstring)
  (program : option jsstring) (a b : MatchDocumentsResult) :
  toLowerCase (content a) = content a ->
  toLowerCase (content b) = content b ->
  (forall p, program = Some p -> toLowerCase p = p) ->
  ChatMulti.byRelevance toLowerCase program a b = Chat.byRelevance program a b.
Proof.
  intros Ha Hb Hp. unfold ChatMulti.byRelevance, Chat.byRelevance.
  destruct program as [p|]; [|done].
  by rewrite Ha, Hb, (Hp p eq_refl).
Qed.

End Reranking.


(** ** The result set of a request *)

Section ResultSets.

Import Retrieval.

Ltac stage :=
  match goal with
  | |- context [match ?x with Some _ => _ | None => _ end] =>
      destruct x eqn:?; cbn [bind]
  | |- context [if ?b then _ else _] => destruct b eqn:?; cbn [bind]
  end.

(** The result set of the route is built by [addDocs] alone. *)
Lemma Chat_gather_merged embedQuery rpc analysis message st :
  Chat.gather embedQuery rpc analysis message = Ok st ->
  exists seen, MergedFrom seen st.
Proof.
  unfold Chat.gather, embed. cbn [bind].
  repeat stage; intros [= <-]; eexists;
    repeat apply MergedFrom_addDocs; apply MergedFrom_nothing.
Qed.

Lemma searchAll_merged embedQuery rpc searchQueries : forall seen st st',
  MergedFrom seen st ->
  ChatMulti.searchAll embedQuery rpc searchQueries st = Ok st' ->
  exists seen', MergedFrom seen' st'.
Proof.
  induction searchQueries as [|q qs IH]; intros seen st st' Hst; simpl.
  - intros [= <-]. by exists seen.
  - unfold embed. destruct (embedQuery q) as [e|]; cbn [bind]; [|done].
    destruct (15 <=? _).
    + intros [= <-]. eexists. by apply MergedFrom_addDocs.
    + eapply IH. by apply MergedFrom_addDocs.
Qed.

Lemma ChatMulti_gather_merged embedQuery rpc selectLike selectNamed
  analysis message st :
  ChatMulti.gather embedQuery rpc selectLike selectNamed analysis message
  = Ok st ->
  exists seen, MergedFrom seen st.
Proof.
  unfold ChatMulti.gather.
  destruct (ChatMulti.searchAll _ _ _ _) as [|st1] eqn:E1; cbn [bind]; [done|].
  destruct (searchAll_merged _ _ _ _ _ _ MergedFrom_nothing E1) as [seen1 H1].
  unfold embed.
  repeat stage; intros [= <-]; eexists;
    repeat apply MergedFrom_addDocs; exact H1.
Qed.

Lemma sorted_cut_ids_once
  (cmp : MatchDocumentsResult -> MatchDocumentsResult -> Q)
  (n : nat) (docs : list MatchDocumentsResult) :
  NoDup (List.map id docs) -> NoDup (List.map id (take n (sort cmp docs))).
Proof.
  intros H. change (NoDup (id <$> take n (sort cmp docs))).
  rewrite fmap_take.
  apply (sublist_NoDup (take n (id <$> sort cmp docs)) (id <$> sort cmp docs)).
  - by rewrite (sort_perm cmp docs).
  - apply sublist_take.
Qed.

(** No id occurs twice in the documents handed to the formatter, in either
    route. *)
Lemma retrieve_ids_once embedQuery rpc selectLike selectNamed toLowerCase
  analysis message :
  (forall docs,
     Chat.retrieve embedQuery rpc analysis message = Ok docs ->
     NoDup (List.map id docs))
  /\ (forall docs,
        ChatMulti.retrieve embedQuery rpc selectLike selectNamed toLowerCase
          analysis message = Ok docs ->
        NoDup (List.map id docs)).
Proof.
  split; intros docs.
  - unfold Chat.retrieve.
    destruct (Chat.gather _ _ _ _) as [|st] eqn:E; cbn [bind]; [done|].
    intros [= <-]. destruct (Chat_gather_merged _ _ _ _ _ E) as [seen []].
    by apply sorted_cut_ids_once.
  - unfold ChatMulti.retrieve.
    destruct (ChatMulti.gather _ _ _ _ _ _) as [|st] eqn:E; cbn [bind]; [done|].
    intros [= <-].
    destruct (ChatMulti_gather_merged _ _ _ _ _ _ _ E) as [seen []].
    by apply sorted_cut_ids_once.
Qed.

End ResultSets.


(** ** The chunker of the text script *)

Section Chunking.

Import IngestText.

Lemma fold_left_invariant {S B : Type} (I : S -> Prop) (f : S -> B -> S)
  (l : list B) :
  (forall s b, I s -> I (f s b)) -> forall s, I s -> I (fold_left f l s).
Proof.
  intros Hf. induction l as [|b l IH]; intros s Hs; simpl; [done|].
  apply IH, Hf, Hs.
Qed.

Lemma push_named content name code inst section type cs :
  Forall named (chunks cs) ->
  (type = program -> truthy_opt name = true \/ truthy_opt code = true) ->
  Forall named (chunks (push content name code inst section type cs)).
Proof.
  intros Hcs Hnew. unfold push. simpl. apply Forall_app. split; [done|].
  constructor; [|constructor]. exact Hnew.
Qed.

Lemma blockStep_named st block :
  Forall named (chunks (emitted st)) ->
  Forall named (chunks (emitted (blockStep st block))).
Proof.
  intros H. unfold blockStep.
  destruct (length (trim block) <? 50); [done|].
  destruct (test onlyUnderscores (trim block)); [done|].
  destruct (match_ (trim block) sectionHeader); cbn [emitted].
  - apply push_named; [done|discriminate].
  - destruct (truthy_opt (extractProgramName (trim block))) eqn:En;
      cbn [orb emitted].
    + apply push_named; auto.
    + destruct (truthy_opt (extractProgramCode (trim block))) eqn:Ec;
        cbn [emitted]; [|done].
      apply push_named; auto.
Qed.

Lemma primarySplit_named text : Forall named (primarySplit text).
Proof.
  unfold primarySplit.
  apply (fold_left_invariant (fun st => Forall named (chunks (emitted st)))).
  - intros st block. apply blockStep_named.
  - cbn [emitted]. destruct (match_ text orgNotesPattern).
    + apply push_named; [constructor|discriminate].
    + constructor.
Qed.

Lemma flushBlock_named st :
  Forall named (chunks (out st)) -> Forall named (chunks (out (flushBlock st))).
Proof.
  intros H. unfold flushBlock. cbn [out].
  destruct (0 <? Z.of_nat (List.length (currentBlock st))); cbn [andb]; [|done].
  destruct (50 <? length (trim (join [LF] (currentBlock st)))); cbn [andb];
    [|done].
  destruct (truthy_opt (currentProgramName st)) eqn:En; cbn [orb].
  - apply push_named; auto.
  - destruct (truthy_opt (currentProgramCode st)) eqn:Ec; [|done].
    apply push_named; auto.
Qed.

Lemma lineStep_named st line :
  Forall named (chunks (out st)) -> Forall named (chunks (out (lineStep st line))).
Proof.
  intros H. unfold lineStep, startProgram, collectLine.
  repeat match goal with
         | |- context [match ?x with _ => _ end] => destruct x
         end; cbn [out]; auto using flushBlock_named.
Qed.

Lemma splitByProgramBlocks_named text : Forall named (splitByProgramBlocks text).
Proof.
  unfold splitByProgramBlocks. apply flushBlock_named.
  apply (fold_left_invariant (fun st => Forall named (chunks (out st)))).
  - intros st line. apply lineStep_named.
  - cbn [out].
    destruct ((0 <? indexOf text (lit "قسم"))
              && (100 <? length (trim (substring text 0 (indexOf text (lit "قسم")))))).
    + apply push_named; [constructor|discriminate].
    + constructor.
Qed.

(** C3. Whatever the text, a chunk that the chunker returns with type
    [program] has a non-empty program name or a non-empty program code. *)
Theorem program_chunk_has_name_or_code (text : jsstring) (c : ProgramChunk) :
  c ∈ splitIntoChunks text ->
  chunk_type (metadata c) = program ->
  (exists name, program_name (metadata c) = Some name /\ name <> [])
  \/ (exists code, program_code (metadata c) = Some code /\ code <> []).
Proof.
  intros Hc Htype.
  assert (Hall : Forall named (splitIntoChunks text)).
  { unfold splitIntoChunks, splitIntoChunksLogged.
    destruct (Z.of_nat (List.length (primarySplit text)) <? 10); simpl.
    - apply splitByProgramBlocks_named.
    - apply primarySplit_named. }
  rewrite Forall_forall in Hall. destruct (Hall c Hc Htype) as [H|H].
  - left. destruct (program_name (metadata c)) as [[|u name]|]; try discriminate.
    by exists (u :: name).
  - right. destruct (program_code (metadata c)) as [[|u code]|]; try discriminate.
    by exists (u :: code).
Qed.

Lemma program_chunk_has_name_or_code_witness :
  (exists name,
     program_name (metadata Sample.architecture) = Some name /\ name <> [])
  \/ (exists code,
        program_code (metadata Sample.architecture) = Some code /\ code <> []).
Proof.
  apply (program_chunk_has_name_or_code Sample.twoPrograms Sample.architecture).
  - apply list_elem_of_lookup_2 with 0%nat. vm_compute. reflexivity.
  - reflexivity.
Defined.

(** A block that is no section header and yields neither a name nor a code
    adds nothing to the chunks of the primary split. *)
Lemma blockStep_without_name_or_code st block :
  match_ (trim block) sectionHeader = None ->
  truthy_opt (extractProgramName (trim block)) = false ->
  truthy_opt (extractProgramCode (trim block)) = false ->
  blockStep st block = st.
Proof.
  intros Hs Hn Hc. unfold blockStep. cbv zeta. rewrite Hs, Hn, Hc.
  destruct (length (trim block) <? 50); [done|].
  by destruct (test onlyUnderscores (trim block)).
Qed.

(** The line-by-line splitter drops a block for which it saw neither. *)
Lemma flushBlock_without_name_or_code st :
  truthy_opt (currentProgramName st) = false ->
  truthy_opt (currentProgramCode st) = false ->
  out (flushBlock st) = out st.
Proof.
  intros Hn Hc. unfold flushBlock. cbv zeta. rewrite Hn, Hc.
  cbn [orb out]. by rewrite andb_false_r.
Qed.

(** C4. The chunker hands the text to the line-by-line splitter, and says
    so on the console, exactly when the primary split gave fewer than ten
    chunks, and then returns what that splitter returns; with ten chunks or
    more it returns the chunks of the primary split as they are. *)
Theorem fallback_iff_fewer_than_ten (text : jsstring) :
  (console (splitIntoChunksLogged text) = [fewChunksWarning]
   <-> (List.length (primarySplit text) < 10)%nat)
  /\ ((List.length (primarySplit text) < 10)%nat ->
      splitIntoChunks text = splitByProgramBlocks text)
  /\ ((10 <= List.length (primarySplit text))%nat ->
      splitIntoChunks text = primarySplit text
      /\ console (splitIntoChunksLogged text) = []).
Proof.
  unfold splitIntoChunks, splitIntoChunksLogged.
  destruct (Z.ltb_spec (Z.of_nat (List.length (primarySplit text))) 10) as [H|H];
    simpl.
  - split; [split; [lia|done]|]. split; [done|lia].
  - split; [split; [discriminate|lia]|]. split; [lia|done].
Qed.

Lemma fallback_iff_fewer_than_ten_witness :
  (splitIntoChunks Sample.twoPrograms = splitByProgramBlocks Sample.twoPrograms
   /\ console (splitIntoChunksLogged Sample.twoPrograms) = [fewChunksWarning])
  /\ (splitIntoChunks Sample.tenPrograms = primarySplit Sample.tenPrograms
      /\ console (splitIntoChunksLogged Sample.tenPrograms) = []).
Proof.
  assert (Hfew : (List.length (primarySplit Sample.twoPrograms) < 10)%nat)
    by (vm_compute; lia).
  assert (Hmany : (10 <= List.length (primarySplit Sample.tenPrograms))%nat)
    by (vm_compute; lia).
  destruct (fallback_iff_fewer_than_ten Sample.twoPrograms) as (Hlog & Hfb & _).
  destruct (fallback_iff_fewer_than_ten Sample.tenPrograms) as (_ & _ & Hpr).
  split.
  - split; [exact (Hfb Hfew)|exact (proj2 Hlog Hfew)].
  - exact (Hpr Hmany).
Defined.

End Chunking.


(** ** The fallback of the query analyzer *)

Section Analysis.

Import Retrieval.

Lemma splitOn_pieces (sep : Z) (s : jsstring) :
  exists w ws, splitOn sep s = w :: ws.
Proof.
  destruct s as [|c s]; simpl; [by eexists _, _|].
  destruct (c =? sep); [by eexists _, _|].
  destruct (splitOn sep s); by eexists _, _.
Qed.

Lemma join_splitOn (sep : Z) (s : jsstring) : join [sep] (splitOn sep s) = s.
Proof.
  induction s as [|c s IH]; [done|]. cbn [splitOn].
  destruct (splitOn_pieces sep s) as (w & ws & E). rewrite E in *.
  destruct (Z.eqb_spec c sep) as [->|Hc].
  - change (join [sep] ([] :: w :: ws)) with ([sep] ++ join [sep] (w :: ws)).
    by rewrite IH.
  - rewrite <- IH. destruct ws; reflexivity.
Qed.

Lemma splitOn_no_separator (sep : Z) (s w : jsstring) :
  w ∈ splitOn sep s -> sep ∉ w.
Proof.
  revert w. induction s as [|c s IH]; intros w; simpl.
  - rewrite list_elem_of_singleton. intros ->. apply not_elem_of_nil.
  - destruct (Z.eqb_spec c sep) as [->|Hc].
    + rewrite elem_of_cons. intros [->|H]; [apply not_elem_of_nil|by apply IH].
    + destruct (splitOn sep s) as [|w0 ws] eqn:E.
      * rewrite list_elem_of_singleton. intros ->.
        rewrite list_elem_of_singleton. congruence.
      * rewrite elem_of_cons. intros [->|H].
        -- rewrite not_elem_of_cons. split; [congruence|].
           apply IH. left.
        -- apply IH. by right.
Qed.

(** C5, as the code has it.  When the call of the analysis model rejects, or
    its answer, code fences stripped, makes [JSON.parse] throw, the analyzer
    returns the fallback of its route and raises nothing.  In the route it
    is the object with the one field [search_query], the question as it
    came; in the multi-strategy variant it has [search_queries], holding
    only the question, [is_general_question] true and as [keywords] the
    pieces of the question between spaces that are longer than two code
    units, and no [search_query]. *)
Theorem analyzeQuery_fallback
  (prompt : jsstring -> jsstring) (invoke : jsstring -> option jsstring)
  (JSON_parse : jsstring -> option Parsed) (query : jsstring) :
  (invoke (prompt query) = None
   \/ exists content,
        invoke (prompt query) = Some content
        /\ JSON_parse (trim (replaceGlobal codeFence content [])) = None) ->
  Chat.analyzeQuery prompt invoke JSON_parse query =
    Value {| program := None; university := None; code := None;
             search_query := Some query; search_queries := None;
             is_general_question := None; keywords := None |}
  /\ ChatMulti.analyzeQuery prompt invoke JSON_parse query =
    Value {| program := None; university := None; code := None;
             search_query := None; search_queries := Some [query];
             is_general_question := Some true;
             keywords := Some (List.filter (fun w => 2 <? length w)
                                           (splitOn 32 query)) |}.
Proof.
  unfold Chat.analyzeQuery, ChatMulti.analyzeQuery.
  intros [H|(content & H & Hparse)]; rewrite H; [done|].
  by rewrite Hparse.
Qed.

Lemma analyzeQuery_fallback_witness :
  Chat.analyzeQuery Sample.template Sample.chatter Sample.neverParses Sample.question =
    Value {| program := None; university := None; code := None;
             search_query := Some Sample.question; search_queries := None;
             is_general_question := None; keywords := None |}
  /\ ChatMulti.analyzeQuery Sample.template Sample.chatter Sample.neverParses Sample.question =
    Value {| program := None; university := None; code := None;
             search_query := None; search_queries := Some [Sample.question];
             is_general_question := Some true;
             keywords := Some (List.filter (fun w => 2 <? length w)
                                           (splitOn 32 Sample.question)) |}.
Proof.
  apply (analyzeQuery_fallback Sample.template Sample.chatter Sample.neverParses
           Sample.question).
  right. eexists. split; reflexivity.
Defined.

(** The claim as it is written holds in neither route: on an answer that
    does not parse, the route sets no [is_general_question] and no
    [keywords], and the variant sets no [search_query]. *)
Lemma analyzeQuery_fallback_fields_differ :
  ~ (exists analysis,
       Chat.analyzeQuery Sample.template Sample.chatter Sample.neverParses
         Sample.question = Value analysis
       /\ search_query analysis = Some Sample.question
       /\ is_general_question analysis = Some true)
  /\ ~ (exists analysis,
          ChatMulti.analyzeQuery Sample.template Sample.chatter
            Sample.neverParses Sample.question = Value analysis
          /\ search_query analysis = Some Sample.question).
Proof.
  split.
  - intros (analysis & [= <-] & _ & H). discriminate H.
  - intros (analysis & [= <-] & H). discriminate H.
Qed.

(** The pieces are cut at spaces only: a tab does not separate keywords. *)
Lemma fallback_keywords_split_on_space_only :
  keywords (ChatMulti.fallback [97; 98; 9; 99; 100; 101; 32; 102])
  = Some [[97; 98; 9; 99; 100; 101]].
Proof. reflexivity. Qed.

(** Either way the text searched first is the question. *)
Lemma fallback_searches_the_question (query : jsstring) :
  truthy query = true ->
  strOr (search_query (Chat.fallback query)) query = query
  /\ search_queries (ChatMulti.fallback query) = Some [query].
Proof. intros H. unfold strOr. simpl. by rewrite H. Qed.

End Analysis.


(** ** Failures during retrieval *)

Section Failures.

Import Retrieval.

Variable embedQuery : jsstring -> option Embedding.
Variable rpc : Embedding -> jsstring -> Q -> Z -> Reply Scored.

(** A search that fails gives the caller the empty list. *)
Lemma matchDocuments_failure e t threshold count :
  rpc e t threshold count = Error \/ rpc e t threshold count = Rejects ->
  Chat.matchDocuments rpc e t threshold count = [].
Proof. unfold Chat.matchDocuments. by intros [-> | ->]. Qed.

Lemma matchDocuments_quiet e t threshold count :
  Chat.matchDocuments (quiet rpc) e t threshold count
  = Chat.matchDocuments rpc e t threshold count.
Proof.
  unfold Chat.matchDocuments, quiet. by destruct (rpc e t threshold count).
Qed.

Ltac branch :=
  match goal with
  | |- context [match ?x with Some _ => _ | None => _ end] =>
      destruct x eqn:?; cbn [bind]
  | |- context [if ?b then _ else _] => destruct b eqn:?; cbn [bind]
  end.

Lemma gather_quiet analysis message :
  Chat.gather embedQuery (quiet rpc) analysis message
  = Chat.gather embedQuery rpc analysis message.
Proof.
  unfold Chat.gather, embed. cbn [bind].
  repeat (branch; rewrite ?matchDocuments_quiet); reflexivity.
Qed.

Lemma gather_raises analysis message why :
  Chat.gather embedQuery rpc analysis message = Raised why ->
  exists t, why = EmbeddingFailed t /\ embedQuery t = None
            /\ t ∈ Chat.embedded analysis message.
Proof.
  unfold Chat.gather, Chat.embedded, embed.
  destruct analysis as [prog uni cod sq sqs gen kw].
  cbn [program university code search_query bind].
  repeat branch; intros [= <-]; eexists; (split; [reflexivity|]);
    (split; [eassumption|]);
    repeat match goal with
           | H : _ && _ = true |- _ => apply andb_prop in H; destruct H
           end;
    unfold strOr;
    repeat match goal with
           | H : truthy _ = true |- _ => rewrite H
           end;
    rewrite !elem_of_cons; auto.
Qed.

Lemma gather_returns analysis message :
  (forall t, t ∈ Chat.embedded analysis message -> embedQuery t <> None) ->
  exists st, Chat.gather embedQuery rpc analysis message = Ok st.
Proof.
  intros Hall.
  destruct (Chat.gather embedQuery rpc analysis message) as [why|st] eqn:E;
    [|by exists st].
  destruct (gather_raises _ _ _ E) as (t & _ & Hnone & Hin).
  by destruct (Hall t Hin).
Qed.

(** The retrieval of the route is its first three stages, which the
    handler of GET runs alone, followed by the search for the institution. *)
Lemma gather_three_then_fourth analysis message :
  Chat.gather embedQuery rpc analysis message
  = await st3 <- ChatGet.gather embedQuery rpc analysis message;
    match university analysis with
    | Some u =>
        if (Z.of_nat (List.length (relevantDocs st3)) <? 5) && truthy u then
          await uniEmbedding <- embed embedQuery u;
          Ok (addDocs st3
                (Chat.matchDocuments rpc uniEmbedding u (1 # 10) 5))
        else Ok st3
    | None => Ok st3
    end.
Proof.
  unfold Chat.gather, ChatGet.gather.
  destruct (embed embedQuery _) as [|e]; cbn [bind]; [done|].
  match goal with
  | |- bind ?x _ = _ => destruct x as [|st2]; cbn [bind]; [done|]
  end.
  match goal with
  | |- bind ?x _ = _ => destruct x as [|st3]; cbn [bind]; done
  end.
Qed.

(** The search of the library hands the failure of the store on. *)
Lemma Lib_matchDocuments_rethrows
  (store : Embedding -> jsstring -> Q -> Z -> Reply MatchDocumentsResult)
  e t threshold count :
  Lib.matchDocuments store e t threshold count = Raised (SearchFailed t)
  <-> store e t threshold count = Error \/ store e t threshold count = Rejects.
Proof.
  unfold Lib.matchDocuments. destruct (store e t threshold count); split;
    try done; auto.
  - intros [H|H]; discriminate H.
Qed.

(** C7, as the code has it, for a request whose analysis is an object.  In
    the chat route a search of the store that rejects or comes back with an
    error is the same to the request as a search that found nothing: the
    later stages run and the result is what a store without failures would
    have given.  Retrieval raises when an embedding call it makes fails, and
    only then: the call for the primary query, and after it the call for
    the program name, when there is one that is not the primary query, then
    the call for the code, when there is one, then the call for the
    institution, when there is one and the three stages before it found
    fewer than five documents.  The request answers 500 exactly when
    retrieval raises.  The search of the library does not catch: it raises
    whenever the store rejects or returns an error, and so does the
    retrieval of the library. *)
Theorem search_failures_absorbed_embedding_failures_raise
  (analysis : QueryAnalysis) (message : jsstring) :
  let optimizedQuery := strOr (search_query analysis) message in
  let retrieved := Chat.retrieve embedQuery rpc analysis message in
  retrieved = Chat.retrieve embedQuery (quiet rpc) analysis message
  /\ (forall why,
        retrieved = Raised why ->
        exists t, why = EmbeddingFailed t /\ embedQuery t = None
                  /\ t ∈ Chat.embedded analysis message)
  /\ ((forall t, t ∈ Chat.embedded analysis message -> embedQuery t <> None) ->
      exists docs, retrieved = Ok docs)
  /\ (embedQuery optimizedQuery = None ->
      retrieved = Raised (EmbeddingFailed optimizedQuery))
  /\ (forall p,
        embedQuery optimizedQuery <> None ->
        program analysis = Some p -> truthy p = true ->
        p <> optimizedQuery -> embedQuery p = None ->
        retrieved = Raised (EmbeddingFailed p))
  /\ (forall c,
        embedQuery optimizedQuery <> None ->
        (forall p, program analysis = Some p -> truthy p = true ->
                   p <> optimizedQuery -> embedQuery p <> None) ->
        code analysis = Some c -> truthy c = true -> embedQuery c = None ->
        retrieved = Raised (EmbeddingFailed c))
  /\ (forall why,
        ChatGet.gather embedQuery rpc analysis message = Raised why ->
        retrieved = Raised why)
  /\ (forall st3 u,
        ChatGet.gather embedQuery rpc analysis message = Ok st3 ->
        university analysis = Some u -> truthy u = true ->
        embedQuery u = None ->
        ((List.length (relevantDocs st3) < 5)%nat ->
         retrieved = Raised (EmbeddingFailed u))
        /\ ((5 <= List.length (relevantDocs st3))%nat ->
            exists docs, retrieved = Ok docs))
  /\ (forall prompt invoke JSON_parse,
        truthy message = true ->
        Chat.analyzeQuery prompt invoke JSON_parse message = Value analysis ->
        Chat.POST prompt invoke JSON_parse embedQuery rpc (Some message)
        = Chat.Status500
        <-> exists why, retrieved = Raised why)
  /\ (forall (store : Embedding -> jsstring -> Q -> Z
                      -> Reply MatchDocumentsResult)
             e t threshold count,
        (Lib.matchDocuments store e t threshold count
         = Raised (SearchFailed t)
         <-> store e t threshold count = Error
             \/ store e t threshold count = Rejects)
        /\ (embedQuery t = Some e ->
            store e t threshold count = Error
            \/ store e t threshold count = Rejects ->
            Lib.retrieveRelevantDocs embedQuery store t threshold count
            = Raised (SearchFailed t))).
Proof.
  cbv zeta. unfold Chat.retrieve. rewrite gather_quiet.
  split; [done|]. split; [|split; [|split; [|split; [|split; [|split;
    [|split; [|split]]]]]]].
  - intros why.
    destruct (Chat.gather embedQuery rpc analysis message) eqn:E;
      cbn [bind]; [|discriminate].
    intros [= <-]. by apply gather_raises.
  - intros Hall. destruct (gather_returns _ _ Hall) as [st ->].
    cbn [bind]. by eexists.
  - unfold Chat.gather, embed. by intros ->.
  - intros p Hfirst Hp Htruthy Hdiff Hnone. unfold Chat.gather, embed.
    destruct (embedQuery (strOr (search_query analysis) message));
      [|done].
    cbn [bind]. rewrite Hp, Htruthy, Hnone.
    by rewrite bool_decide_eq_false_2.
  - intros c Hfirst Hprog Hc Htruthy Hnone. unfold Chat.gather, embed.
    destruct (embedQuery (strOr (search_query analysis) message)) as [e|];
      [|done].
    cbn [bind]. rewrite Hc, Htruthy, Hnone.
    destruct (program analysis) as [p|]; cbn [bind]; [|done].
    destruct (truthy p) eqn:Hp; cbn [andb bind]; [|done].
    destruct (bool_decide (p = _)) eqn:Hd; cbn [negb bind]; [done|].
    apply bool_decide_eq_false in Hd.
    destruct (embedQuery p) as [e'|] eqn:Ep; cbn [bind]; [done|].
    by destruct (Hprog p eq_refl Hp Hd).
  - intros why E. by rewrite gather_three_then_fourth, E.
  - intros st3 u E Hu Htruthy Hnone.
    rewrite gather_three_then_fourth, E. cbn [bind].
    rewrite Hu, Htruthy, andb_true_r. unfold embed. rewrite Hnone. split.
    + intros Hfew.
      destruct (Z.ltb_spec (Z.of_nat (List.length (relevantDocs st3))) 5);
        [done|lia].
    + intros Hmany.
      destruct (Z.ltb_spec (Z.of_nat (List.length (relevantDocs st3))) 5);
        [lia|]. cbn [bind]. by eexists.
  - intros prompt invoke JSON_parse Hm Ha. unfold Chat.POST, Chat.retrieve.
    rewrite Hm, Ha.
    destruct (Chat.gather embedQuery rpc analysis message) as [why|st];
      cbn [bind].
    + split; [by exists why|done].
    + split; [discriminate|]. intros [why H]. discriminate H.
  - intros store e t threshold count.
    split; [apply Lib_matchDocuments_rethrows|].
    intros He Hfail. unfold Lib.retrieveRelevantDocs, embed. rewrite He.
    cbn [bind]. by apply Lib_matchDocuments_rethrows.
Qed.

End Failures.

Section FailureExamples.

Import Retrieval.

Lemma search_failures_absorbed_embedding_failures_raise_witness :
  (exists docs,
     Chat.retrieve Sample.embeds Sample.failsOnProgramSearch
       Sample.analysis Sample.question = Ok docs)
  /\ Chat.retrieve Sample.failsOnProgram Sample.answers
       Sample.analysis Sample.question
     = Raised (EmbeddingFailed Sample.medicine).
Proof.
  split.
  - destruct (search_failures_absorbed_embedding_failures_raise
                Sample.embeds Sample.failsOnProgramSearch
                Sample.analysis Sample.question) as (_ & _ & Hall & _).
    apply Hall. intros t _. discriminate.
  - destruct (search_failures_absorbed_embedding_failures_raise
                Sample.failsOnProgram Sample.answers
                Sample.analysis Sample.question)
      as (_ & _ & _ & _ & Hprogram & _).
    apply (Hprogram Sample.medicine);
      [discriminate|reflexivity|reflexivity|discriminate|reflexivity].
Defined.

(** The claim as it is written fails twice.  The first embedding succeeds
    and the request raises all the same, on the embedding of the program
    name; and the search of the library throws the error of the store at
    its caller. *)
Lemma later_embedding_failure_raises_and_library_rethrows :
  Sample.failsOnProgram (strOr (search_query Sample.analysis) Sample.question)
    <> None
  /\ Chat.retrieve Sample.failsOnProgram Sample.answers
       Sample.analysis Sample.question
     = Raised (EmbeddingFailed Sample.medicine)
  /\ Lib.retrieveRelevantDocs Sample.embeds Sample.down Sample.question
       (2 # 10) 10
     = Raised (SearchFailed Sample.question).
Proof.
  split; [discriminate|]. split; reflexivity.
Qed.

(** When the answer of the analysis model, code fences stripped, parses
    to [null], the request answers 500 whatever the embedding provider and
    the store would do: no call reaches them. *)
Lemma POST_fails_on_null_analysis prompt invoke JSON_parse message content :
  truthy message = true ->
  invoke (prompt message) = Some content ->
  JSON_parse (trim (replaceGlobal codeFence content [])) = Some Null ->
  forall embedQuery rpc,
    Chat.POST prompt invoke JSON_parse embedQuery rpc (Some message)
    = Chat.Status500.
Proof.
  intros Hm Hi Hp embedQuery rpc. unfold Chat.POST, Chat.analyzeQuery.
  by rewrite Hm, Hi, Hp.
Qed.

End FailureExamples.


(** ** Ingestion runs *)

Section Inserting.

Import Ingestion.

Context {M : Type}.
Variable embedQuery : jsstring -> option Embedding.
Variable insertReply : list (Row M) -> jsstring -> Reply.
Variable newId : list (Row M) -> Z.
Variable chunks : list (jsstring * M).
Variable w0 : World M.

Lemma InsertedOnly_start :
  InsertedOnly chunks w0 0 (w0, {| successCount := 0; errorCount := 0 |}).
Proof.
  apply InsertedOnly_intro with (added := []) (requests := []); simpl;
    rewrite ?app_nil_r; auto.
Qed.

Lemma processChunk_InsertedOnly n st chunk :
  chunk ∈ chunks ->
  InsertedOnly chunks w0 n st ->
  InsertedOnly chunks w0 (S n)
    (processChunk embedQuery insertReply newId st chunk).
Proof.
  intros Hin [added reqs Hrows Hsent Hadded Hreqs Hcount Hall].
  destruct st as [w c]. simpl in *. unfold processChunk.
  assert (Hseen : Forall (fun row => row ∈ rows w0 \/ ofChunks chunks row)
                         (rows w)).
  { rewrite Hrows. apply Forall_app. split.
    - apply Forall_forall. auto.
    - eapply Forall_impl; [exact Hadded|]. auto. }
  destruct (embedQuery (fst chunk)) as [e|].
  - assert (Hreqs' :
      Forall (fun r => isInsert (fst r) = true
                       /\ Forall (fun row => row ∈ rows w0 \/ ofChunks chunks row)
                                 (snd r))
             (reqs ++ [(Insert (fst chunk) (snd chunk) e, rows w)])).
    { apply Forall_app. split; [done|]. constructor; [|constructor]. done. }
    destruct (insertReply (rows w) (fst chunk)).
    + apply InsertedOnly_intro with
        (added := added ++ [ {| id := newId (rows w); content := fst chunk;
                                metadata := snd chunk; embedding := e |} ])
        (requests := reqs ++ [(Insert (fst chunk) (snd chunk) e, rows w)]);
        simpl.
      * by rewrite Hrows, app_assoc.
      * by rewrite Hsent, app_assoc.
      * apply Forall_app. split; [done|]. constructor; [|constructor].
        unfold ofChunks. simpl. by destruct chunk.
      * done.
      * rewrite length_app. simpl. lia.
      * lia.
    + apply InsertedOnly_intro with (added := added)
        (requests := reqs ++ [(Insert (fst chunk) (snd chunk) e, rows w)]);
        simpl; auto; [by rewrite Hsent, app_assoc|lia].
    + apply InsertedOnly_intro with (added := added)
        (requests := reqs ++ [(Insert (fst chunk) (snd chunk) e, rows w)]);
        simpl; auto; [by rewrite Hsent, app_assoc|lia].
  - apply InsertedOnly_intro with (added := added) (requests := reqs);
      simpl; auto; lia.
Qed.

Lemma batch_InsertedOnly batch : forall n st,
  Forall (fun chunk => chunk ∈ chunks) batch ->
  InsertedOnly chunks w0 n st ->
  InsertedOnly chunks w0 (n + List.length batch)
    (fold_left (processChunk embedQuery insertReply newId) batch st).
Proof.
  induction batch as [|chunk batch IH]; intros n st Hb H; simpl.
  - by rewrite Nat.add_0_r.
  - inversion Hb as [|? ? Hc Hb']; subst.
    replace (n + S (List.length batch))%nat with (S n + List.length batch)%nat
      by lia.
    apply IH; [done|]. by apply processChunk_InsertedOnly.
Qed.

Lemma batches_InsertedOnly bs : forall n st,
  Forall (Forall (fun chunk => chunk ∈ chunks)) bs ->
  InsertedOnly chunks w0 n st ->
  InsertedOnly chunks w0 (n + List.length (List.concat bs))
    (fold_left (fun st batch =>
                  fold_left (processChunk embedQuery insertReply newId) batch st)
               bs st).
Proof.
  induction bs as [|b bs IH]; intros n st Hbs H; simpl.
  - by rewrite Nat.add_0_r.
  - inversion Hbs as [|? ? Hb Hbs']; subst.
    rewrite length_app, Nat.add_assoc. apply IH; [done|].
    by apply batch_InsertedOnly.
Qed.

End Inserting.

Section Batches.

Import Ingestion.

Context {A : Type}.

(** The batches are the list, cut in pieces. *)
Lemma batches_concat (batchSize : nat) : forall fuel (l : list A),
  (0 < batchSize)%nat -> (List.length l <= fuel)%nat ->
  List.concat (batches fuel batchSize l) = l.
Proof.
  induction fuel as [|fuel IH]; intros l Hpos Hlen.
  - destruct l; [done|simpl in Hlen; lia].
  - destruct l as [|x l]; [done|].
    change (batches (S fuel) batchSize (x :: l))
      with (take batchSize (x :: l)
            :: batches fuel batchSize (drop batchSize (x :: l))).
    change (List.concat (?b :: ?bs)) with (b ++ List.concat bs). 
    rewrite IH; [apply take_drop|done|].
    rewrite length_drop. simpl in *. lia.
Qed.

End Batches.

Section Runs.

Import Ingestion.

Lemma Forall_in_concat {A : Type} (bs : list (list A)) :
  Forall (Forall (fun x => x ∈ List.concat bs)) bs.
Proof.
  induction bs as [|b bs IH]; [constructor|].
  change (List.concat (b :: bs)) with (b ++ List.concat bs).
  constructor.
  - apply Forall_forall. intros x Hx. apply elem_of_app. by left.
  - eapply Forall_impl; [exact IH|]. intros b' Hb'.
    eapply Forall_impl; [exact Hb'|]. intros x Hx. apply elem_of_app. by right.
Qed.

Lemma insertAll_InsertedOnly {M : Type} embedQuery insertReply newId
  (batchSize : nat) (chunks : list (jsstring * M)) (w : World M) :
  (0 < batchSize)%nat ->
  InsertedOnly chunks w (List.length chunks)
    (insertAll embedQuery insertReply newId batchSize chunks w).
Proof.
  intros Hpos. unfold insertAll.
  pose proof (batches_concat batchSize (List.length chunks) chunks Hpos
                (Nat.le_refl _)) as Hcat.
  pose proof (Forall_in_concat (batches (List.length chunks) batchSize chunks))
    as Hin.
  rewrite Hcat in Hin.
  pose proof (batches_InsertedOnly embedQuery insertReply newId chunks w _ 0 _
                Hin (InsertedOnly_start chunks w)) as H.
  by rewrite Hcat in H.
Qed.

Lemma filter_no_zero {M : Type} (table : list (Row M)) :
  Forall (fun r => id r <> 0) table -> filter (fun r => id r = 0) table = [].
Proof.
  induction 1 as [|r l Hr Hl IH]; [done|].
  rewrite filter_cons. destruct (decide (id r = 0)); [contradiction|exact IH].
Qed.

(** C6, as the code has it.  A run of the text script on a file that exists
    sends the delete request first, on the table as it found it, and sends
    no other; if the request fails the run exits with code 1, nothing is
    inserted and the table is as before.  Otherwise every row whose id is
    not 0 is gone before the first insert: each insert is sent when the
    table holds only old rows with id 0 and rows of this run, and when the
    run completes the table is those old rows followed by the rows stored
    for chunks of the new file, as many as were counted as successes; with
    no old row of id 0, it is the rows of the new file alone. *)
Theorem ingestTextFile_clears_before_inserting
  (embedQuery : jsstring -> option Embedding)
  (insertReply : list (Row IngestText.Metadata) -> jsstring -> Reply)
  (newId : list (Row IngestText.Metadata) -> Z)
  (deleteFails : list (Row IngestText.Metadata) -> bool)
  (text : jsstring) (table : list (Row IngestText.Metadata)) :
  let run := ingestTextFile embedQuery insertReply newId deleteFails
               (Some text) table in
  let kept := filter (fun r => id r = 0) table in
  exists inserts,
    sent (world run) = (Delete, table) :: inserts
    /\ Forall (fun r => isInsert (fst r) = true
                        /\ Forall (fun row => row ∈ kept
                                              \/ ofChunks (textChunks text) row)
                                  (snd r))
              inserts
    /\ (deleteFails table = true ->
        outcome run = Exited 1 /\ inserts = [] /\ rows (world run) = table)
    /\ (deleteFails table = false ->
        exists n added,
          outcome run = Completed n
          /\ rows (world run) = kept ++ added
          /\ Forall (ofChunks (textChunks text)) added
          /\ successCount n = Z.of_nat (List.length added)
          /\ successCount n + errorCount n
             = Z.of_nat (List.length (textChunks text))
          /\ (Forall (fun r => id r <> 0) table -> rows (world run) = added)).
Proof.
  intros run kept. subst run. unfold ingestTextFile, clear. cbn [rows send].
  destruct (deleteFails table) eqn:Hdel.
  - exists []. cbn [world sent rows outcome send app].
    split; [reflexivity|]. split; [constructor|].
    split; [intros _; repeat split|discriminate].
  - match goal with
    | |- context [insertAll ?a ?b ?c ?d ?e ?w] =>
        pose proof (insertAll_InsertedOnly a b c d e w ltac:(lia)) as H;
        destruct (insertAll a b c d e w) as [w' n]
    end.
    destruct H as [added reqs Hrows Hsent Hadded Hreqs Hcount Hall].
    cbn [fst snd rows sent send app] in *.
    exists reqs. cbn [world outcome]. split; [done|]. split; [done|].
    split; [discriminate|]. intros _. exists n, added.
    repeat (split; [done|]). intros Hids.
    by rewrite Hrows, (filter_no_zero table Hids).
Qed.

Lemma ingestTextFile_clears_before_inserting_witness :
  exists added,
    rows (world (ingestTextFile Sample.embeds Sample.accepts Sample.nextId
                   (fun _ => false) (Some Sample.twoPrograms)
                   [Sample.rowSeven])) = added
    /\ Forall (ofChunks (textChunks Sample.twoPrograms)) added.
Proof.
  destruct (ingestTextFile_clears_before_inserting Sample.embeds Sample.accepts
              Sample.nextId (fun _ => false) Sample.twoPrograms
              [Sample.rowSeven])
    as (inserts & _ & _ & _ & Hdone).
  destruct (Hdone eq_refl) as (n & added & _ & _ & Hof & _ & _ & Hreplaced).
  exists added. split; [|exact Hof].
  apply Hreplaced. repeat constructor. discriminate.
Defined.

(** The PDF script sends inserts only and removes nothing: the table it
    found is still there when it stops, followed by the rows it added. *)
Lemma ingestPDF_appends embedQuery insertReply newId
  (text : jsstring) (table : list (Row IngestPdf.Metadata)) :
  let run := ingestPDF embedQuery insertReply newId (Some text) table in
  Forall (fun r => isInsert (fst r) = true) (sent (world run))
  /\ exists added, rows (world run) = table ++ added.
Proof.
  intros run. subst run. unfold ingestPDF.
  match goal with
  | |- context [insertAll ?a ?b ?c ?d ?e ?w] =>
      pose proof (insertAll_InsertedOnly a b c d e w ltac:(lia)) as H;
      destruct (insertAll a b c d e w) as [w' n]
  end.
  destruct H as [added reqs Hrows Hsent _ Hreqs _ _].
  cbn [fst snd rows sent world app] in *. split.
  - rewrite Hsent. eapply Forall_impl; [exact Hreqs|]. by intros r [Hr _].
  - by exists added.
Qed.

(** The claim as it is written fails twice.  A run of the PDF script sends
    no delete request: every request is an insert, sent while the row of an
    earlier run is in the table, and that row is still there when the run
    completes.  And the delete request of the text script spares a row whose
    id is 0. *)
Lemma ingestPDF_keeps_old_rows_and_id_zero_survives :
  (let run := ingestPDF Sample.embeds Sample.accepts Sample.nextId
                (Some Sample.pdfText) [Sample.oldPdfRow] in
   outcome run = Completed {| successCount := 2; errorCount := 0 |}
   /\ List.map (fun r => isInsert (fst r)) (sent (world run)) = [true; true]
   /\ List.map (fun r => snd r !! 0%nat) (sent (world run))
      = [Some Sample.oldPdfRow; Some Sample.oldPdfRow]
   /\ rows (world run) !! 0%nat = Some Sample.oldPdfRow)
  /\ (let run := ingestTextFile Sample.embeds Sample.accepts Sample.nextId
                   (fun _ => false) (Some Sample.twoPrograms)
                   [Sample.rowZero] in
      outcome run = Completed {| successCount := 2; errorCount := 0 |}
      /\ rows (world run) !! 0%nat = Some Sample.rowZero).
Proof.
  split; vm_compute; repeat split; reflexivity.
Qed.

End Runs.

(** ** The context given to the chat model *)

Section Formatting.

Import Retrieval Blocks.

Lemma lit_cons (s : string) (c : Z) (r : jsstring) (l : jsstring) :
  lit s = c :: r -> lit s ++ l <> [].
Proof. intros ->. discriminate. Qed.

Lemma join_nonempty (sep first : jsstring) (others : list jsstring) :
  first <> [] -> join sep (first :: others) <> [].
Proof.
  intros H. destruct others; simpl; [done|].
  destruct first; [done|discriminate].
Qed.

Lemma Chat_formatDoc_nonempty i doc : Chat.formatDoc i doc <> [].
Proof. unfold Chat.formatDoc. eapply lit_cons. vm_compute. reflexivity. Qed.

Lemma ChatMulti_formatDoc_nonempty i doc : ChatMulti.formatDoc i doc <> [].
Proof. unfold ChatMulti.formatDoc. eapply lit_cons. vm_compute. reflexivity. Qed.

Lemma Lib_formatDoc_nonempty i doc : Lib.formatDoc i doc <> [].
Proof. unfold Lib.formatDoc. eapply lit_cons. vm_compute. reflexivity. Qed.

Lemma strOr_shows (field : option jsstring) (default : jsstring) :
  shows field default (strOr field default).
Proof.
  unfold shows, strOr. destruct field as [[|c s]|]; cbn [truthy].
  - right. split; [by right|done].
  - left. by exists (c :: s).
  - right. split; [by left|done].
Qed.

(** What the route writes for one document. *)
Lemma Chat_formatDoc_labelled (i : nat) (doc : MatchDocumentsResult) :
  exists institution programName programCode section,
    shows (Retrieval.institution (metadata doc)) (lit "غير محدد") institution
    /\ shows (program_name (metadata doc)) (lit "غير محدد") programName
    /\ showsBetween (program_code (metadata doc)) (lit "(") (lit ")")
         programCode
    /\ shows (Retrieval.section (metadata doc)) (lit "عام") section
    /\ Chat.formatDoc i doc
       = lit "═══ مصدر " ++ digits (Z.of_nat i + 1) ++ lit " ═══" ++ [LF]
         ++ lit "اسم المؤسسة التعليمية: " ++ institution ++ [LF]
         ++ lit "اسم البرنامج الدراسي: " ++ programName ++ lit " "
         ++ programCode ++ [LF]
         ++ lit "القسم: " ++ section ++ [LF]
         ++ lit "المحتوى والشروط:" ++ [LF]
         ++ content doc ++ [LF]
         ++ lit "(نسبة التطابق مع البحث: "
         ++ toFixed (times (similarity doc) 100) 0 ++ lit "%)".
Proof.
  eexists (strOr (Retrieval.institution (metadata doc)) _),
          (strOr (program_name (metadata doc)) _), _,
          (strOr (Retrieval.section (metadata doc)) _).
  split; [apply strOr_shows|]. split; [apply strOr_shows|].
  split; [|split; [apply strOr_shows|reflexivity]].
  unfold showsBetween. destruct (program_code (metadata doc)) as [[|c s]|];
    cbn [truthy].
  - right. split; [by right|done].
  - left. by exists (c :: s).
  - right. split; [by left|done].
Qed.

(** What the library writes for one document. *)
Lemma Lib_formatDoc_labelled (i : nat) (doc : MatchDocumentsResult) :
  exists programInfo,
    ((exists name institution,
        program_name (metadata doc) = Some name /\ name <> []
        /\ shows (Retrieval.institution (metadata doc)) (lit "غير محدد")
             institution
        /\ programInfo = lit "[" ++ name ++ lit " - " ++ institution ++ lit "]")
     \/ ((program_name (metadata doc) = None
          \/ program_name (metadata doc) = Some [])
         /\ programInfo = []))
    /\ Lib.formatDoc i doc
       = lit "--- مقطع " ++ digits (Z.of_nat i + 1) ++ lit " " ++ programInfo
         ++ lit " (تطابق: " ++ toFixed (times (similarity doc) 100) 1
         ++ lit "%) ---" ++ [LF] ++ content doc.
Proof.
  eexists. split; [|reflexivity].
  destruct (program_name (metadata doc)) as [[|c s]|]; cbn [truthy].
  - right. split; [by right|done].
  - left. eexists (c :: s), _. split; [done|]. split; [done|].
    split; [apply strOr_shows|done].
  - right. split; [by left|done].
Qed.

(** C8. On the empty list the formatter returns its fixed sentence, which
    is not the empty string, and it never returns the empty string.  On any
    other list it returns one block for each document, in the order of the
    list, the blocks joined by the divider.  The block of the route starts
    with the label that numbers the document from 1, then has a line for the
    institution, one for the program name and code, one for the section,
    each field replaced by its fixed word when it is missing or empty, then
    the whole content and the line with the percentage.  The block of the
    library, whose divider is a blank line, has the label with the number,
    the program and institution when there is a program name, the
    percentage with one decimal, and the whole content. *)
Theorem formatContext_blocks_or_fixed_sentence :
  (Chat.formatContext []
   = lit "لا توجد معلومات متاحة في قاعدة البيانات للإجابة على هذا السؤال."
   /\ Chat.formatContext [] <> []
   /\ (forall docs, Chat.formatContext docs <> [])
   /\ (forall docs, docs <> [] ->
       exists blocks,
         Chat.formatContext docs
         = join ([LF; LF] ++ lit "────────────────────────────────────"
                 ++ [LF; LF]) blocks
         /\ List.length blocks = List.length docs
         /\ forall i doc, docs !! i = Some doc ->
            exists institution programName programCode section,
              shows (Retrieval.institution (metadata doc)) (lit "غير محدد")
                institution
              /\ shows (program_name (metadata doc)) (lit "غير محدد")
                   programName
              /\ showsBetween (program_code (metadata doc)) (lit "(")
                   (lit ")") programCode
              /\ shows (Retrieval.section (metadata doc)) (lit "عام") section
              /\ blocks !! i
                 = Some
                     (lit "═══ مصدر " ++ digits (Z.of_nat i + 1)
                      ++ lit " ═══" ++ [LF]
                      ++ lit "اسم المؤسسة التعليمية: " ++ institution ++ [LF]
                      ++ lit "اسم البرنامج الدراسي: " ++ programName
                      ++ lit " " ++ programCode ++ [LF]
                      ++ lit "القسم: " ++ section ++ [LF]
                      ++ lit "المحتوى والشروط:" ++ [LF]
                      ++ content doc ++ [LF]
                      ++ lit "(نسبة التطابق مع البحث: "
                      ++ toFixed (times (similarity doc) 100) 0
                      ++ lit "%)")))
  /\ (Lib.formatContext []
      = lit "لا توجد معلومات متاحة في قاعدة البيانات للإجابة على هذا السؤال."
      /\ Lib.formatContext [] <> []
      /\ (forall docs, Lib.formatContext docs <> [])
      /\ (forall docs, docs <> [] ->
          exists blocks,
            Lib.formatContext docs = join [LF; LF] blocks
            /\ List.length blocks = List.length docs
            /\ forall i doc, docs !! i = Some doc ->
               exists programInfo,
                 ((exists name institution,
                     program_name (metadata doc) = Some name /\ name <> []
                     /\ shows (Retrieval.institution (metadata doc))
                          (lit "غير محدد") institution
                     /\ programInfo
                        = lit "[" ++ name ++ lit " - " ++ institution
                          ++ lit "]")
                  \/ ((program_name (metadata doc) = None
                       \/ program_name (metadata doc) = Some [])
                      /\ programInfo = []))
                 /\ blocks !! i
                    = Some
                        (lit "--- مقطع " ++ digits (Z.of_nat i + 1)
                         ++ lit " " ++ programInfo
                         ++ lit " (تطابق: "
                         ++ toFixed (times (similarity doc) 100) 1
                         ++ lit "%) ---" ++ [LF] ++ content doc))).
Proof.
  split.
  - split; [reflexivity|]. split; [vm_compute; discriminate|]. split.
    + intros [|d docs]; [vm_compute; discriminate|].
      apply join_nonempty, Chat_formatDoc_nonempty.
    + intros docs Hdocs. exists (imap Chat.formatDoc docs).
      split; [by destruct docs|]. split; [apply length_imap|].
      intros i doc Hi.
      destruct (Chat_formatDoc_labelled i doc)
        as (inst & name & code & sect & H1 & H2 & H3 & H4 & E).
      exists inst, name, code, sect. rewrite <- E.
      rewrite list_lookup_imap, Hi. done.
  - split; [reflexivity|]. split; [vm_compute; discriminate|]. split.
    + intros [|d docs]; [vm_compute; discriminate|].
      apply join_nonempty, Lib_formatDoc_nonempty.
    + intros docs Hdocs. exists (imap Lib.formatDoc docs).
      split; [by destruct docs|]. split; [apply length_imap|].
      intros i doc Hi.
      destruct (Lib_formatDoc_labelled i doc) as (info & H1 & E).
      exists info. rewrite <- E. rewrite list_lookup_imap, Hi. done.
Qed.

Lemma formatContext_blocks_or_fixed_sentence_witness :
  exists blocks,
    Chat.formatContext [Sample.docA; Sample.docB]
    = join ([LF; LF] ++ lit "────────────────────────────────────"
            ++ [LF; LF]) blocks
    /\ List.length blocks = 2%nat
    /\ blocks !! 1%nat
       = Some (lit "═══ مصدر 2 ═══
اسم المؤسسة التعليمية: غير محدد
اسم البرنامج الدراسي: غير محدد 
القسم: عام
المحتوى والشروط:
اسم البرنامج: هندسة معمارية
(نسبة التطابق مع البحث: 50%)").
Proof.
  destruct (proj2 (proj2 (proj2 (proj1 formatContext_blocks_or_fixed_sentence)))
              [Sample.docA; Sample.docB]) as (blocks & E & Hlen & Hblocks);
    [discriminate|].
  exists blocks. split; [exact E|]. split; [exact Hlen|].
  destruct (Hblocks 1%nat Sample.docB eq_refl)
    as (inst & name & code & sect & H1 & H2 & H3 & H4 & E1).
  destruct H1 as [(s & H & _)|[_ ->]]; [discriminate H|].
  destruct H2 as [(s & H & _)|[_ ->]]; [discriminate H|].
  destruct H3 as [(s & H & _)|[_ ->]]; [discriminate H|].
  destruct H4 as [(s & H & _)|[_ ->]]; [discriminate H|].
  etrans; [exact E1|]. vm_compute. reflexivity.
Defined.

(** The formatter of the multi-strategy variant, with its own sentence. *)
Lemma ChatMulti_formatContext_blocks_or_fixed_sentence :
  ChatMulti.formatContext [] = ChatMulti.noInformation
  /\ ChatMulti.noInformation <> []
  /\ (forall d docs,
        ChatMulti.formatContext (d :: docs)
          = join ChatMulti.divider (imap ChatMulti.formatDoc (d :: docs)))
  /\ (forall docs, ChatMulti.formatContext docs <> []).
Proof.
  split; [reflexivity|]. split; [vm_compute; discriminate|].
  split; [reflexivity|].
  intros [|d docs]; [vm_compute; discriminate|].
  apply join_nonempty, ChatMulti_formatDoc_nonempty.
Qed.

(** What the route makes of one document. *)
Example Chat_formatContext_docA :
  Chat.formatContext [Sample.docA] = lit "═══ مصدر 1 ═══
اسم المؤسسة التعليمية: غير محدد
اسم البرنامج الدراسي: غير محدد 
القسم: عام
المحتوى والشروط:
اسم البرنامج: طب
(نسبة التطابق مع البحث: 50%)".
Proof. vm_compute. reflexivity. Qed.

(** The percentage is that of the product as the numbers give it: a
    similarity written 0.285 is the number just below it, and its hundredfold
    is shown as 28. *)
Example percentage_of_the_number :
  toFixed (times (285 # 1000) 100) 0 = lit "28"
  /\ toFixed (times (8575 # 10000) 100) 1 = lit "85.8"
  /\ toFixed (times (1005 # 1000) 100) 1 = lit "100.5".
Proof. vm_compute. repeat split. Qed.

End Formatting.


(** ** The field extractors *)

Section Strings.

Lemma startsWith_spec (s p : jsstring) :
  startsWith s p = true <-> exists after, s = p ++ after.
Proof.
  revert s. induction p as [|a p IH]; intros [|b s]; simpl.
  - split; [by exists []|done].
  - split; [by exists (b :: s)|done].
  - split; [done|]. intros [after H]. discriminate H.
  - rewrite andb_true_iff, Z.eqb_eq, IH. split.
    + intros [-> [after ->]]. by exists after.
    + intros [after [= -> ->]]. split; [done|by exists after].
Qed.

Lemma indexOfFrom_found (s p : jsstring) (i : Z) :
  0 <= i -> 0 <= indexOfFrom i s p <-> occursIn p s.
Proof.
  revert i. induction s as [|c s IH]; intros i Hi.
  - cbn [indexOfFrom]. destruct (startsWith [] p) eqn:E.
    + split; [|lia]. intros _. apply startsWith_spec in E as [after E].
      by exists [], after.
    + split; [lia|]. intros (before & after & H).
      destruct before; [|discriminate H]. simpl in H.
      assert (startsWith [] p = true) by (apply startsWith_spec; eauto).
      congruence.
  - cbn [indexOfFrom]. destruct (startsWith (c :: s) p) eqn:E.
    + split; [|lia]. intros _. apply startsWith_spec in E as [after E].
      by exists [], after.
    + rewrite IH by lia. split.
      * intros (before & after & ->). by exists (c :: before), after.
      * intros (before & after & H). destruct before as [|b before].
        -- simpl in H.
           assert (startsWith (c :: s) p = true)
             by (apply startsWith_spec; eauto).
           congruence.
        -- injection H as -> ->. by exists before, after.
Qed.

(** [s.includes(p)] says whether [p] occurs in [s]. *)
Lemma includes_spec (s p : jsstring) : includes s p = true <-> occursIn p s.
Proof.
  unfold includes, indexOf. rewrite Z.leb_le. by apply indexOfFrom_found.
Qed.

End Strings.

(** ** What a match consumes and captures *)

Section Consumption.

Import Captures.

(** A turn of a quantifier that is still required goes through the body. *)
Lemma turn_required greedy k body again min max x z :
  turn greedy k body again min max x = Some z ->
  (((0 <? min)%nat && match max with Some O => false | _ => true end = false)
   /\ k x = Some z)
  \/ body (fun y => if (min =? 0)%nat && (pos y =? pos x)%nat then None
                    else again (Nat.pred min) (option_map Nat.pred max) y) x
     = Some z.
Proof.
  unfold turn. cbv zeta.
  destruct max as [[|n]|].
  - intros H. left. by rewrite andb_false_r.
  - destruct (0 <? min)%nat; [by right|].
    destruct greedy.
    + destruct (body _ x) as [z'|] eqn:E; [intros [= <-]; by right|by left].
    + destruct (k x) as [z'|] eqn:E; [intros [= <-]; by left|by right].
  - destruct (0 <? min)%nat; [by right|].
    destruct greedy.
    + destruct (body _ x) as [z'|] eqn:E; [intros [= <-]; by right|by left].
    + destruct (k x) as [z'|] eqn:E; [intros [= <-]; by left|by right].
Qed.

Lemma existsb_eqb_false (f : Z) (s : jsstring) :
  existsb (Z.eqb f) s = false -> f ∉ s.
Proof.
  induction s as [|c s IH]; simpl; [intros _; apply not_elem_of_nil|].
  intros H. apply orb_false_iff in H as [Hc Hs]. apply Z.eqb_neq in Hc.
  apply not_elem_of_cons. split; [done|by apply IH].
Qed.

(** A match takes a piece off the front of what was left of the input,
    keeps the number of captures and the captures of the groups that are not
    its own; the piece has none of the code units the pattern avoids, and is
    not empty when the pattern always consumes. *)
Lemma matcher_consumes (f : Z) (r : regex) : forall spare k x z,
  matcher spare r k x = Some z ->
  exists y w,
    k y = Some z
    /\ rest x = w ++ rest y
    /\ pos y = (pos x + List.length w)%nat
    /\ List.length (caps y) = List.length (caps x)
    /\ (forall j, mentions j r = false -> caps y !! j = caps x !! j)
    /\ (avoids f r = true -> f ∉ w)
    /\ (consumesSome r = true -> w <> []).
Proof.
  induction r as [s|neg items|r1 IH1 r2 IH2|r1 IH1 r2 IH2
                  |min max greedy r' IH|i r' IH|r' IH| |];
    intros spare k x z H.
  - simpl in H. destruct (startsWith (rest x) s) eqn:E; [|done].
    pose proof E as E'. apply startsWith_spec in E' as [after Ea].
    exists (advance (List.length s) x), s. cbn [advance rest pos caps].
    split; [done|]. rewrite Ea, drop_app_length.
    repeat split; try done.
    + simpl. intros Hf. apply existsb_eqb_false. by destruct (existsb _ s).
    + simpl. by destruct s.
  - simpl in H. destruct (rest x) as [|c rest'] eqn:E; [done|].
    destruct (xorb neg (existsb (inSet c) items)) eqn:Ec; [|done].
    exists (advance 1 x), [c]. cbn [advance rest pos caps]. rewrite E.
    repeat split; try done.
    simpl. intros Hf Hin. apply list_elem_of_singleton in Hin as ->.
    rewrite Ec in Hf. done.
  - simpl in H. apply IH1 in H as (y1 & w1 & H & Hr1 & Hp1 & Hl1 & Hc1 & Ha1 & Hn1).
    apply IH2 in H as (y2 & w2 & H & Hr2 & Hp2 & Hl2 & Hc2 & Ha2 & Hn2).
    exists y2, (w1 ++ w2). split; [done|]. rewrite Hr1, Hr2, length_app.
    split; [by rewrite app_assoc|]. split; [lia|]. split; [congruence|].
    split; [|split].
    + intros j Hj. simpl in Hj. apply orb_false_iff in Hj as [Hj1 Hj2].
      by rewrite Hc2, Hc1.
    + simpl. intros Hf. apply andb_prop in Hf as [Hf1 Hf2].
      rewrite elem_of_app. intros [?|?]; [by apply Ha1|by apply Ha2].
    + simpl. intros Hs. apply orb_prop in Hs as [Hs|Hs].
      * specialize (Hn1 Hs). by destruct w1.
      * specialize (Hn2 Hs). destruct w1; [by destruct w2|done].
  - simpl in H. destruct (matcher spare r1 k x) as [z1|] eqn:E1.
    + injection H as <-.
      apply IH1 in E1 as (y & w & H & Hr & Hp & Hl & Hc & Ha & Hn).
      exists y, w. repeat split; try done.
      * intros j Hj. simpl in Hj. apply orb_false_iff in Hj as [Hj1 Hj2]. auto.
      * simpl. intros Hf. apply andb_prop in Hf as [Hf1 Hf2]. auto.
      * simpl. intros Hs. apply andb_prop in Hs as [Hs1 Hs2]. auto.
    + apply IH2 in H as (y & w & H & Hr & Hp & Hl & Hc & Ha & Hn).
      exists y, w. repeat split; try done.
      * intros j Hj. simpl in Hj. apply orb_false_iff in Hj as [Hj1 Hj2]. auto.
      * simpl. intros Hf. apply andb_prop in Hf as [Hf1 Hf2]. auto.
      * simpl. intros Hs. apply andb_prop in Hs as [Hs1 Hs2]. auto.
  - cbn [matcher] in H. revert H.
    generalize (S (min + List.length (rest x)) + spare)%nat.
    intros F. revert min max x.
    induction F as [|F IHF]; intros min max x H; [done|].
    apply turn_required in H as [[Hmin H]|H].
    + exists x; exists (@nil Z). repeat split; try done.
      * intros _. apply not_elem_of_nil.
      * cbn [consumesSome]. rewrite Hmin. done.
    + apply IH in H as (y1 & w1 & H & Hr1 & Hp1 & Hl1 & Hc1 & Ha1 & Hn1).
      destruct ((min =? 0)%nat && (pos y1 =? pos x)%nat); [done|].
      apply IHF in H as (y & w & H & Hr & Hp & Hl & Hc & Ha & Hn).
      exists y, (w1 ++ w). split; [done|]. rewrite Hr1, Hr, length_app.
      split; [by rewrite app_assoc|]. split; [lia|]. split; [congruence|].
      split; [|split].
      * intros j Hj. rewrite Hc, Hc1; done.
      * cbn [avoids] in *. intros Hf.
        rewrite elem_of_app. intros [?|?]; [by apply Ha1|by apply Ha].
      * cbn [consumesSome]. intros Hs. apply andb_prop in Hs as [_ Hs].
        specialize (Hn1 Hs). by destruct w1.
  - simpl in H. apply IH in H as (y & w & H & Hr & Hp & Hl & Hc & Ha & Hn).
    exists (capture i x y), w. unfold capture. cbn [rest pos caps].
    repeat split; try done.
    + by rewrite length_insert.
    + intros j Hj. simpl in Hj. apply orb_false_iff in Hj as [Hji Hj].
      apply Nat.eqb_neq in Hji. rewrite list_lookup_insert_ne by done. auto.
  - simpl in H. destruct (matcher spare r' Some x) as [y|] eqn:E; [|done].
    apply IH in E as (y' & w & [= ->] & _ & _ & Hl & Hc & _).
    exists (State (pos x) (rest x) (caps y)); exists (@nil Z). cbn [rest pos caps].
    repeat split; try done; try lia.
    intros _. apply not_elem_of_nil.
  - simpl in H. destruct (pos x =? 0)%nat; [|done].
    exists x; exists (@nil Z). repeat split; try done; try (simpl; lia).
    intros _. apply not_elem_of_nil.
  - simpl in H. destruct (rest x) eqn:E; [|done].
    exists x; exists (@nil Z). repeat split; try done; try (simpl; lia).
    intros _. apply not_elem_of_nil.
Qed.

(** The capture of a group that stands once in a sequence is the piece its
    pattern consumed. *)
Lemma matcher_last_group (f : Z) (i : nat) (r : regex) : forall v spare k x z,
  lastGroup i r = Some v ->
  (forall y z', k y = Some z' -> caps z' !! i = caps y !! i) ->
  (i < List.length (caps x))%nat ->
  matcher spare r k x = Some z ->
  exists w before after,
    caps z !! i = Some (Some w)
    /\ rest x = before ++ w ++ after
    /\ (avoids f v = true -> f ∉ w)
    /\ (consumesSome v = true -> w <> []).
Proof.
  induction r as [s|neg items|r1 IH1 r2 IH2|r1 IH1 r2 IH2
                  |min max greedy r' IH|j r' IH|r' IH| |];
    intros v spare k x z Hlast Hk Hi H; try discriminate Hlast.
  - cbn [lastGroup] in Hlast. cbn [matcher] in H.
    destruct (mentions i r2) eqn:Em.
    + apply (matcher_consumes f) in H
        as (y1 & w1 & H & Hr1 & _ & Hl1 & _).
      destruct (IH2 v spare k y1 z Hlast Hk ltac:(lia) H)
        as (w & before & after & Hw & Hr & Ha & Hn).
      exists w, (w1 ++ before), after. repeat split; try done.
      by rewrite Hr1, Hr, <- app_assoc.
    + apply (IH1 v spare (matcher spare r2 k) x z Hlast); [|done|done].
      intros y z' Hz'.
      apply (matcher_consumes f) in Hz' as (y2 & w2 & Hz' & _ & _ & _ & Hc & _).
      etrans; [exact (Hk _ _ Hz')|exact (Hc i Em)].
  - cbn [lastGroup] in Hlast.
    destruct (Nat.eqb_spec i j) as [<-|]; [|done]. injection Hlast as ->.
    cbn [matcher] in H.
    apply (matcher_consumes f) in H as (y & w & H & Hr & Hp & Hl & _ & Ha & Hn).
    exists w, [], (rest y). repeat split; try done.
    etrans; [exact (Hk _ _ H)|]. unfold capture. cbn [caps].
    etrans.
    { apply list_lookup_insert_eq.
      eapply Nat.lt_le_trans; [exact Hi|].
      apply Nat.eq_le_incl. symmetry. exact Hl. }
    rewrite Hr, Hp. do 2 f_equal.
    replace (pos x + List.length w - pos x)%nat with (List.length w) by lia.
    by rewrite take_app_length.
Qed.

Lemma group_lookup (res : result) (i : nat) (g : option jsstring) :
  groups res !! i = Some g -> group res i = g.
Proof. unfold group. by intros ->. Qed.

Lemma execAt_last_group (f : Z) (r v : regex) (s : jsstring) (q i : nat)
  (res : result) :
  lastGroup i r = Some v -> (1 <= i <= ngroups r)%nat ->
  execAt r s q = Some res ->
  exists w,
    group res i = Some w /\ occursIn w s
    /\ (avoids f v = true -> f ∉ w) /\ (consumesSome v = true -> w <> []).
Proof.
  unfold execAt. intros Hlast Hi H.
  destruct (m r Some _) as [y|] eqn:E; [|done]. injection H as <-.
  apply (matcher_last_group f i r v) in E
    as (w & before & after & Hw & Hr & Ha & Hn); try done.
  - exists w. cbn [rest] in *. repeat split; try done.
    + apply group_lookup. cbn [groups].
      etrans; [apply list_lookup_insert_ne; lia|exact Hw].
    + exists (take q s ++ before), after.
      rewrite <- app_assoc, <- Hr. by rewrite take_drop.
  - by intros y' z' [= ->].
  - cbn [caps]. rewrite length_replicate. lia.
Qed.

(** The text of a match is a piece of the input, with none of the code
    units the pattern avoids. *)
Lemma execAt_text (f : Z) (r : regex) (s : jsstring) (q : nat) (res : result) :
  execAt r s q = Some res ->
  let t := take (endIndex res - index res) (drop (index res) s) in
  group res 0 = Some t /\ occursIn t s /\ (avoids f r = true -> f ∉ t).
Proof.
  unfold execAt. intros H.
  destruct (m r Some _) as [y|] eqn:E; [|done]. injection H as <-.
  apply (matcher_consumes f) in E as (y' & w & [= ->] & Hr & Hp & Hl & _ & Ha & _).
  cbn [rest pos caps index endIndex groups] in *.
  rewrite length_replicate in Hl.
  assert (Et : take (pos y - q) (drop q s) = w).
  { rewrite Hr, Hp.
    replace (q + List.length w - q)%nat with (List.length w) by lia.
    by rewrite take_app_length. }
  rewrite Et. repeat split; try done.
  - apply group_lookup. cbn [groups]. apply list_lookup_insert_eq.
    rewrite Hl. lia.
  - exists (take q s), (rest y). rewrite <- Hr. by rewrite take_drop.
Qed.

Lemma execFromFuel_inv (P : result -> Prop) (r : regex) (s : jsstring) :
  (forall q res, execAt r s q = Some res -> P res) ->
  forall fuel q res, execFromFuel fuel r s q = Some res -> P res.
Proof.
  intros HP. induction fuel as [|fuel IH]; intros q res H; simpl in H.
  - destruct (execAt r s q) eqn:E; [|done]. injection H as <-. by eapply HP.
  - destruct (execAt r s q) eqn:E.
    + injection H as <-. by eapply HP.
    + by eapply IH.
Qed.

Lemma execFrom_inv (P : result -> Prop) (r : regex) (s : jsstring) :
  (forall q res, execAt r s q = Some res -> P res) ->
  forall q res, execFrom r s q = Some res -> P res.
Proof.
  intros HP q res. unfold execFrom. destruct (q <=? List.length s)%nat; [|done].
  by apply execFromFuel_inv.
Qed.

(** [match[i]] for a pattern without the global flag in which group [i]
    stands once in the sequence. *)
Lemma match_last_group (f : Z) (p : pattern) (v : regex) (text : jsstring)
  (i : nat) (mt : list (option jsstring)) :
  global p = false -> lastGroup i (re p) = Some v ->
  (1 <= i <= ngroups (re p))%nat ->
  match_ text p = Some mt ->
  at_ mt i = Some (the mt i)
  /\ occursIn (the mt i) text
  /\ (avoids f v = true -> f ∉ the mt i)
  /\ (consumesSome v = true -> the mt i <> []).
Proof.
  unfold match_, the. intros -> Hlast Hi H.
  destruct (exec (re p) text) as [res|] eqn:E; [|done]. injection H as <-.
  unfold exec in E.
  apply (execFrom_inv
           (fun res => exists w, group res i = Some w /\ occursIn w text
                                 /\ (avoids f v = true -> f ∉ w)
                                 /\ (consumesSome v = true -> w <> []))) in E.
  - destruct E as (w & Hw & Hrest). unfold at_, group in *. by rewrite Hw.
  - intros q res'. by apply execAt_last_group.
Qed.

(** [match[0]] for a pattern without the global flag. *)
Lemma match_text (f : Z) (p : pattern) (text : jsstring)
  (mt : list (option jsstring)) :
  global p = false -> match_ text p = Some mt ->
  at_ mt 0 = Some (the mt 0) /\ occursIn (the mt 0) text
  /\ (avoids f (re p) = true -> f ∉ the mt 0).
Proof.
  unfold match_, the. intros -> H.
  destruct (exec (re p) text) as [res|] eqn:E; [|done]. injection H as <-.
  unfold exec in E.
  apply (execFrom_inv
           (fun res => exists w, group res 0 = Some w /\ occursIn w text
                                 /\ (avoids f (re p) = true -> f ∉ w))) in E.
  - destruct E as (w & Hw & Hrest). unfold at_, group in *. by rewrite Hw.
  - intros q res' Hres. eexists. by apply (execAt_text f) in Hres.
Qed.

End Consumption.

(** ** The values the extractors return *)

Section Extractors.

Import IngestText Captures Captured.












End Extractors.


(** ** The loop that splits a long block *)

Section LongBlocks.

Import IngestPdf.

Lemma breakPoints_not_empty : Forall (fun bp => 1 <= length bp) breakPoints.
Proof. repeat constructor; vm_compute; discriminate. Qed.

(** The value of [end] is beyond the middle of the window, whether a break
    point was taken or not. *)
Lemma findBreak_beyond_middle (bps : list jsstring) (text : jsstring)
  (start maxLength : Z) :
  Forall (fun bp => 1 <= length bp) bps ->
  0 < maxLength ->
  2 * start + maxLength
  < 2 * findBreak bps text start maxLength (start + maxLength).
Proof.
  intros Hbps Hmax. induction Hbps as [|bp bps Hbp _ IH]; simpl; [lia|].
  destruct (Z.ltb_spec (2 * start + maxLength)
              (2 * lastIndexOf text bp (start + maxLength))); [lia|exact IH].
Qed.

Lemma cut_beyond_middle (text : jsstring) (maxLength start : Z) :
  0 < maxLength -> 2 * start + maxLength < 2 * cut text maxLength start.
Proof.
  intros Hmax. unfold cut.
  destruct (start + maxLength <? length text); [|lia].
  by apply findBreak_beyond_middle; [apply breakPoints_not_empty|].
Qed.

(** So each turn moves [start] forward. *)
Lemma start_advances (text : jsstring) (maxLength overlap start : Z) :
  0 < maxLength -> 2 * overlap < maxLength ->
  maxLength - 2 * overlap < 2 * (cut text maxLength start - overlap - start).
Proof.
  intros Hmax Hov. pose proof (cut_beyond_middle text maxLength start Hmax). lia.
Qed.

(** The loop ends within as many turns as [start] is short of the end. *)
Lemma splitLongBlockLoop_ends (text : jsstring) (maxLength overlap : Z) :
  0 < maxLength -> 2 * overlap < maxLength ->
  forall fuel start chunks,
    length text - start <= Z.of_nat fuel ->
    exists result,
      splitLongBlockLoop fuel text maxLength overlap start chunks = Some result.
Proof.
  intros Hmax Hov. induction fuel as [|fuel IH]; intros start chunks Hfuel.
  - simpl. destruct (Z.ltb_spec start (length text)); [lia|by eexists].
  - simpl. destruct (Z.ltb_spec start (length text)); [|by eexists].
    apply IH.
    pose proof (start_advances text maxLength overlap start Hmax Hov). lia.
Qed.

(** More turns than needed change nothing. *)
Lemma splitLongBlockLoop_more_fuel (text : jsstring) (maxLength overlap : Z) :
  forall fuel fuel' start chunks result,
    splitLongBlockLoop fuel text maxLength overlap start chunks = Some result ->
    (fuel <= fuel')%nat ->
    splitLongBlockLoop fuel' text maxLength overlap start chunks = Some result.
Proof.
  induction fuel as [|fuel IH]; intros fuel' start chunks result H Hle.
  - simpl in H. destruct fuel'; simpl;
      destruct (start <? length text); done.
  - destruct fuel' as [|fuel']; [lia|]. simpl in *.
    destruct (start <? length text); [|done].
    apply (IH fuel'); [done|lia].
Qed.

Lemma splitLongBlock_ends (text : jsstring) (maxLength overlap : Z) :
  0 < maxLength -> 2 * overlap < maxLength ->
  exists chunks,
    forall fuel, (List.length text <= fuel)%nat ->
      splitLongBlock fuel text maxLength overlap = Some chunks.
Proof.
  intros Hmax Hov.
  destruct (splitLongBlockLoop_ends text maxLength overlap Hmax Hov
              (List.length text) 0 []) as [chunks H].
  { unfold length. lia. }
  exists chunks. intros fuel Hfuel. unfold splitLongBlock.
  by apply (splitLongBlockLoop_more_fuel _ _ _ (List.length text)).
Qed.

(** C10. For every text and all lengths with [overlap] below half of
    [maxLength], the loop of [splitLongBlock] ends: after at most as many
    turns as the text has code units it has returned its chunks, and more
    turns change nothing.  For the cut of each turn is beyond
    [start + maxLength / 2], so that [start] moves forward by more than
    [maxLength / 2 - overlap]. *)
Theorem splitLongBlock_terminates (text : jsstring) (maxLength overlap : nat) :
  (2 * overlap < maxLength)%nat ->
  (exists chunks,
     forall fuel, (List.length text <= fuel)%nat ->
       splitLongBlock fuel text (Z.of_nat maxLength) (Z.of_nat overlap)
       = Some chunks)
  /\ (forall start,
        2 * start + Z.of_nat maxLength
        < 2 * cut text (Z.of_nat maxLength) start
        /\ Z.of_nat maxLength - 2 * Z.of_nat overlap
           < 2 * (cut text (Z.of_nat maxLength) start - Z.of_nat overlap
                  - start)).
Proof.
  intros H. split.
  - apply splitLongBlock_ends; lia.
  - intros start. split.
    + apply cut_beyond_middle. lia.
    + apply start_advances; lia.
Qed.

Lemma splitLongBlock_terminates_witness :
  exists chunks,
    forall fuel, (List.length Sample.pdfText <= fuel)%nat ->
      splitLongBlock fuel Sample.pdfText 1500 200 = Some chunks.
Proof.
  apply (proj1 (splitLongBlock_terminates Sample.pdfText 1500 200
                  ltac:(vm_compute; lia))).
Defined.

(** The call of the chunker, with 1500 and 200, always has its chunks. *)
Lemma splitLongBlock_1500_200 (block : jsstring) :
  exists chunks,
    splitLongBlock (S (List.length block)) block 1500 200 = Some chunks.
Proof.
  destruct (splitLongBlock_ends block 1500 200) as [chunks H]; [lia|lia|].
  exists chunks. apply H. lia.
Qed.

(** The lengths are counts.  On numbers below zero the bound on [overlap]
    is not enough: here every turn leaves [start] at 0. *)
Remark splitLongBlock_negative_lengths (fuel : nat) :
  splitLongBlock fuel [97] (-1) (-1) = None.
Proof.
  unfold splitLongBlock. generalize (@nil jsstring).
  induction fuel as [|fuel IH]; intros chunks; [reflexivity|].
  apply IH.
Qed.

End LongBlocks.

(** ** Numbering, order and sections of the chunks *)

Section ChunkShape.

Import IngestText TextChunks.

Lemma push_Numbered content name code inst section type cs :
  Numbered cs -> Numbered (push content name code inst section type cs).
Proof.
  intros [Hmap Hlen]. unfold Numbered, push. cbn [chunks chunkIndex].
  rewrite List.map_app, Hmap, length_app, Hlen. simpl.
  split; [|lia].
  replace (Z.of_nat (List.length (chunks cs)) + 1)
    with (Z.of_nat (S (List.length (chunks cs)))) by lia.
  by rewrite seqZ_S.
Qed.

Lemma blockStep_Numbered st block :
  Numbered (emitted st) -> Numbered (emitted (blockStep st block)).
Proof.
  intros H. unfold blockStep. cbv zeta.
  destruct (length (trim block) <? 50); [done|].
  destruct (test onlyUnderscores (trim block)); [done|].
  destruct (match_ (trim block) sectionHeader); cbn [emitted].
  - by apply push_Numbered.
  - destruct (truthy_opt _ || truthy_opt _); cbn [emitted]; [|done].
    by apply push_Numbered.
Qed.

Lemma Numbered_none : Numbered {| chunks := []; chunkIndex := 0 |}.
Proof. by split. Qed.

Lemma primarySplit_Numbered (text : jsstring) :
  exists cs, primarySplit text = chunks cs /\ Numbered cs.
Proof.
  unfold primarySplit. eexists. split; [reflexivity|].
  apply (fold_left_invariant (fun st => Numbered (emitted st))).
  - intros st block. apply blockStep_Numbered.
  - cbn [emitted]. destruct (match_ text orgNotesPattern).
    + apply push_Numbered, Numbered_none.
    + apply Numbered_none.
Qed.

Lemma flushBlock_Numbered st : Numbered (out st) -> Numbered (out (flushBlock st)).
Proof.
  intros H. unfold flushBlock. cbv zeta. cbn [out].
  destruct (_ && _ && _); [by apply push_Numbered|done].
Qed.

Lemma collectLine_out line st : out (collectLine line st) = out st.
Proof. reflexivity. Qed.

Lemma startProgram_out name line st :
  out (startProgram name line st) = out (flushBlock st).
Proof. reflexivity. Qed.

(** What a turn of the loop over the lines does to the chunks: nothing, or
    what [flushBlock] does. *)
Lemma lineStep_out st line :
  out (lineStep st line) = out st \/ out (lineStep st line) = out (flushBlock st).
Proof.
  unfold lineStep. cbv zeta.
  destruct (match_ (trim line) sectionLine); [by right|].
  destruct (test separatorLine (trim line)); [by right|].
  destruct (match_ (trim line) programNameLine); [by right|].
  destruct (match_ (trim line) programLine); [|by left].
  destruct (negb _); [by right|by left].
Qed.

Lemma lineStep_Numbered st line :
  Numbered (out st) -> Numbered (out (lineStep st line)).
Proof.
  intros H. destruct (lineStep_out st line) as [-> | ->]; [done|].
  by apply flushBlock_Numbered.
Qed.

Lemma splitByProgramBlocks_Numbered (text : jsstring) :
  exists cs, splitByProgramBlocks text = chunks cs /\ Numbered cs.
Proof.
  unfold splitByProgramBlocks. cbv zeta. eexists. split; [reflexivity|].
  apply flushBlock_Numbered.
  apply (fold_left_invariant (fun st => Numbered (out st))).
  - intros st line. apply lineStep_Numbered.
  - cbn [out]. destruct (_ && _).
    + apply push_Numbered, Numbered_none.
    + apply Numbered_none.
Qed.

(** X1. The chunks of a text are numbered 0, 1, 2, ... in the order in
    which they are returned, whichever splitter made them. *)
Theorem chunk_index_counts_from_zero (text : jsstring) :
  List.map (fun c => chunk_index (metadata c)) (splitIntoChunks text)
  = seqZ 0 (Z.of_nat (List.length (splitIntoChunks text))).
Proof.
  unfold splitIntoChunks, splitIntoChunksLogged.
  destruct (Z.of_nat (List.length (primarySplit text)) <? 10); cbn [value].
  - destruct (splitByProgramBlocks_Numbered text) as (cs & -> & Hmap & Hlen).
    by rewrite Hmap, Hlen.
  - destruct (primarySplit_Numbered text) as (cs & -> & Hmap & Hlen).
    by rewrite Hmap, Hlen.
Qed.

End ChunkShape.

(** ** What [trim] returns *)

Section Trimmed.

Import TextChunks.

(** A string that does not start with white space. *)
Lemma trimStart_fixed (s : jsstring) :
  match s with c :: _ => isSpace c = false | [] => True end ->
  trimStart s = s.
Proof. destruct s as [|c s]; simpl; [done|]. by intros ->. Qed.

Lemma trimStart_edge (s : jsstring) :
  match trimStart s with c :: _ => isSpace c = false | [] => True end.
Proof.
  induction s as [|c s IH]; simpl; [done|].
  destruct (isSpace c) eqn:E; [exact IH|exact E].
Qed.

Lemma trimStart_suffix (s : jsstring) :
  exists spaces, s = spaces ++ trimStart s.
Proof.
  induction s as [|c s [sp IH]]; simpl; [by exists []|].
  destruct (isSpace c); [|by exists []].
  exists (c :: sp). simpl. by rewrite <- IH.
Qed.

Lemma trim_trimmed (s : jsstring) : trimmed (trim s).
Proof.
  unfold trimmed, trim, trimEnd.
  pose proof (trimStart_edge s) as Ht. set (t := trimStart s) in *.
  pose proof (trimStart_edge (rev t)) as Hu.
  destruct (trimStart_suffix (rev t)) as [sp Hsp].
  set (u := trimStart (rev t)) in *.
  assert (Hedge : match rev u with c :: _ => isSpace c = false | [] => True end).
  { assert (Et : t = rev u ++ rev sp).
    { rewrite <- rev_app_distr, <- Hsp. by rewrite rev_involutive. }
    destruct (rev u) as [|c r]; [done|]. rewrite Et in Ht. exact Ht. }
  rewrite (trimStart_fixed (rev u) Hedge), rev_involutive.
  by rewrite (trimStart_fixed u Hu).
Qed.

(** [trim] takes white space away at both ends and nothing else. *)
Lemma trim_inside (s : jsstring) :
  exists before after, s = before ++ trim s ++ after.
Proof.
  unfold trim, trimEnd.
  destruct (trimStart_suffix s) as [sp Hsp].
  destruct (trimStart_suffix (rev (trimStart s))) as [sp' Hsp'].
  exists sp, (rev sp'). rewrite <- rev_app_distr, <- Hsp', rev_involutive.
  exact Hsp.
Qed.

Lemma trim_length (s : jsstring) : length (trim s) <= length s.
Proof.
  destruct (trim_inside s) as (b & a & H). unfold length.
  rewrite H at 2. rewrite !length_app. lia.
Qed.

End Trimmed.

(** ** The chunks a splitter can push *)

Section Pushed.

Import IngestText TextChunks.

Lemma push_Forall (Q : ProgramChunk -> Prop) content name code inst section
  type cs :
  Forall Q (chunks cs) ->
  Q {| content := content;
       metadata := {| program_name := name; program_code := code;
                      institution := inst; section := section;
                      chunk_type := type; chunk_index := chunkIndex cs |} |} ->
  Forall Q (chunks (push content name code inst section type cs)).
Proof.
  intros Hcs Hnew. unfold push. cbn [chunks]. apply Forall_app. split; [done|].
  by constructor.
Qed.

(** Every chunk of the primary split is the notes at the head of the text,
    a block that opens a section, or a block with a name or a code; the
    blocks have 50 code units or more and their fields are those the
    extractors find in the block itself. *)
Lemma primarySplit_Forall (Q : ProgramChunk -> Prop) (text : jsstring) :
  (forall orgNotesMatch i,
     match_ text orgNotesPattern = Some orgNotesMatch ->
     Q {| content := trim (the orgNotesMatch 1);
          metadata := {| program_name := None; program_code := None;
                         institution := None; section := Some notesSection;
                         chunk_type := organizational_notes;
                         chunk_index := i |} |}) ->
  (forall block sectionMatch i,
     50 <= length (trim block) ->
     match_ (trim block) sectionHeader = Some sectionMatch ->
     Q {| content := trim block;
          metadata := {| program_name := None; program_code := None;
                         institution := None;
                         section := Some (trim (the sectionMatch 1));
                         chunk_type := section_header;
                         chunk_index := i |} |}) ->
  (forall block currentSection i,
     50 <= length (trim block) ->
     truthy_opt (extractProgramName (trim block))
     || truthy_opt (extractProgramCode (trim block)) = true ->
     Q {| content := trim block;
          metadata := {| program_name := extractProgramName (trim block);
                         program_code := extractProgramCode (trim block);
                         institution := extractInstitution (trim block);
                         section := Some currentSection;
                         chunk_type := program;
                         chunk_index := i |} |}) ->
  Forall Q (primarySplit text).
Proof.
  intros Hnotes Hheader Hprogram. unfold primarySplit.
  apply (fold_left_invariant (fun st => Forall Q (chunks (emitted st)))).
  - intros st block H. unfold blockStep. cbv zeta.
    destruct (Z.ltb_spec (length (trim block)) 50) as [|Hlen]; [done|].
    destruct (test onlyUnderscores (trim block)); [done|].
    destruct (match_ (trim block) sectionHeader) as [sectionMatch|] eqn:Es;
      cbn [emitted].
    + apply push_Forall; [done|]. by apply Hheader.
    + destruct (truthy_opt _ || truthy_opt _) eqn:E; cbn [emitted]; [|done].
      apply push_Forall; [done|]. by apply Hprogram.
  - cbn [emitted].
    destruct (match_ text orgNotesPattern) as [orgNotesMatch|] eqn:E.
    + apply push_Forall; [constructor|]. by apply Hnotes.
    + constructor.
Qed.

Lemma fold_left_invariant_in {S B : Type} (I : S -> Prop) (f : S -> B -> S)
  (l : list B) :
  (forall s b, b ∈ l -> I s -> I (f s b)) -> forall s, I s -> I (fold_left f l s).
Proof.
  induction l as [|b l IH]; intros Hf s Hs; simpl; [done|].
  apply IH.
  - intros s' b' Hb'. apply Hf. by right.
  - apply Hf; [by left|done].
Qed.

Lemma flushBlock_Collected text F st : Collected text F (flushBlock st).
Proof. split; cbn; [constructor|done..]. Qed.

(** Every chunk of the line-by-line splitter is the text before the first
    section word, or more than 50 code units of lines of the text, trimmed
    and joined, with a name or a code read from a line. *)
Lemma splitByProgramBlocks_Forall (Q : ProgramChunk -> Prop)
  (F : jsstring -> Prop) (text : jsstring) :
  (forall line p mt,
     p ∈ [programNameLine; programLine; codeLine; institutionLine] ->
     match_ (trim line) p = Some mt -> F (trim (the mt 1))) ->
  (forall line mt,
     match_ (trim line) altCodeLine = Some mt -> F (the mt 1)) ->
  (forall i,
     let orgNotes := trim (substring text 0 (indexOf text (lit "قسم"))) in
     0 < indexOf text (lit "قسم") -> 100 < length orgNotes ->
     Q {| content := orgNotes;
          metadata := {| program_name := None; program_code := None;
                         institution := None; section := Some notesSection;
                         chunk_type := organizational_notes;
                         chunk_index := i |} |}) ->
  (forall lines name code inst currentSection i,
     Forall (fun l => exists line, line ∈ splitOn LF text /\ l = trim line)
            lines ->
     (forall v, name = Some v -> F v) ->
     (forall v, code = Some v -> F v) ->
     (forall v, inst = Some v -> F v) ->
     50 < length (trim (join [LF] lines)) ->
     truthy_opt name || truthy_opt code = true ->
     Q {| content := trim (join [LF] lines);
          metadata := {| program_name := name; program_code := code;
                         institution := inst; section := Some currentSection;
                         chunk_type := program; chunk_index := i |} |}) ->
  Forall Q (splitByProgramBlocks text).
Proof.
  intros Hfield Halt Hnotes Hprogram.
  assert (Hflush : forall st,
            Forall Q (chunks (out st)) -> Collected text F st ->
            Forall Q (chunks (out (flushBlock st)))).
  { intros st HQ [Hl Hn Hc Hi]. unfold flushBlock. cbv zeta. cbn [out].
    destruct (0 <? Z.of_nat _); cbn [andb]; [|done].
    destruct (Z.ltb_spec 50 (length (trim (join [LF] (currentBlock st)))));
      cbn [andb]; [|done].
    destruct (truthy_opt _ || truthy_opt _) eqn:E; [|done].
    apply push_Forall; [done|]. by apply Hprogram. }
  assert (Hstart : forall st name line,
            Forall Q (chunks (out st)) -> Collected text F st ->
            F name -> line ∈ splitOn LF text ->
            Forall Q (chunks (out (startProgram name (trim line) st)))
            /\ Collected text F (startProgram name (trim line) st)).
  { intros st name line HQ HC Hname Hline. split; [by apply Hflush|].
    split; cbn.
    - constructor; [by exists line|constructor].
    - by intros v [= <-].
    - done.
    - done. }
  assert (Hcollect : forall st line,
            Forall Q (chunks (out st)) -> Collected text F st ->
            line ∈ splitOn LF text ->
            Forall Q (chunks (out (collectLine (trim line) st)))
            /\ Collected text F (collectLine (trim line) st)).
  { intros st line HQ [Hl Hn Hc Hi] Hline. split; [done|].
    unfold collectLine. cbv zeta.
    split; cbn [currentBlock currentProgramName currentProgramCode
                currentInstitution].
    - destruct (0 <? length (trim line)); [|done].
      apply Forall_app. split; [done|]. constructor; [by exists line|constructor].
    - done.
    - intros v.
      destruct (match_ (trim line) altCodeLine) as [mt2|] eqn:E2.
      { intros [= <-]. by eapply Halt. }
      destruct (match_ (trim line) codeLine) as [mt1|] eqn:E1; [|apply Hc].
      intros [= <-]. eapply Hfield; [|exact E1]. repeat constructor.
    - intros v.
      destruct (match_ (trim line) institutionLine) as [mt|] eqn:E; [|apply Hi].
      intros [= <-]. eapply Hfield; [|exact E]. repeat constructor. }
  unfold splitByProgramBlocks. cbv zeta.
  match goal with
  | |- Forall Q (chunks (out (flushBlock (fold_left _ _ ?init)))) =>
      assert (H : Forall Q (chunks (out init)) /\ Collected text F init)
  end.
  { split; [|split; cbn; [constructor|done..]]. cbn [out].
    destruct (Z.ltb_spec 0 (indexOf text (lit "قسم"))); cbn [andb];
      [|constructor].
    destruct (Z.ltb_spec 100
                (length (trim (substring text 0 (indexOf text (lit "قسم"))))));
      [|constructor].
    apply push_Forall; [constructor|]. by apply Hnotes. }
  revert H.
  match goal with
  | |- _ -> Forall Q (chunks (out (flushBlock (fold_left _ _ ?init)))) =>
      generalize init
  end.
  intros init H.
  apply (fold_left_invariant_in
           (fun st => Forall Q (chunks (out st)) /\ Collected text F st)
           lineStep (splitOn LF text)) in H.
  - destruct H. by apply Hflush.
  - clear init H. intros st line Hline [HQ HC]. unfold lineStep. cbv zeta.
    destruct (match_ (trim line) sectionLine) as [sm|].
    { split; [by apply Hflush|]. split; cbn; [constructor|done..]. }
    destruct (test separatorLine (trim line)).
    { split; [by apply Hflush|apply flushBlock_Collected]. }
    destruct (match_ (trim line) programNameLine) as [pm|] eqn:Ep.
    { apply Hstart; try done. eapply Hfield; [|exact Ep]. repeat constructor. }
    destruct (match_ (trim line) programLine) as [pm|] eqn:Eq;
      [|by apply Hcollect].
    destruct (negb _); [|by apply Hcollect].
    apply Hstart; try done. eapply Hfield; [|exact Eq]. repeat constructor.
Qed.

End Pushed.

(** ** Where the notes and the section headers stand *)

Section ChunkOrder.

Import IngestText TextChunks.

Lemma drop_1_snoc {A : Type} (P : A -> Prop) (l : list A) (x : A) :
  Forall P (drop 1 l) -> P x -> Forall P (drop 1 (l ++ [x])).
Proof.
  destruct l as [|y l]; simpl; [constructor|].
  intros Hl Hx. rewrite drop_0 in *. apply Forall_app. split; [done|].
  by constructor.
Qed.

Lemma primarySplit_notes_first (text : jsstring) :
  Forall (fun c => chunk_type (metadata c) <> organizational_notes)
         (drop 1 (primarySplit text)).
Proof.
  unfold primarySplit.
  apply (fold_left_invariant
           (fun st => Forall (fun c => chunk_type (metadata c)
                                       <> organizational_notes)
                             (drop 1 (chunks (emitted st))))).
  - intros st block H. unfold blockStep. cbv zeta.
    destruct (length (trim block) <? 50); [done|].
    destruct (test onlyUnderscores (trim block)); [done|].
    destruct (match_ (trim block) sectionHeader); cbn [emitted].
    + unfold push. cbn [chunks]. by apply drop_1_snoc.
    + destruct (truthy_opt _ || truthy_opt _); cbn [emitted]; [|done].
      unfold push. cbn [chunks]. by apply drop_1_snoc.
  - cbn [emitted]. destruct (match_ text orgNotesPattern); constructor.
Qed.

Lemma splitByProgramBlocks_notes_first (text : jsstring) :
  Forall (fun c => chunk_type (metadata c) <> organizational_notes)
         (drop 1 (splitByProgramBlocks text)).
Proof.
  assert (Hflush : forall st,
            Forall (fun c => chunk_type (metadata c) <> organizational_notes)
                   (drop 1 (chunks (out st))) ->
            Forall (fun c => chunk_type (metadata c) <> organizational_notes)
                   (drop 1 (chunks (out (flushBlock st))))).
  { intros st H. unfold flushBlock. cbv zeta. cbn [out].
    destruct (_ && _ && _); [|done].
    unfold push. cbn [chunks]. by apply drop_1_snoc. }
  unfold splitByProgramBlocks. cbv zeta. apply Hflush.
  apply (fold_left_invariant
           (fun st => Forall (fun c => chunk_type (metadata c)
                                       <> organizational_notes)
                             (drop 1 (chunks (out st))))).
  - intros st line H. destruct (lineStep_out st line) as [-> | ->]; [done|].
    by apply Hflush.
  - cbn [out]. destruct (_ && _); constructor.
Qed.

Lemma splitByProgramBlocks_no_header (text : jsstring) :
  Forall (fun c => chunk_type (metadata c) <> section_header)
         (splitByProgramBlocks text).
Proof.
  by apply (splitByProgramBlocks_Forall _ (fun _ => True)).
Qed.

(** X2. Of the chunks of a text only the first can be the organizational
    notes, so there is at most one such chunk; and the line-by-line splitter
    returns no section header: its chunks are notes and programs. *)
Theorem organizational_notes_only_first (text : jsstring) :
  Forall (fun c => chunk_type (metadata c) <> organizational_notes)
         (drop 1 (splitIntoChunks text))
  /\ Forall (fun c => chunk_type (metadata c) <> section_header)
            (splitByProgramBlocks text).
Proof.
  split; [|apply splitByProgramBlocks_no_header].
  unfold splitIntoChunks, splitIntoChunksLogged.
  destruct (Z.of_nat (List.length (primarySplit text)) <? 10); cbn [value].
  - apply splitByProgramBlocks_notes_first.
  - apply primarySplit_notes_first.
Qed.

(** The chunks of the primary split are trimmed. *)
Lemma primarySplit_trimmed (text : jsstring) :
  Forall (fun c => trimmed (content c)
                   /\ (chunk_type (metadata c) <> organizational_notes ->
                       50 <= length (content c)))
         (primarySplit text).
Proof.
  apply primarySplit_Forall; cbn [content metadata chunk_type].
  - intros. split; [apply trim_trimmed|done].
  - intros. split; [apply trim_trimmed|done].
  - intros. split; [apply trim_trimmed|done].
Qed.

Lemma splitByProgramBlocks_trimmed (text : jsstring) :
  Forall (fun c => trimmed (content c)
                   /\ (chunk_type (metadata c) <> organizational_notes ->
                       50 < length (content c)))
         (splitByProgramBlocks text).
Proof.
  apply (splitByProgramBlocks_Forall _ (fun _ => True));
    cbn [content metadata chunk_type]; try done.
  - intros. split; [apply trim_trimmed|done].
  - intros. split; [apply trim_trimmed|done].
Qed.

(** X3. The content of every chunk is trimmed, so that trimming it again
    changes nothing; and every chunk but the organizational notes has 50
    code units or more. *)
Theorem chunk_content_trimmed_and_not_short (text : jsstring) :
  Forall (fun c => trim (content c) = content c
                   /\ (chunk_type (metadata c) <> organizational_notes ->
                       50 <= length (content c)))
         (splitIntoChunks text).
Proof.
  unfold splitIntoChunks, splitIntoChunksLogged.
  destruct (Z.of_nat (List.length (primarySplit text)) <? 10); cbn [value].
  - eapply Forall_impl; [apply splitByProgramBlocks_trimmed|].
    intros c [Ht Hl]. split; [exact Ht|]. intros H. specialize (Hl H). lia.
  - apply primarySplit_trimmed.
Qed.

Lemma sectionAfter_app current l1 l2 :
  sectionAfter current (l1 ++ l2) = sectionAfter (sectionAfter current l1) l2.
Proof. revert current. induction l1 as [|c l1 IH]; intros; simpl; [done|apply IH]. Qed.

Lemma Sectioned_app current l1 l2 :
  Sectioned current (l1 ++ l2)
  <-> Sectioned current l1 /\ Sectioned (sectionAfter current l1) l2.
Proof.
  revert current. induction l1 as [|c l1 IH]; intros current; simpl.
  - tauto.
  - rewrite IH. tauto.
Qed.

Lemma sectionAfter_no_header current l :
  Forall (fun b => chunk_type (metadata b) <> section_header) l ->
  sectionAfter current l = current.
Proof.
  intros H. revert current. induction H as [|c l Hc _ IH]; intros current;
    simpl; [done|].
  rewrite IH. by destruct (chunk_type (metadata c)).
Qed.

Lemma primarySplit_Sectioned (text : jsstring) :
  Sectioned [] (primarySplit text)
  /\ Forall (fun c => section (metadata c) <> None) (primarySplit text).
Proof.
  unfold primarySplit.
  set (init := {| emitted := _; currentSection := [] |}).
  assert (H : (Sectioned [] (chunks (emitted init))
               /\ currentSection init = sectionAfter [] (chunks (emitted init)))
              /\ Forall (fun c => section (metadata c) <> None)
                        (chunks (emitted init))).
  { subst init. cbn [emitted currentSection].
    destruct (match_ text orgNotesPattern); unfold push;
      cbn [chunks app Sectioned sectionAfter metadata chunk_type section].
    - repeat split; [discriminate|]. by repeat constructor.
    - repeat split. constructor. }
  clearbody init.
  apply (fold_left_invariant
           (fun st => (Sectioned [] (chunks (emitted st))
                       /\ currentSection st
                          = sectionAfter [] (chunks (emitted st)))
                      /\ Forall (fun c => section (metadata c) <> None)
                                (chunks (emitted st)))
           blockStep (split programSeparators text)) in H.
  - by destruct H as [[H _] H'].
  - clear init H. intros st block [[HS Hcur] Hsec]. unfold blockStep. cbv zeta.
    destruct (length (trim block) <? 50); [done|].
    destruct (test onlyUnderscores (trim block)); [done|].
    destruct (match_ (trim block) sectionHeader);
      cbn [emitted currentSection].
    + unfold push. cbn [chunks]. split; [split|].
      * apply Sectioned_app. split; [done|]. simpl. split; [discriminate|done].
      * by rewrite sectionAfter_app.
      * apply Forall_app. split; [done|]. by repeat constructor.
    + destruct (truthy_opt _ || truthy_opt _);
        cbn [emitted currentSection]; [|done].
      unfold push. cbn [chunks]. split; [split|].
      * apply Sectioned_app. split; [done|]. simpl. split; [|done].
        intros _. by rewrite Hcur.
      * by rewrite sectionAfter_app.
      * apply Forall_app. split; [done|]. by repeat constructor.
Qed.

(** X4. In the primary split a program chunk carries the section in force
    where it stands: the name in the last section header returned before
    it, the empty string when there is none.  So in what the chunker
    returns, a program chunk that follows a section header with no other
    header in between has the section of that header. *)
Theorem program_chunk_carries_section_in_force (text : jsstring) :
  (forall before c after,
     primarySplit text = before ++ c :: after ->
     chunk_type (metadata c) = program ->
     section (metadata c) = Some (sectionAfter [] before))
  /\ (forall before header between c after,
        splitIntoChunks text = before ++ header :: between ++ c :: after ->
        chunk_type (metadata header) = section_header ->
        Forall (fun b => chunk_type (metadata b) <> section_header) between ->
        chunk_type (metadata c) = program ->
        section (metadata c) = section (metadata header)).
Proof.
  destruct (primarySplit_Sectioned text) as [HS Hsec].
  assert (Hfirst : forall before c after,
            primarySplit text = before ++ c :: after ->
            chunk_type (metadata c) = program ->
            section (metadata c) = Some (sectionAfter [] before)).
  { intros before c after E Hc. rewrite E in HS.
    apply Sectioned_app in HS as [_ HS]. simpl in HS. by apply HS. }
  split; [exact Hfirst|].
  intros before header between c after E Hh Hb Hc. revert E.
  unfold splitIntoChunks, splitIntoChunksLogged.
  destruct (Z.of_nat (List.length (primarySplit text)) <? 10); cbn [value];
    intros E.
  - pose proof (splitByProgramBlocks_no_header text) as Hno.
    rewrite E in Hno. apply Forall_app in Hno as [_ Hno].
    by inversion Hno.
  - rewrite (Hfirst (before ++ header :: between) c after);
      [|by rewrite E, <- app_assoc|done].
    rewrite E in Hsec. apply Forall_app in Hsec as [_ Hsec].
    inversion Hsec as [|? ? Hheader _]; subst.
    rewrite sectionAfter_app. simpl. rewrite Hh.
    destruct (section (metadata header)) as [s|]; [|done].
    by rewrite sectionAfter_no_header.
Qed.

End ChunkOrder.

(** ** The fields of a chunk *)

Section Fields.

Import Captures IngestText TextChunks.

Lemma captures1_spec (f : Z) (p : pattern) (text : jsstring)
  (mt : list (option jsstring)) :
  captures1 f p = true -> match_ text p = Some mt ->
  at_ mt 1 = Some (the mt 1) /\ occursIn (the mt 1) text
  /\ (f ∉ the mt 1) /\ the mt 1 <> [].
Proof.
  unfold captures1. intros H Hm.
  apply andb_prop in H as [H Hv]. apply andb_prop in H as [Hg Hn].
  destruct (lastGroup 1 (re p)) as [v|] eqn:Hlast; [|done].
  apply andb_prop in Hv as [Ha Hs]. apply Nat.leb_le in Hn.
  destruct (global p) eqn:Eg; [done|].
  destruct (match_last_group f p v text 1 mt Eg Hlast ltac:(lia) Hm)
    as (H1 & H2 & H3 & H4).
  auto.
Qed.

Lemma trim_subseteq (s : jsstring) : trim s ⊆ s.
Proof.
  destruct (trim_inside s) as (b & a & H). intros x Hx. rewrite H.
  rewrite !elem_of_app. auto.
Qed.

(** Replacing a match by nothing leaves code units of the string. *)
Lemma replace_empty_subseteq (r : regex) (s : jsstring) : replace r s [] ⊆ s.
Proof.
  unfold replace. destruct (exec r s) as [res|]; [|done].
  cbn [replaceAt app]. intros x Hx. apply elem_of_app in Hx as [Hx|Hx].
  - apply subseteq_take in Hx. by apply subseteq_drop in Hx.
  - by apply subseteq_drop in Hx.
Qed.

Lemma extractProgramNameFrom_avoids (f : Z) (text : jsstring) :
  forall patterns name,
    forallb (captures1 f) patterns = true ->
    extractProgramNameFrom patterns text = Some name -> f ∉ name.
Proof.
  induction patterns as [|p ps IH]; intros name Hps H; [done|].
  cbn [forallb] in Hps. apply andb_prop in Hps as [Hp Hps].
  cbn [extractProgramNameFrom] in H. unfold nameCandidate in H.
  destruct (match_ text p) as [mt|] eqn:Em; [|by apply IH].
  destruct (nameRejected _); [by apply IH|]. injection H as <-.
  destruct (captures1_spec f p text mt Hp Em) as (_ & _ & Hf & _).
  intros Hin. apply Hf.
  by apply replace_empty_subseteq, replace_empty_subseteq, trim_subseteq in Hin.
Qed.

Lemma extractInstitutionFrom_avoids (f : Z) (text : jsstring) :
  forall patterns inst,
    forallb (captures1 f) patterns = true ->
    extractInstitutionFrom patterns text = Some inst -> f ∉ inst.
Proof.
  induction patterns as [|p ps IH]; intros name Hps H; [done|].
  cbn [forallb] in Hps. apply andb_prop in Hps as [Hp Hps].
  cbn [extractInstitutionFrom] in H. unfold institutionCandidate in H.
  destruct (match_ text p) as [mt|] eqn:Em; [|by apply IH].
  destruct (institutionRejected _); [by apply IH|]. injection H as <-.
  destruct (captures1_spec f p text mt Hp Em) as (_ & _ & Hf & _).
  intros Hin. apply Hf. by apply trim_subseteq in Hin.
Qed.

Lemma scan_Forall (P : result -> Prop) (r : regex) (s : jsstring) :
  (forall q res, execAt r s q = Some res -> P res) ->
  forall fuel q, Forall P (scan fuel r s q).
Proof.
  intros HP. induction fuel as [|fuel IH]; intros q; simpl; [constructor|].
  destruct (execFrom r s q) as [res|] eqn:E; [|constructor].
  constructor; [|apply IH]. by eapply execFrom_inv.
Qed.

(** The texts of the matches of a pattern with the global flag. *)
Lemma matchGlobal_avoids (f : Z) (r : regex) (s : jsstring)
  (texts : list jsstring) :
  avoids f r = true -> matchGlobal r s = Some texts ->
  Forall (fun t => f ∉ t) texts.
Proof.
  intros Ha. unfold matchGlobal.
  pose proof (scan_Forall
                (fun res => f ∉ take (endIndex res - index res)
                                     (drop (index res) s))
                r s) as H.
  specialize (H (fun q res Hres =>
                   proj2 (proj2 (execAt_text f r s q res Hres)) Ha)).
  specialize (H (S (S (List.length s))) 0%nat). fold (matches r s) in H.
  assert (Hmap : Forall (fun t => f ∉ t)
                   (List.map (fun res => take (endIndex res - index res)
                                              (drop (index res) s))
                             (matches r s)))
    by (induction H; simpl; by constructor).
  destruct (matches r s) as [|res ms]; [done|]. by intros [= <-].
Qed.

Lemma at_Some (texts : list jsstring) (i : nat) :
  at_ (List.map Some texts) i = texts !! i.
Proof.
  unfold at_. change (List.map Some texts) with (Some <$> texts).
  rewrite list_lookup_fmap. by destruct (texts !! i).
Qed.

(** The code a pattern proposes: what group 1 took, or, under the global
    flag, the text of one of the matches, trimmed. *)
Lemma codeCandidate_avoids (f : Z) (text : jsstring) (p : pattern)
  (code : jsstring) :
  (if global p then avoids f (re p) else captures1 f p) = true ->
  codeCandidate text p = Some code -> f ∉ code.
Proof.
  intros Hp. unfold codeCandidate.
  destruct (match_ text p) as [mt|] eqn:Em; [|done]. intros [= <-].
  intros Hin. apply replace_empty_subseteq, trim_subseteq in Hin.
  revert Hin. destruct (global p) eqn:Eg.
  - unfold match_ in Em. rewrite Eg in Em.
    destruct (matchGlobal (re p) text) as [texts|] eqn:Et; [|done].
    injection Em as <-. pose proof (matchGlobal_avoids f _ _ _ Hp Et) as Hall.
    rewrite Forall_forall in Hall. unfold orElse. rewrite !at_Some.
    destruct (truthy_opt (texts !! 1%nat)).
    + destruct (texts !! 1%nat) as [t|] eqn:E1; [|apply not_elem_of_nil].
      apply Hall. by eapply list_elem_of_lookup_2.
    + destruct (texts !! 0%nat) as [t|] eqn:E0; [|apply not_elem_of_nil].
      apply Hall. by eapply list_elem_of_lookup_2.
  - destruct (captures1_spec f p text mt Hp Em) as (H1 & _ & Hf & Hn).
    unfold orElse. rewrite H1. cbn [truthy_opt].
    by destruct (the mt 1).
Qed.

Lemma extractProgramCodeFrom_avoids (f : Z) (text : jsstring) :
  forall patterns code,
    forallb (fun p => if global p then avoids f (re p) else captures1 f p)
            patterns = true ->
    extractProgramCodeFrom patterns text = Some code -> f ∉ code.
Proof.
  induction patterns as [|p ps IH]; intros code Hps H; [done|].
  cbn [forallb] in Hps. apply andb_prop in Hps as [Hp Hps].
  cbn [extractProgramCodeFrom] in H.
  destruct (codeCandidate text p) as [c|] eqn:Ec; [|by apply IH].
  destruct (codeRejected c); [by apply IH|]. injection H as <-.
  by eapply codeCandidate_avoids.
Qed.

(** The patterns of the script, checked one by one. *)
Lemma patterns_avoid_line_feed :
  forallb (captures1 LF) namePatterns = true
  /\ forallb (fun p => if global p then avoids LF (re p) else captures1 LF p)
             codePatterns = true
  /\ forallb (captures1 LF) institutionPatterns = true
  /\ forallb (captures1 LF)
       [programNameLine; programLine; codeLine; altCodeLine; institutionLine]
     = true.
Proof. vm_compute. repeat split. Qed.

Lemma patterns_avoid_bullet :
  forallb (captures1 8226) namePatterns = true
  /\ forallb (captures1 42) namePatterns = true
  /\ forallb (fun p => if global p then avoids 8226 (re p)
                       else captures1 8226 p) codePatterns = true
  /\ forallb (captures1 8226) institutionPatterns = true.
Proof. vm_compute. repeat split. Qed.

Lemma extractors_avoid_line_feed (block v : jsstring) :
  extractProgramName block = Some v \/ extractProgramCode block = Some v
  \/ extractInstitution block = Some v ->
  LF ∉ v.
Proof.
  destruct patterns_avoid_line_feed as (Hn & Hc & Hi & _).
  intros [H|[H|H]].
  - exact (extractProgramNameFrom_avoids LF block namePatterns v Hn H).
  - exact (extractProgramCodeFrom_avoids LF block codePatterns v Hc H).
  - exact (extractInstitutionFrom_avoids LF block institutionPatterns v Hi H).
Qed.

Lemma line_patterns_avoid_line_feed (p : pattern) (line : jsstring)
  (mt : list (option jsstring)) :
  p ∈ [programNameLine; programLine; codeLine; altCodeLine; institutionLine] ->
  match_ line p = Some mt -> LF ∉ the mt 1.
Proof.
  destruct patterns_avoid_line_feed as (_ & _ & _ & H).
  rewrite forallb_forall in H. intros Hp Hm.
  apply list_elem_of_In, H in Hp.
  by destruct (captures1_spec LF p line mt Hp Hm) as (_ & _ & Hf & _).
Qed.

(** X5. No program name, program code or institution of a chunk holds a
    line feed, whichever splitter made the chunk.  What the extractors of
    the primary split return holds no bullet either, and a name no
    asterisk. *)
Theorem fields_hold_no_line_feed (text : jsstring) :
  Forall (fun c => forall v,
            program_name (metadata c) = Some v
            \/ program_code (metadata c) = Some v
            \/ institution (metadata c) = Some v ->
            LF ∉ v)
         (splitIntoChunks text)
  /\ (forall block v,
        extractProgramName block = Some v -> (42 ∉ v) /\ (8226 ∉ v))
  /\ (forall block v,
        extractProgramCode block = Some v \/ extractInstitution block = Some v ->
        8226 ∉ v).
Proof.
  split; [|split].
  - unfold splitIntoChunks, splitIntoChunksLogged.
    destruct (Z.of_nat (List.length (primarySplit text)) <? 10); cbn [value].
    + apply (splitByProgramBlocks_Forall _ (fun v => LF ∉ v));
        cbn [metadata program_name program_code institution].
      * intros line p mt Hp Hm Hin. apply trim_subseteq in Hin. revert Hin.
        eapply line_patterns_avoid_line_feed; [|exact Hm].
        repeat (apply elem_of_cons in Hp as [->|Hp]; [repeat constructor|]).
        by apply elem_of_nil in Hp.
      * intros line mt Hm. eapply line_patterns_avoid_line_feed; [|exact Hm].
        repeat constructor.
      * intros i _ _ v [H|[H|H]]; discriminate H.
      * intros lines name code inst sec i _ Hn Hc Hi _ _ v [H|[H|H]]; auto.
    + apply primarySplit_Forall;
        cbn [metadata program_name program_code institution].
      * intros mt i _ v [H|[H|H]]; discriminate H.
      * intros block mt i _ _ v [H|[H|H]]; discriminate H.
      * intros block sec i _ _ v. apply extractors_avoid_line_feed.
  - destruct patterns_avoid_bullet as (Hb & Hs & _).
    intros block v H. split.
    + exact (extractProgramNameFrom_avoids 42 block namePatterns v Hs H).
    + exact (extractProgramNameFrom_avoids 8226 block namePatterns v Hb H).
  - destruct patterns_avoid_bullet as (_ & _ & Hc & Hi).
    intros block v [H|H].
    + exact (extractProgramCodeFrom_avoids 8226 block codePatterns v Hc H).
    + exact (extractInstitutionFrom_avoids 8226 block institutionPatterns v
               Hi H).
Qed.

End Fields.

(** ** The chunks of the PDF script *)

Section PdfShape.

Import IngestPdf PdfChunks.

Lemma pdf_push_NumberedFrom first content name code inst section cs :
  NumberedFrom first cs ->
  NumberedFrom first (push content name code inst section cs).
Proof.
  intros [Hmap Hlen]. unfold NumberedFrom, push. cbn [chunks chunkIndex].
  rewrite List.map_app, Hmap, length_app, Hlen. simpl.
  split; [|lia].
  replace (List.length (chunks cs) + 1)%nat with (S (List.length (chunks cs)))
    by lia.
  by rewrite seqZ_S.
Qed.

Lemma pdf_blockStep_NumberedFrom first sectionName cs block :
  NumberedFrom first cs -> NumberedFrom first (blockStep sectionName cs block).
Proof.
  intros H. unfold blockStep. cbv zeta.
  destruct (length (trim block) <? 100); [done|].
  destruct (2000 <? length block); [|by apply pdf_push_NumberedFrom].
  apply (fold_left_invariant (NumberedFrom first)); [|done].
  intros cs' subChunk. apply pdf_push_NumberedFrom.
Qed.

Lemma pdf_sectionStep_NumberedFrom first cs section :
  NumberedFrom first cs -> NumberedFrom first (sectionStep cs section).
Proof.
  intros H. unfold sectionStep. cbv zeta.
  destruct (length (trim section) <? 50); [done|].
  apply (fold_left_invariant (NumberedFrom first)); [|done].
  intros cs' block. apply pdf_blockStep_NumberedFrom.
Qed.

(** X6. The chunks the PDF script makes of a text are numbered one by one
    in the order in which they are returned: from 0 when the text has the
    organizational notes, which are then the first chunk, and from 1 when it
    has not, so that no chunk has number 0 then. *)
Theorem pdf_chunk_index_counts_one_by_one (text : jsstring) :
  List.map (fun c => chunk_index (metadata c)) (splitIntoChunks text)
  = seqZ (match match_ text orgNotesPattern with Some _ => 0 | None => 1 end)
         (Z.of_nat (List.length (splitIntoChunks text))).
Proof.
  unfold splitIntoChunks.
  set (first := match match_ text orgNotesPattern with
                | Some _ => 0 | None => 1 end).
  set (init := {| chunks := _; chunkIndex := 1 |}).
  assert (H : NumberedFrom first init).
  { subst init first. unfold NumberedFrom. cbn [chunks chunkIndex].
    by destruct (match_ text orgNotesPattern). }
  clearbody init.
  apply (fold_left_invariant (NumberedFrom first) sectionStep
           (split sectionBoundary text)) in H.
  - by destruct H as [-> _].
  - clear. intros cs section. apply pdf_sectionStep_NumberedFrom.
Qed.

End PdfShape.

(** ** The cuts of the PDF script *)

Section PdfCuts.

Import IngestPdf PdfChunks.

Lemma zeroWidth_matcher (r : regex) : zeroWidth r = true ->
  forall spare k x z,
    matcher spare r k x = Some z ->
    exists y, k y = Some z /\ pos y = pos x /\ rest y = rest x.
Proof.
  induction r as [s|neg items|r1 IH1 r2 IH2|r1 IH1 r2 IH2
                  |min max greedy r' IH|i r' IH|r' IH| |];
    intros Hz spare k x z H; try discriminate Hz.
  - cbn [zeroWidth] in Hz. apply andb_prop in Hz as [Hz1 Hz2].
    cbn [matcher] in H.
    apply (IH1 Hz1) in H as (y1 & H & Hp1 & Hr1).
    apply (IH2 Hz2) in H as (y2 & H & Hp2 & Hr2).
    exists y2. repeat split; congruence.
  - cbn [zeroWidth] in Hz. apply andb_prop in Hz as [Hz1 Hz2].
    cbn [matcher] in H. destruct (matcher spare r1 k x) as [z1|] eqn:E1.
    + injection H as <-. by apply (IH1 Hz1) in E1.
    + by apply (IH2 Hz2) in H.
  - cbn [matcher] in H. destruct (matcher spare r' Some x) as [y|]; [|done].
    by eexists.
  - cbn [matcher] in H. destruct (pos x =? 0)%nat; [|done]. exists x. by repeat split.
  - cbn [matcher] in H. destruct (rest x) eqn:E; [|done]. exists x. by repeat split.
Qed.

Lemma zeroWidth_execAt (r : regex) (s : jsstring) (q : nat) (res : result) :
  zeroWidth r = true -> execAt r s q = Some res -> endIndex res = q.
Proof.
  intros Hz. unfold execAt. destruct (m r Some _) as [y|] eqn:E; [|done].
  intros [= <-]. cbn [endIndex].
  by apply (zeroWidth_matcher r Hz) in E as (y' & [= ->] & Hp & _).
Qed.

(** A pattern that consumes nothing cuts a string in consecutive pieces. *)
Lemma zeroWidth_splitLoop (r : regex) (s : jsstring) :
  zeroWidth r = true ->
  forall fuel p q, (p <= q)%nat ->
    List.concat (splitLoop fuel r s p q) = drop p s.
Proof.
  intros Hz. induction fuel as [|fuel IH]; intros p q Hpq; simpl.
  - apply app_nil_r.
  - destruct (Nat.ltb_spec q (List.length s)) as [Hq|Hq]; [|apply app_nil_r].
    destruct (execAt r s q) as [res|] eqn:E; [|apply IH; lia].
    rewrite (zeroWidth_execAt r s q res Hz E), Nat.min_l by lia.
    destruct (Nat.eqb_spec q p) as [->|Hne]; [apply IH; lia|].
    change (List.concat (?b :: ?bs)) with (b ++ List.concat bs).
    rewrite IH by lia.
    replace q with (p + (q - p))%nat at 2 by lia.
    rewrite <- drop_drop. apply take_drop.
Qed.

Lemma zeroWidth_split (r : regex) (s : jsstring) :
  zeroWidth r = true -> List.concat (split r s) = s.
Proof.
  intros Hz. unfold split. destruct s as [|c s].
  - by destruct (execAt r [] 0).
  - by rewrite (zeroWidth_splitLoop r _ Hz).
Qed.

Lemma occursIn_trans (a b c : jsstring) :
  occursIn a b -> occursIn b c -> occursIn a c.
Proof.
  intros (b1 & a1 & ->) (b2 & a2 & ->).
  exists (b2 ++ b1), (a1 ++ a2). by rewrite <- !app_assoc.
Qed.

Lemma occursIn_concat (piece : jsstring) (pieces : list jsstring) :
  piece ∈ pieces -> occursIn piece (List.concat pieces).
Proof.
  intros H. apply list_elem_of_split in H as (l1 & l2 & ->).
  exists (List.concat l1), (List.concat l2).
  by rewrite concat_app.
Qed.

Lemma occursIn_trim (s : jsstring) : occursIn (trim s) s.
Proof. apply trim_inside. Qed.

Lemma occursIn_slice (s : jsstring) (from to : Z) : occursIn (slice s from to) s.
Proof.
  unfold slice. cbv zeta.
  set (n := Z.to_nat _). set (a := Z.to_nat _).
  exists (take a s), (drop n (drop a s)).
  transitivity (take a s ++ drop a s); [symmetry; apply take_drop|].
  f_equal. symmetry. apply take_drop.
Qed.

(** The chunks of a long block are slices of it, trimmed. *)
Lemma splitLongBlockLoop_Forall (P : jsstring -> Prop) (text : jsstring)
  (maxLength overlap : Z) :
  (forall start end_, P (trim (slice text start end_))) ->
  forall fuel start chunks result,
    Forall P chunks ->
    splitLongBlockLoop fuel text maxLength overlap start chunks = Some result ->
    Forall P result.
Proof.
  intros HP. induction fuel as [|fuel IH]; intros start chunks result Hc H;
    simpl in H.
  - destruct (start <? length text); [done|]. by injection H as <-.
  - destruct (start <? length text); [|by injection H as <-].
    eapply IH; [|exact H]. apply Forall_app. split; [done|].
    constructor; [apply HP|constructor].
Qed.

(** Every chunk of the PDF script is the organizational notes, or a block
    of a section, or a slice of a block of more than 2000 code units; the
    fields are read from the block and the section name from the section. *)
Lemma pdf_splitIntoChunks_Forall (Q : ProgramChunk -> Prop) (text : jsstring) :
  (forall orgNotesMatch,
     match_ text orgNotesPattern = Some orgNotesMatch ->
     Q {| content := trim (the orgNotesMatch 0);
          metadata := {| program_name := None; program_code := None;
                         institution := None;
                         section := Some (lit "ملاحظات تنظيمية");
                         chunk_index := 0 |} |}) ->
  (forall section block content i,
     section ∈ split sectionBoundary text ->
     block ∈ split programBoundary section ->
     50 <= length (trim section) -> 100 <= length (trim block) ->
     (length block <= 2000 /\ content = trim block)
     \/ (2000 < length block
         /\ exists start end_, content = trim (slice block start end_)) ->
     Q {| content := content;
          metadata := {| program_name := field block programNamePattern;
                         program_code := field block programCodePattern;
                         institution := field block institutionPattern;
                         section := field section sectionHeader;
                         chunk_index := i |} |}) ->
  Forall Q (splitIntoChunks text).
Proof.
  intros Hnotes Hblock. unfold splitIntoChunks.
  set (init := {| chunks := _; chunkIndex := 1 |}).
  assert (H : Forall Q (chunks init)).
  { subst init. cbn [chunks].
    destruct (match_ text orgNotesPattern) as [mt|] eqn:E; [|constructor].
    constructor; [by apply Hnotes|constructor]. }
  clearbody init.
  apply (fold_left_invariant_in (fun cs => Forall Q (chunks cs)) sectionStep
           (split sectionBoundary text)); [|done].
  clear init H. intros cs section Hsection H. unfold sectionStep. cbv zeta.
  destruct (Z.ltb_spec (length (trim section)) 50) as [|Hs]; [done|].
  apply (fold_left_invariant_in (fun cs => Forall Q (chunks cs))
           (blockStep (field section sectionHeader))
           (split programBoundary section)); [|done].
  clear cs H. intros cs block Hb H. unfold blockStep. cbv zeta.
  destruct (Z.ltb_spec (length (trim block)) 100) as [|Hlen]; [done|].
  destruct (Z.ltb_spec 2000 (length block)) as [Hlong|Hshort].
  - destruct (splitLongBlock _ block 1500 200) as [subChunks|] eqn:E;
      [|done].
    assert (Hsub : Forall (fun sub => exists start end_,
                             sub = trim (slice block start end_)) subChunks).
    { eapply (splitLongBlockLoop_Forall _ block 1500 200); [|constructor|exact E].
      intros start end_. by exists start, end_. }
    clear E. revert cs H.
    induction Hsub as [|sub subs Hsub _ IH]; intros cs H; [done|].
    cbn [fold_left]. apply IH. unfold push. cbn [chunks].
    apply Forall_app. split; [done|]. constructor; [|constructor].
    apply (Hblock section block); auto.
  - unfold push. cbn [chunks].
    apply Forall_app. split; [done|]. constructor; [|constructor].
    apply (Hblock section block); auto.
Qed.

(** X7. The cuts of the PDF script lose no text: the sections cut from a
    text, put end to end, are the text, and so are the blocks cut from a
    section.  Every chunk that is returned is an excerpt of the text. *)
Theorem pdf_cuts_lose_no_text (text : jsstring) :
  List.concat (split sectionBoundary text) = text
  /\ (forall section, List.concat (split programBoundary section) = section)
  /\ Forall (fun c => occursIn (content c) text) (splitIntoChunks text).
Proof.
  split; [by apply zeroWidth_split|]. split; [intros; by apply zeroWidth_split|].
  apply pdf_splitIntoChunks_Forall; cbn [content].
  - intros mt Hm. eapply occursIn_trans; [apply occursIn_trim|].
    by apply (match_text 0 orgNotesPattern text mt).
  - intros section block content i Hs Hb _ _ Hc.
    assert (Hblock : occursIn block text).
    { pose proof (occursIn_concat _ _ Hb) as H1.
      pose proof (occursIn_concat _ _ Hs) as H2.
      rewrite zeroWidth_split in H1, H2 by done.
      by apply occursIn_trans with section. }
    destruct Hc as [[_ ->]|[_ (start & end_ & ->)]].
    + eapply occursIn_trans; [apply occursIn_trim|done].
    + eapply occursIn_trans; [apply occursIn_trim|].
      eapply occursIn_trans; [apply occursIn_slice|done].
Qed.

End PdfCuts.

(** ** The windows of a long block *)

Section Windows.

Import IngestPdf PdfChunks.

(** [lastIndexOf] returns an index at which the string is found, not beyond
    the given position, and the last such index. *)
Lemma lastIndexUpTo_found (n : nat) (s p : jsstring) :
  lastIndexUpTo n s p = -1
  \/ (0 <= lastIndexUpTo n s p <= Z.of_nat n
      /\ startsWith (drop (Z.to_nat (lastIndexUpTo n s p)) s) p = true).
Proof.
  induction n as [|n IH]; cbn [lastIndexUpTo].
  - destruct (startsWith (drop 0 s) p) eqn:E; [|by left].
    right. split; [lia|]. exact E.
  - destruct (startsWith (drop (S n) s) p) eqn:E.
    + right. split; [lia|]. by rewrite Nat2Z.id.
    + destruct IH as [IH|[IH1 IH2]]; [by left|]. right. split; [lia|done].
Qed.

Lemma lastIndexUpTo_last (n : nat) (s p : jsstring) (i : nat) :
  (i <= n)%nat -> startsWith (drop i s) p = true ->
  Z.of_nat i <= lastIndexUpTo n s p.
Proof.
  induction n as [|n IH]; intros Hi H; cbn [lastIndexUpTo].
  - assert (i = 0%nat) as -> by lia. by rewrite H.
  - destruct (startsWith (drop (S n) s) p) eqn:E; [lia|].
    apply IH; [|done]. destruct (decide (i = S n)) as [->|]; [congruence|lia].
Qed.

Lemma lastIndexOf_found (s p : jsstring) (pos : Z) :
  0 <= pos ->
  lastIndexOf s p pos = -1
  \/ (lastIndexOf s p pos <= pos /\ occursAt (lastIndexOf s p pos) p s).
Proof.
  intros Hpos. unfold lastIndexOf.
  destruct (lastIndexUpTo_found
              (Z.to_nat (Z.min (Z.max pos 0) (length s))) s p)
    as [H|[H1 H2]]; [by left|].
  right. split; [lia|]. split; [unfold length in *; lia|].
  by apply startsWith_spec.
Qed.

Lemma lastIndexOf_last (s p : jsstring) (pos i : Z) :
  i <= pos -> occursAt i p s -> i <= lastIndexOf s p pos.
Proof.
  intros Hi [H0 [after H]]. unfold lastIndexOf.
  rewrite <- (Z2Nat.id i) at 1 by lia.
  apply lastIndexUpTo_last; [unfold length in *; lia|]. apply startsWith_spec. by exists after.
Qed.

Lemma breakPoints_short : Forall (fun bp => 1 <= length bp <= 2) breakPoints.
Proof. repeat constructor; vm_compute; discriminate. Qed.

Lemma findBreak_le (bps : list jsstring) (text : jsstring)
  (start maxLength end_ : Z) :
  Forall (fun bp => 1 <= length bp <= 2) bps -> 0 <= end_ ->
  findBreak bps text start maxLength end_ <= end_ + 2.
Proof.
  intros Hbps Hend. induction Hbps as [|bp bps Hbp _ IH]; simpl; [lia|].
  destruct (Z.ltb_spec (2 * start + maxLength) (2 * lastIndexOf text bp end_));
    [|exact IH].
  destruct (lastIndexOf_found text bp end_ Hend) as [H1|[H1 _]]; lia.
Qed.

(** Where the loop over the break points stops. *)
Lemma findBreak_spec (bps : list jsstring) (text : jsstring)
  (start maxLength end_ : Z) :
  0 <= 2 * start + maxLength -> 0 <= end_ ->
  (findBreak bps text start maxLength end_ = end_
   /\ Forall (fun bp => forall i, 2 * start + maxLength < 2 * i -> i <= end_ ->
                         ~ occursAt i bp text) bps)
  \/ exists before bp after i,
       bps = before ++ bp :: after
       /\ Forall (fun bp' => forall j, 2 * start + maxLength < 2 * j ->
                              j <= end_ -> ~ occursAt j bp' text) before
       /\ (2 * start + maxLength < 2 * i /\ i <= end_)
       /\ occursAt i bp text
       /\ (forall j, j <= end_ -> occursAt j bp text -> j <= i)
       /\ findBreak bps text start maxLength end_ = i + length bp.
Proof.
  intros Hmid Hend. induction bps as [|bp bps IH]; simpl.
  - left. split; [done|constructor].
  - destruct (Z.ltb_spec (2 * start + maxLength) (2 * lastIndexOf text bp end_))
      as [Hin|Hout].
    + right. exists [], bp, bps, (lastIndexOf text bp end_).
      destruct (lastIndexOf_found text bp end_ Hend) as [H1|[H1 H2]]; [lia|].
      split; [reflexivity|]. split; [constructor|]. split; [lia|].
      split; [exact H2|]. split; [|reflexivity].
      intros j Hj Hocc. by apply lastIndexOf_last.
    + assert (Hnone : forall i, 2 * start + maxLength < 2 * i -> i <= end_ ->
                                ~ occursAt i bp text).
      { intros i Hi1 Hi2 Hocc.
        pose proof (lastIndexOf_last text bp end_ i Hi2 Hocc). lia. }
      destruct IH as [[IH1 IH2]|(before & bp' & after & i & -> & Hb & Hi & Ho & Hl & Hf)].
      * left. split; [done|by constructor].
      * right. exists (bp :: before), bp', after, i.
        split; [reflexivity|]. split; [by constructor|]. auto.
Qed.

(** X8. Where a window of a long block ends when the text goes on beyond
    it: right behind the last occurrence, not beyond [start + maxLength], of
    the first break point of the list that occurs behind the middle of the
    window; and at [start + maxLength] only when none of the break points
    occurs there. *)
Theorem cut_falls_behind_last_break_point (text : jsstring)
  (maxLength start : Z) :
  0 <= start -> 0 < maxLength -> start + maxLength < length text ->
  (cut text maxLength start = start + maxLength
   /\ Forall (fun bp => forall i, 2 * start + maxLength < 2 * i ->
                         i <= start + maxLength -> ~ occursAt i bp text)
             breakPoints)
  \/ exists before bp after i,
       breakPoints = before ++ bp :: after
       /\ Forall (fun bp' => forall j, 2 * start + maxLength < 2 * j ->
                              j <= start + maxLength -> ~ occursAt j bp' text)
                 before
       /\ (2 * start + maxLength < 2 * i /\ i <= start + maxLength)
       /\ occursAt i bp text
       /\ (forall j, j <= start + maxLength -> occursAt j bp text -> j <= i)
       /\ cut text maxLength start = i + length bp.
Proof.
  intros Hstart Hmax Hlen. unfold cut. cbv zeta.
  destruct (Z.ltb_spec (start + maxLength) (length text)); [|lia].
  apply findBreak_spec; lia.
Qed.

Lemma cut_falls_behind_last_break_point_witness :
  (cut Fixture.sentences 20 0 = 0 + 20
   /\ Forall (fun bp => forall i, 2 * 0 + 20 < 2 * i ->
                         i <= 0 + 20 -> ~ occursAt i bp Fixture.sentences)
             breakPoints)
  \/ exists before bp after i,
       breakPoints = before ++ bp :: after
       /\ Forall (fun bp' => forall j, 2 * 0 + 20 < 2 * j ->
                              j <= 0 + 20 ->
                              ~ occursAt j bp' Fixture.sentences)
                 before
       /\ (2 * 0 + 20 < 2 * i /\ i <= 0 + 20)
       /\ occursAt i bp Fixture.sentences
       /\ (forall j, j <= 0 + 20 -> occursAt j bp Fixture.sentences -> j <= i)
       /\ cut Fixture.sentences 20 0 = i + length bp.
Proof.
  apply (cut_falls_behind_last_break_point Fixture.sentences 20 0);
    [lia|lia|vm_compute; reflexivity].
Defined.

Lemma cut_bounds (text : jsstring) (maxLength start : Z) :
  0 <= start -> 0 < maxLength ->
  start < cut text maxLength start <= start + maxLength + 2.
Proof.
  intros Hstart Hmax. split.
  - pose proof (cut_beyond_middle text maxLength start Hmax). lia.
  - unfold cut. cbv zeta. destruct (_ <? _); [|lia].
    pose proof (findBreak_le breakPoints text start maxLength
                  (start + maxLength) breakPoints_short). lia.
Qed.

Lemma splitLongBlockLoop_windows (text : jsstring) (maxLength overlap : Z) :
  forall fuel start chunks result,
    splitLongBlockLoop fuel text maxLength overlap start chunks = Some result ->
    result = chunks
             ++ List.map (fun w => trim (slice text w.1 w.2))
                         (windows fuel text maxLength overlap start).
Proof.
  induction fuel as [|fuel IH]; intros start chunks result H; simpl in *.
  - destruct (start <? length text); [done|]. injection H as <-.
    by rewrite app_nil_r.
  - destruct (start <? length text).
    + apply IH in H. rewrite H, <- app_assoc. done.
    + injection H as <-. by rewrite app_nil_r.
Qed.

Lemma windows_cover (text : jsstring) (maxLength overlap : Z) :
  0 <= overlap -> 2 * overlap < maxLength ->
  forall fuel start i,
    0 <= start -> length text - start <= Z.of_nat fuel ->
    start <= i < length text ->
    exists w, w ∈ windows fuel text maxLength overlap start /\ w.1 <= i < w.2.
Proof.
  intros Hov Hmax. induction fuel as [|fuel IH]; intros start i Hstart Hfuel Hi;
    [lia|].
  cbn [windows]. destruct (Z.ltb_spec start (length text)); [|lia].
  pose proof (cut_bounds text maxLength start Hstart ltac:(lia)) as Hcut.
  pose proof (start_advances text maxLength overlap start ltac:(lia) Hmax).
  destruct (Z.lt_ge_cases i (cut text maxLength start)) as [Hin|Hout].
  - exists (start, cut text maxLength start). split; [by left|]. simpl. lia.
  - destruct (IH (cut text maxLength start - overlap) i) as (w & Hw & Hwi);
      [lia|lia|lia|].
    exists w. split; [by right|done].
Qed.

Lemma windows_bounds (text : jsstring) (maxLength overlap : Z) :
  0 <= overlap -> 2 * overlap < maxLength ->
  forall fuel start,
    0 <= start ->
    Forall (fun w => 0 <= w.1 < w.2 /\ w.1 < length text
                     /\ w.2 <= w.1 + maxLength + 2)
           (windows fuel text maxLength overlap start).
Proof.
  intros Hov Hmax. induction fuel as [|fuel IH]; intros start Hstart;
    cbn [windows]; destruct (Z.ltb_spec start (length text));
    try constructor.
  - simpl. pose proof (cut_bounds text maxLength start Hstart ltac:(lia)). lia.
  - apply IH.
    pose proof (start_advances text maxLength overlap start ltac:(lia) Hmax).
    lia.
Qed.

Lemma slice_length (s : jsstring) (from to : Z) :
  0 <= from <= to -> length (slice s from to) <= to - from.
Proof.
  intros H. unfold slice, sliceIndex, length. cbv zeta.
  rewrite length_take.
  destruct (Z.ltb_spec from 0), (Z.ltb_spec to 0); lia.
Qed.

(** X9. With an overlap that is not negative and below half of
    [maxLength], the chunks of a long block are the trimmed slices of
    windows that leave no gap: every index of the text lies in a window.
    A window is not empty and ends at most two code units beyond
    [start + maxLength], so that no chunk has more than [maxLength + 2]
    code units. *)
Theorem splitLongBlock_windows_leave_no_gap (text : jsstring)
  (maxLength overlap : Z) (fuel : nat) :
  0 <= overlap -> 2 * overlap < maxLength -> (List.length text <= fuel)%nat ->
  exists ws,
    splitLongBlock fuel text maxLength overlap
    = Some (List.map (fun w => trim (slice text w.1 w.2)) ws)
    /\ (forall i, 0 <= i < length text -> exists w, w ∈ ws /\ w.1 <= i < w.2)
    /\ Forall (fun w => 0 <= w.1 < w.2 /\ w.2 <= w.1 + maxLength + 2) ws
    /\ Forall (fun w => length (trim (slice text w.1 w.2)) <= maxLength + 2)
              ws.
Proof.
  intros Hov Hmax Hfuel.
  exists (windows fuel text maxLength overlap 0).
  pose proof (windows_bounds text maxLength overlap Hov Hmax fuel 0 ltac:(lia))
    as Hb.
  split; [|split; [|split]].
  - destruct (splitLongBlock_ends text maxLength overlap ltac:(lia) Hmax)
      as [chunks H].
    specialize (H fuel Hfuel). rewrite H. f_equal.
    by apply splitLongBlockLoop_windows in H.
  - intros i Hi. apply windows_cover; try done; unfold length in *; lia.
  - eapply Forall_impl; [exact Hb|]. intros w. simpl. lia.
  - eapply Forall_impl; [exact Hb|]. intros w Hw. cbv beta in Hw.
    pose proof (trim_length (slice text w.1 w.2)).
    pose proof (slice_length text w.1 w.2 ltac:(lia)). lia.
Qed.

Lemma splitLongBlock_windows_leave_no_gap_witness :
  exists ws,
    splitLongBlock 40 Fixture.sentences 20 4
    = Some (List.map (fun w => trim (slice Fixture.sentences w.1 w.2)) ws)
    /\ (forall i, 0 <= i < length Fixture.sentences ->
                  exists w, w ∈ ws /\ w.1 <= i < w.2)
    /\ Forall (fun w => 0 <= w.1 < w.2 /\ w.2 <= w.1 + 20 + 2) ws
    /\ Forall (fun w => length (trim (slice Fixture.sentences w.1 w.2))
                        <= 20 + 2)
              ws.
Proof.
  apply (splitLongBlock_windows_leave_no_gap Fixture.sentences 20 4 40);
    [lia|lia|vm_compute; lia].
Defined.

End Windows.

(** ** What the ingestion scripts send and count *)

Section Requests.

Import Ingestion Runs.

Context {M : Type}.
Variable embedQuery : jsstring -> option Embedding.
Variable insertReply : list (Row M) -> jsstring -> Reply.
Variable newId : list (Row M) -> Z.

Lemma processChunk_sent (st : World M * Counts) (chunk : jsstring * M) :
  List.map fst (sent (fst (processChunk embedQuery insertReply newId st chunk)))
  = List.map fst (sent (fst st))
    ++ match insertFor embedQuery chunk with Some r => [r] | None => [] end.
Proof.
  destruct st as [w n]. unfold processChunk, insertFor.
  destruct (embedQuery (fst chunk)) as [e|]; cbn [fst];
    [|by rewrite app_nil_r].
  destruct (insertReply (rows w) (fst chunk)); cbn [fst sent send];
    by rewrite List.map_app.
Qed.

Lemma batch_sent (batch : list (jsstring * M)) : forall st,
  List.map fst (sent (fst (fold_left (processChunk embedQuery insertReply newId)
                                     batch st)))
  = List.map fst (sent (fst st)) ++ omap (insertFor embedQuery) batch.
Proof.
  induction batch as [|chunk batch IH]; intros st; cbn [fold_left].
  - by rewrite app_nil_r.
  - rewrite IH, processChunk_sent, <- app_assoc. f_equal.
    simpl.
    by destruct (insertFor embedQuery chunk).
Qed.

Lemma omap_concat {A B : Type} (f : A -> option B) (ls : list (list A)) :
  omap f (List.concat ls) = List.concat (List.map (omap f) ls).
Proof.
  induction ls as [|l ls IH]; [done|].
  change (List.concat (l :: ls)) with (l ++ List.concat ls).
  rewrite omap_app, IH. done.
Qed.

Lemma batches_sent (bs : list (list (jsstring * M))) : forall st,
  List.map fst
    (sent (fst (fold_left
                  (fun st batch =>
                     fold_left (processChunk embedQuery insertReply newId)
                               batch st)
                  bs st)))
  = List.map fst (sent (fst st)) ++ omap (insertFor embedQuery) (List.concat bs).
Proof.
  induction bs as [|b bs IH]; intros st; cbn [fold_left].
  - by rewrite app_nil_r.
  - rewrite IH, batch_sent, <- app_assoc. f_equal.
    change (List.concat (b :: bs)) with (b ++ List.concat bs).
    by rewrite omap_app.
Qed.

(** The loop over the batches sends one insert for each chunk whose
    embedding succeeded, in the order of the chunks, and nothing for the
    others. *)
Lemma insertAll_sent (batchSize : nat) (chunks : list (jsstring * M))
  (w : World M) :
  (0 < batchSize)%nat ->
  List.map fst (sent (fst (insertAll embedQuery insertReply newId batchSize
                             chunks w)))
  = List.map fst (sent w) ++ omap (insertFor embedQuery) chunks.
Proof.
  intros Hpos. unfold insertAll. rewrite batches_sent. cbn [fst].
  by rewrite batches_concat.
Qed.

End Requests.

Section Accounting.

Import Ingestion Runs.

(** X10. The loop over the batches takes the chunks [batchSize] at a time:
    batch number [k] is the slice of the chunks from [k * batchSize] to
    [k * batchSize + batchSize], it exists exactly when [k * batchSize] is
    below the number of chunks, and the batches put end to end are the
    chunks, so that every chunk is in one batch and in one only. *)
Theorem batches_take_every_chunk_once {A : Type} (batchSize : nat)
  (chunks : list A) :
  (0 < batchSize)%nat ->
  let bs := batches (List.length chunks) batchSize chunks in
  List.concat bs = chunks
  /\ (forall k, (k * batchSize < List.length chunks)%nat ->
        bs !! k = Some (take batchSize (drop (k * batchSize) chunks)))
  /\ (forall k, (List.length chunks <= k * batchSize)%nat -> bs !! k = None).
Proof.
  intros Hpos bs. subst bs. split; [by apply batches_concat|].
  assert (H : forall fuel (l : list A) k,
            (List.length l <= fuel)%nat ->
            ((k * batchSize < List.length l)%nat ->
             batches fuel batchSize l !! k
             = Some (take batchSize (drop (k * batchSize) l)))
            /\ ((List.length l <= k * batchSize)%nat ->
                batches fuel batchSize l !! k = None)).
  { induction fuel as [|fuel IH]; intros l k Hlen.
    - destruct l; [|simpl in Hlen; lia]. split; [simpl; lia|done].
    - destruct l as [|x l]; [split; [simpl; lia|done]|].
      change (batches (S fuel) batchSize (x :: l))
        with (take batchSize (x :: l)
              :: batches fuel batchSize (drop batchSize (x :: l))).
      destruct k as [|k].
      + split; [done|]. simpl. lia.
      + destruct (IH (drop batchSize (x :: l)) k) as [IH1 IH2].
        { rewrite length_drop. simpl in *. lia. }
        rewrite length_drop in IH1, IH2.
        change ((take batchSize (x :: l)
                 :: batches fuel batchSize (drop batchSize (x :: l))) !! S k)
          with (batches fuel batchSize (drop batchSize (x :: l)) !! k).
        split.
        * intros Hk. rewrite IH1 by (simpl in *; lia).
          rewrite drop_drop.
          by replace (batchSize + k * batchSize)%nat with (S k * batchSize)%nat
            by lia.
        * intros Hk. apply IH2. simpl in *. lia. }
  split; intros k Hk; by apply (H (List.length chunks) chunks k).
Qed.

Lemma batches_take_every_chunk_once_witness :
  let bs := batches 5 2 [1; 2; 3; 4; 5] in
  List.concat bs = [1; 2; 3; 4; 5]
  /\ (forall k, (k * 2 < 5)%nat ->
        bs !! k = Some (take 2 (drop (k * 2) [1; 2; 3; 4; 5])))
  /\ (forall k, (5 <= k * 2)%nat -> bs !! k = None).
Proof.
  apply (batches_take_every_chunk_once 2 [1; 2; 3; 4; 5]). lia.
Defined.

(** X11. Once the text of the PDF is read, a run of the PDF script never
    stops half way: whatever the embedding provider and the store do, it
    completes, its two counters
    add up to the number of chunks, the table is the table it found
    followed by the rows it added, one for each success that was counted,
    each made from a chunk of the text.  Without a file it exits with code 1
    and sends nothing. *)
Theorem ingestPDF_counts_every_chunk
  (embedQuery : jsstring -> option Embedding)
  (insertReply : list (Row IngestPdf.Metadata) -> jsstring -> Reply)
  (newId : list (Row IngestPdf.Metadata) -> Z)
  (text : jsstring) (table : list (Row IngestPdf.Metadata)) :
  (let run := ingestPDF embedQuery insertReply newId (Some text) table in
   exists n added,
     outcome run = Completed n
     /\ rows (world run) = table ++ added
     /\ Forall (ofChunks (pdfChunks text)) added
     /\ successCount n = Z.of_nat (List.length added)
     /\ successCount n + errorCount n
        = Z.of_nat (List.length (pdfChunks text)))
  /\ ingestPDF embedQuery insertReply newId None table
     = {| outcome := Exited 1; world := {| rows := table; sent := [] |} |}.
Proof.
  split; [|reflexivity]. cbv zeta. unfold ingestPDF.
  match goal with
  | |- context [insertAll ?a ?b ?c ?d ?e ?w] =>
      pose proof (insertAll_InsertedOnly a b c d e w ltac:(lia)) as H;
      destruct (insertAll a b c d e w) as [w' n]
  end.
  destruct H as [added reqs Hrows Hsent Hadded _ Hcount Hall].
  cbn [fst snd rows sent world outcome] in *.
  exists n, added. repeat split; done.
Qed.

(** What a run sends for its batches, one list for each batch. *)
Lemma insertAll_sent_by_batch {M : Type}
  (embedQuery : jsstring -> option Embedding)
  (insertReply : list (Row M) -> jsstring -> Reply)
  (newId : list (Row M) -> Z) (batchSize : nat)
  (chunks : list (jsstring * M)) (w : World M) :
  (0 < batchSize)%nat ->
  exists perBatch,
    List.map fst (sent (fst (insertAll embedQuery insertReply newId batchSize
                               chunks w)))
    = List.map fst (sent w) ++ List.concat perBatch
    /\ Forall2 (fun requests batch =>
                  requests ≡ₚ omap (insertFor embedQuery) batch)
               perBatch (batches (List.length chunks) batchSize chunks).
Proof.
  intros Hpos.
  exists (List.map (omap (insertFor embedQuery))
            (batches (List.length chunks) batchSize chunks)).
  split.
  - rewrite insertAll_sent by done. f_equal.
    rewrite <- omap_concat. by rewrite batches_concat.
  - apply Forall2_fmap_l, Forall_Forall2_diag, Forall_forall.
    intros batch _. cbv beta. unfold compose. reflexivity.
Qed.

(** X12. Both scripts send an insert for a chunk only when its embedding
    succeeded, and batch after batch.  The requests of a run of the PDF
    script are the requests of its batches of 10 chunks, in the order of the
    batches, and those of a batch are one insert for each of its chunks that
    has an embedding, in whatever order the batch sent them, and nothing
    else.  The requests of a run of the text script are the delete request
    first, then in the same way the requests of its batches of 5; when the
    delete request fails, it is the only request of the run. *)
Theorem inserts_follow_embeddings
  (embedQuery : jsstring -> option Embedding) (text : jsstring) :
  (forall insertReply newId table,
     exists perBatch,
       List.map fst
         (sent (world (ingestPDF embedQuery insertReply newId (Some text)
                         table)))
       = List.concat perBatch
       /\ Forall2 (fun requests batch =>
                     requests ≡ₚ omap (insertFor embedQuery) batch)
                  perBatch
                  (batches (List.length (pdfChunks text)) 10 (pdfChunks text)))
  /\ (forall insertReply newId deleteFails table,
        deleteFails table = false ->
        exists perBatch,
          List.map fst
            (sent (world (ingestTextFile embedQuery insertReply newId
                            deleteFails (Some text) table)))
          = Delete :: List.concat perBatch
          /\ Forall2 (fun requests batch =>
                        requests ≡ₚ omap (insertFor embedQuery) batch)
                     perBatch
                     (batches (List.length (textChunks text)) 5
                        (textChunks text)))
  /\ (forall insertReply newId deleteFails table,
        deleteFails table = true ->
        List.map fst
          (sent (world (ingestTextFile embedQuery insertReply newId
                          deleteFails (Some text) table)))
        = [Delete]).
Proof.
  split; [|split].
  - intros insertReply newId table. unfold ingestPDF.
    destruct (insertAll_sent_by_batch embedQuery insertReply newId 10
                (pdfChunks text) {| rows := table; sent := [] |} ltac:(lia))
      as (perBatch & H & Hb).
    destruct (insertAll _ _ _ _ _ _) as [w n]. cbn [fst world sent] in *.
    by exists perBatch.
  - intros insertReply newId deleteFails table Hdel.
    unfold ingestTextFile, clear. cbn [rows send]. rewrite Hdel.
    match goal with
    | |- context [insertAll ?a ?b ?c ?d ?e ?w] =>
        destruct (insertAll_sent_by_batch a b c d e w ltac:(lia))
          as (perBatch & H & Hb);
        destruct (insertAll a b c d e w) as [w' n]
    end.
    cbn [fst world sent send rows app List.map] in *. by exists perBatch.
  - intros insertReply newId deleteFails table Hdel.
    unfold ingestTextFile, clear. cbn [rows send]. by rewrite Hdel.
Qed.

End Accounting.

(** ** The documents of a request *)

Section Retrieved.

Import Retrieval.

Lemma StronglySorted_lookup {A : Type} (R : A -> A -> Prop) (l : list A) :
  StronglySorted R l ->
  forall i j a b, l !! i = Some a -> l !! j = Some b -> (i < j)%nat -> R a b.
Proof.
  induction 1 as [|x l Hl IH Hx]; intros i j a b Ha Hb Hij; [done|].
  destruct i as [|i], j as [|j]; simpl in *; try lia.
  - injection Ha as ->. rewrite Forall_forall in Hx. apply Hx.
    by eapply list_elem_of_lookup_2.
  - apply (IH i j); [done|done|lia].
Qed.

Lemma StronglySorted_app_before {A : Type} (R : A -> A -> Prop) (l1 l2 : list A) :
  StronglySorted R (l1 ++ l2) -> forall a b, a ∈ l1 -> b ∈ l2 -> R a b.
Proof.
  induction l1 as [|x l1 IH]; intros H a b Ha Hb; [by apply elem_of_nil in Ha|].
  simpl in H. inversion H as [|? ? Hs Hx]; subst.
  apply elem_of_cons in Ha as [->|Ha].
  - rewrite Forall_forall in Hx. apply Hx. apply elem_of_app. by right.
  - by apply IH.
Qed.

(** The first [n] of a list sorted by a comparator that is total and
    transitive: at most [n] elements of the list, in the order of the
    comparator, none of them behind an element that was left out. *)
Lemma sorted_cut {A : Type} (cmp : A -> A -> Q) (n : nat) (l : list A) :
  (forall x y, before cmp x y \/ before cmp y x) ->
  (forall x y z, before cmp x y -> before cmp y z -> before cmp x z) ->
  let docs := take n (sort cmp l) in
  (List.length docs <= n)%nat
  /\ docs ⊆+ l
  /\ (forall i j a b, docs !! i = Some a -> docs !! j = Some b -> (i < j)%nat ->
        before cmp a b)
  /\ (exists rest, docs ++ rest ≡ₚ l
                   /\ forall a b, a ∈ docs -> b ∈ rest -> before cmp a b)
  /\ ((List.length l <= n)%nat -> docs ≡ₚ l).
Proof.
  intros Htotal Htrans docs. subst docs.
  pose proof (sort_sorted cmp Htotal Htrans l) as Hsorted.
  pose proof (sort_perm cmp l) as Hperm.
  split; [rewrite length_take; lia|]. split; [|split; [|split]].
  - rewrite <- Hperm at 2. apply submseteq_take.
  - intros i j a b Ha Hb Hij.
    apply lookup_take_Some in Ha as [Ha _]. apply lookup_take_Some in Hb as [Hb _].
    by eapply StronglySorted_lookup.
  - exists (drop n (sort cmp l)). rewrite take_drop. split; [done|].
    apply StronglySorted_app_before. by rewrite take_drop.
  - intros Hlen. rewrite take_ge; [done|]. by rewrite Hperm.
Qed.

Lemma multi_byRelevance_total toLowerCase program (a b : MatchDocumentsResult) :
  before (ChatMulti.byRelevance toLowerCase program) a b
  \/ before (ChatMulti.byRelevance toLowerCase program) b a.
Proof.
  unfold before, ChatMulti.byRelevance.
  destruct program as [p|]; [destruct (truthy p)|];
    try destruct (includes (toLowerCase (content a)) (toLowerCase p));
    try destruct (includes (toLowerCase (content b)) (toLowerCase p));
    simpl; lra.
Qed.

Lemma multi_byRelevance_trans toLowerCase program (a b c : MatchDocumentsResult) :
  before (ChatMulti.byRelevance toLowerCase program) a b ->
  before (ChatMulti.byRelevance toLowerCase program) b c ->
  before (ChatMulti.byRelevance toLowerCase program) a c.
Proof.
  unfold before, ChatMulti.byRelevance.
  destruct program as [p|]; [destruct (truthy p)|];
    try destruct (includes (toLowerCase (content a)) (toLowerCase p));
    try destruct (includes (toLowerCase (content b)) (toLowerCase p));
    try destruct (includes (toLowerCase (content c)) (toLowerCase p));
    simpl; lra.
Qed.

(** X13. The documents the route hands to the formatter are at most 12 of
    the documents gathered, none twice, in the order of the comparator, and
    no document that was left out would have come before one that was
    kept; with 12 documents or fewer gathered, none is left out.  The same
    holds of the multi-strategy variant with 15 and its own comparator. *)
Theorem retrieved_documents_are_the_first_in_order
  (embedQuery : jsstring -> option Embedding)
  (rpc : Embedding -> jsstring -> Q -> Z -> Reply Scored)
  (selectLike : list jsstring -> Z -> Reply Plain)
  (selectNamed : Z -> Reply Plain)
  (toLowerCase : jsstring -> jsstring)
  (analysis : QueryAnalysis) (message : jsstring) :
  (forall docs,
     Chat.retrieve embedQuery rpc analysis message = Ok docs ->
     exists st,
       Chat.gather embedQuery rpc analysis message = Ok st
       /\ (List.length docs <= 12)%nat
       /\ NoDup (List.map id docs)
       /\ (forall i j a b,
             docs !! i = Some a -> docs !! j = Some b -> (i < j)%nat ->
             before (Chat.byRelevance (program analysis)) a b)
       /\ (exists rest,
             docs ++ rest ≡ₚ relevantDocs st
             /\ forall a b, a ∈ docs -> b ∈ rest ->
                  before (Chat.byRelevance (program analysis)) a b)
       /\ ((List.length (relevantDocs st) <= 12)%nat ->
           docs ≡ₚ relevantDocs st))
  /\ (forall docs,
        ChatMulti.retrieve embedQuery rpc selectLike selectNamed toLowerCase
          analysis message = Ok docs ->
        exists st,
          ChatMulti.gather embedQuery rpc selectLike selectNamed analysis
            message = Ok st
          /\ (List.length docs <= 15)%nat
          /\ NoDup (List.map id docs)
          /\ (forall i j a b,
                docs !! i = Some a -> docs !! j = Some b -> (i < j)%nat ->
                before (ChatMulti.byRelevance toLowerCase (program analysis))
                       a b)
          /\ (exists rest,
                docs ++ rest ≡ₚ relevantDocs st
                /\ forall a b, a ∈ docs -> b ∈ rest ->
                     before (ChatMulti.byRelevance toLowerCase
                               (program analysis)) a b)
          /\ ((List.length (relevantDocs st) <= 15)%nat ->
              docs ≡ₚ relevantDocs st)).
Proof.
  split; intros docs H.
  - pose proof (proj1 (retrieve_ids_once embedQuery rpc selectLike selectNamed
                         toLowerCase analysis message) docs H) as Hids.
    unfold Chat.retrieve in H.
    destruct (Chat.gather embedQuery rpc analysis message) as [|st] eqn:E;
      cbn [bind] in H; [done|].
    injection H as <-. exists st. split; [done|].
    destruct (sorted_cut (Chat.byRelevance (program analysis)) 12
                (relevantDocs st) (byRelevance_total _) (byRelevance_trans _))
      as (H1 & _ & H3 & H4 & H5).
    auto.
  - pose proof (proj2 (retrieve_ids_once embedQuery rpc selectLike selectNamed
                         toLowerCase analysis message) docs H) as Hids.
    unfold ChatMulti.retrieve in H.
    destruct (ChatMulti.gather _ _ _ _ _ _) as [|st] eqn:E;
      cbn [bind] in H; [done|].
    injection H as <-. exists st. split; [done|].
    destruct (sorted_cut (ChatMulti.byRelevance toLowerCase (program analysis))
                15 (relevantDocs st) (multi_byRelevance_total _ _)
                (multi_byRelevance_trans _ _))
      as (H1 & _ & H3 & H4 & H5).
    auto.
Qed.

Lemma addDocs_ids_recorded (docs : list MatchDocumentsResult) : forall st,
  (forall i, i ∈ existingIds st -> i ∈ existingIds (addDocs st docs))
  /\ Forall (fun d => id d ∈ existingIds (addDocs st docs)) docs.
Proof.
  unfold addDocs. induction docs as [|d docs IH]; intros st; cbn [fold_left].
  - split; [done|constructor].
  - destruct (IH (addDoc st d)) as [IH1 IH2].
    assert (Hstep : forall i, i ∈ existingIds st -> i ∈ existingIds (addDoc st d)).
    { intros i Hi. unfold addDoc. destruct (decide _); [done|].
      cbn [existingIds]. apply elem_of_union. by right. }
    assert (Hd : id d ∈ existingIds (addDoc st d)).
    { unfold addDoc. destruct (decide _); [done|]. cbn [existingIds].
      apply elem_of_union. left. by apply elem_of_singleton. }
    split; [auto|]. constructor; [auto|done].
Qed.

Lemma addDocs_known (docs : list MatchDocumentsResult) : forall st,
  Forall (fun d => id d ∈ existingIds st) docs -> addDocs st docs = st.
Proof.
  unfold addDocs. induction docs as [|d docs IH]; intros st H; [done|].
  inversion H as [|? ? Hd Hdocs]; subst. cbn [fold_left].
  unfold addDoc at 2. destruct (decide _); [|done]. by apply IH.
Qed.

Lemma addDocs_appends (docs : list MatchDocumentsResult) : forall st,
  exists added,
    relevantDocs (addDocs st docs) = relevantDocs st ++ added
    /\ added `sublist_of` docs.
Proof.
  unfold addDocs. induction docs as [|d docs IH]; intros st; cbn [fold_left].
  - exists []. by rewrite app_nil_r.
  - destruct (IH (addDoc st d)) as (added & Hr & Hs). unfold addDoc in *.
    destruct (decide _).
    + exists added. split; [done|]. by constructor.
    + cbn [relevantDocs] in Hr. exists (d :: added). split.
      * by rewrite Hr, <- app_assoc.
      * by constructor.
Qed.

(** X14. A call of [addDocs] only appends: the documents gathered before
    stay where they are, in their order and with their scores, and what is
    added are documents of the list in the order of the list.  Adding the
    same list once more changes nothing. *)
Theorem addDocs_only_appends (st : Merged) (docs : list MatchDocumentsResult) :
  (exists added,
     relevantDocs (addDocs st docs) = relevantDocs st ++ added
     /\ added `sublist_of` docs)
  /\ addDocs (addDocs st docs) docs = addDocs st docs.
Proof.
  split; [apply addDocs_appends|].
  apply addDocs_known. by destruct (addDocs_ids_recorded docs st).
Qed.

End Retrieved.

(** ** The prompt and the event stream *)

Section Prompt.

Import Prompts.

Lemma getSubstitution_plain (matched preceding following template : jsstring) :
  36 ∉ template ->
  getSubstitution matched preceding following template = template.
Proof.
  induction template as [|c t IH]; intros H; [done|].
  apply not_elem_of_cons in H as [Hc Ht]. cbn [getSubstitution].
  destruct (Z.eqb_spec c 36) as [->|_]; [done|]. by rewrite IH.
Qed.

Lemma indexOfFrom_at (p : jsstring) : forall s i,
  indexOfFrom i s p = -1
  \/ (i <= indexOfFrom i s p
      /\ startsWith (drop (Z.to_nat (indexOfFrom i s p - i)) s) p = true).
Proof.
  induction s as [|c s IH]; intros i; cbn [indexOfFrom].
  - destruct (startsWith [] p) eqn:E; [|by left].
    right. split; [lia|]. by rewrite Z.sub_diag.
  - destruct (startsWith (c :: s) p) eqn:E.
    + right. split; [lia|]. by rewrite Z.sub_diag.
    + destruct (IH (i + 1)) as [H|[H1 H2]]; [by left|]. right. split; [lia|].
      replace (Z.to_nat (indexOfFrom (i + 1) s p - i))
        with (S (Z.to_nat (indexOfFrom (i + 1) s p - (i + 1)))) by lia.
      exact H2.
Qed.

(** A string found by [indexOf] is in the string at that index. *)
Lemma indexOf_at (s p : jsstring) :
  0 <= indexOf s p ->
  s = take (Z.to_nat (indexOf s p)) s ++ p
      ++ drop (Z.to_nat (indexOf s p) + List.length p) s.
Proof.
  unfold indexOf. intros H.
  destruct (indexOfFrom_at p s 0) as [E|[_ E]]; [lia|].
  rewrite Z.sub_0_r in E. apply startsWith_spec in E as [after E].
  rewrite <- (take_drop (Z.to_nat (indexOfFrom 0 s p)) s) at 1.
  f_equal. rewrite E. f_equal.
  rewrite <- drop_drop, E. by rewrite drop_app_length.
Qed.

(** [indexOf] finds the first place: no occurrence starts before it. *)
Lemma indexOfFrom_first (p : jsstring) : forall s i before after,
  s = before ++ p ++ after ->
  i <= indexOfFrom i s p <= i + Z.of_nat (List.length before).
Proof.
  induction s as [|c s IH]; intros i before after H; cbn [indexOfFrom].
  - destruct before; [|discriminate H]. simpl in H.
    assert (E : startsWith [] p = true) by (apply startsWith_spec; eauto).
    rewrite E. simpl. lia.
  - destruct (startsWith (c :: s) p) eqn:E; [lia|].
    destruct before as [|b before].
    + simpl in H.
      assert (startsWith (c :: s) p = true) by (apply startsWith_spec; eauto).
      congruence.
    + injection H as -> ->.
      specialize (IH (i + 1) before after eq_refl).
      cbn [List.length]. lia.
Qed.

(** X15. The prompt of a request.  When the two values hold no dollar
    sign and the templates hold their placeholders, the prompt is the system
    template with the context in the place of the first [{context}], a
    blank line, and the question template with the question in the place of
    the first [{question}], both values as they are.  A template without its
    placeholder comes back as it is, so that the value is not in the prompt;
    and so does any template when the value is [$&], which stands for the
    placeholder itself. *)
Theorem prompt_holds_context_and_question
  (SYSTEM_PROMPT QUESTION_TEMPLATE : jsstring) :
  (forall context question,
     36 ∉ context -> 36 ∉ question ->
     occursIn (lit "{context}") SYSTEM_PROMPT ->
     occursIn (lit "{question}") QUESTION_TEMPLATE ->
     exists a b c d,
       SYSTEM_PROMPT = a ++ lit "{context}" ++ b
       /\ (forall a' b', SYSTEM_PROMPT = a' ++ lit "{context}" ++ b' ->
                         (List.length a <= List.length a')%nat)
       /\ QUESTION_TEMPLATE = c ++ lit "{question}" ++ d
       /\ (forall c' d', QUESTION_TEMPLATE = c' ++ lit "{question}" ++ d' ->
                         (List.length c <= List.length c')%nat)
       /\ finalPrompt SYSTEM_PROMPT QUESTION_TEMPLATE context question
          = a ++ context ++ b ++ [LF; LF] ++ c ++ question ++ d)
  /\ (forall template placeholder value,
        ~ occursIn placeholder template ->
        replaceString template placeholder value = template)
  /\ (forall template placeholder,
        replaceString template placeholder [36; 38] = template).
Proof.
  assert (Hfound : forall template placeholder value,
            36 ∉ value -> occursIn placeholder template ->
            exists a b, template = a ++ placeholder ++ b
                        /\ (forall a' b',
                              template = a' ++ placeholder ++ b' ->
                              (List.length a <= List.length a')%nat)
                        /\ replaceString template placeholder value
                           = a ++ value ++ b).
  { intros template placeholder value Hv Hocc.
    apply includes_spec in Hocc. unfold includes in Hocc.
    apply Z.leb_le in Hocc. unfold replaceString. cbv zeta.
    destruct (Z.ltb_spec (indexOf template placeholder) 0); [lia|].
    eexists _, _. split; [by apply indexOf_at|]. split.
    - intros a' b' E.
      pose proof (indexOfFrom_first placeholder template 0 a' b' E) as Hi.
      fold (indexOf template placeholder) in Hi.
      pose proof (length_take_le template
                    (Z.to_nat (indexOf template placeholder))).
      rewrite length_take. lia.
    - by rewrite getSubstitution_plain. }
  split; [|split].
  - intros context question Hc Hq Hsys Hque.
    destruct (Hfound _ _ context Hc Hsys) as (a & b & Ea & Fa & Ra).
    destruct (Hfound _ _ question Hq Hque) as (c & d & Ec & Fc & Rc).
    exists a, b, c, d. split; [done|]. split; [done|].
    split; [done|]. split; [done|].
    unfold finalPrompt. cbv zeta. rewrite Ra, Rc. by rewrite <- !app_assoc.
  - intros template placeholder value Hno. unfold replaceString. cbv zeta.
    destruct (Z.ltb_spec (indexOf template placeholder) 0) as [|Hpos]; [done|].
    exfalso. apply Hno. apply includes_spec. unfold includes.
    by apply Z.leb_le.
  - intros template placeholder. unfold replaceString. cbv zeta.
    destruct (Z.ltb_spec (indexOf template placeholder) 0) as [|Hpos]; [done|].
    cbn [getSubstitution]. rewrite app_nil_r. symmetry. by apply indexOf_at.
Qed.

End Prompt.

(** ** The events of an answer and their reader *)

Section Events.

Import Retrieval Stream Client.

Lemma relay_shape (response : Generation) :
  relay response
  = List.map chunk (List.filter truthy (yielded response))
    ++ [if completes response then done else error streamingError].
Proof.
  induction response as [| |content rest IH]; [done|done|].
  cbn [relay yielded completes List.filter]. rewrite IH.
  by destruct (truthy content).
Qed.

Lemma concat_truthy (l : list jsstring) :
  List.concat (List.filter truthy l) = List.concat l.
Proof.
  induction l as [|s l IH]; [done|]. cbn [List.filter].
  change (List.concat (s :: l)) with (s ++ List.concat l).
  destruct s as [|c s]; cbn [truthy]; [exact IH|].
  change (List.concat ((c :: s) :: ?l)) with ((c :: s) ++ List.concat l).
  by rewrite IH.
Qed.

Lemma substring_prefix (s : jsstring) (n : Z) :
  0 <= n -> substring s 0 n = take (Z.to_nat n) s.
Proof.
  intros Hn. unfold substring, length. cbv zeta.
  set (len := Z.of_nat (List.length s)).
  assert (0 <= len) by (subst len; lia).
  replace (Z.min (Z.max 0 0) len) with 0 by lia.
  replace (Z.min (Z.max n 0) len) with (Z.min n len) by lia.
  replace (Z.max 0 (Z.min n len)) with (Z.min n len) by lia.
  replace (Z.min 0 (Z.min n len)) with 0 by lia.
  rewrite Z.sub_0_r. cbn [Z.to_nat drop].
  destruct (Z.le_gt_cases n len).
  - by rewrite Z.min_l.
  - rewrite Z.min_r by lia.
    assert (Hl : (Z.to_nat len <= Z.to_nat n)%nat) by lia.
    subst len. rewrite Nat2Z.id in *.
    rewrite (take_ge s (Z.to_nat n)) by exact Hl. by apply take_ge.
Qed.

(** X16. The events of an answer, in the order in which they are
    enqueued: the sources first, then a chunk event for each chunk of the
    model that is not empty, then one last event, [done] when the model came
    to its end and [error] with the fixed message when it broke, the start
    of the call included; nothing follows it.  A source carries the first
    [previewLength] code units of its document followed by three dots,
    which are there for a short document too. *)
Theorem stream_is_sources_chunks_and_one_last_event (previewLength : Z)
  (relevantDocs : list MatchDocumentsResult) (response : Generation) :
  start previewLength relevantDocs response
  = sources (List.map (preview previewLength) relevantDocs)
    :: List.map chunk (List.filter truthy (yielded response))
    ++ [if completes response then done else error streamingError]
  /\ (0 <= previewLength ->
      Forall (fun doc =>
                source_content (preview previewLength doc)
                = take (Z.to_nat previewLength) (content doc) ++ lit "..."
                /\ length (source_content (preview previewLength doc))
                   <= previewLength + 3)
             relevantDocs).
Proof.
  split; [unfold start; by rewrite relay_shape|].
  intros Hn. apply Forall_forall. intros doc _. cbn [preview source_content].
  rewrite substring_prefix by done. split; [done|].
  unfold length. rewrite length_app, length_take.
  change (List.length (lit "...")) with 3%nat. lia.
Qed.

Lemma stream_is_sources_chunks_and_one_last_event_witness :
  Forall (fun doc =>
            source_content (preview 200 doc)
            = take (Z.to_nat 200) (content doc) ++ lit "..."
            /\ length (source_content (preview 200 doc)) <= 200 + 3)
         [Sample.docA; Sample.docB].
Proof.
  apply (proj2 (stream_is_sources_chunks_and_one_last_event 200
                  [Sample.docA; Sample.docB] Ends)).
  lia.
Defined.

Section Reading.

Variable JSON_stringify : Event -> jsstring.
Variable JSON_parse : jsstring -> option Event.

Lemma splitOn_line (sep : Z) (line rest : jsstring) :
  sep ∉ line -> splitOn sep (line ++ sep :: rest) = line :: splitOn sep rest.
Proof.
  induction line as [|c line IH]; intros H; cbn [app splitOn].
  - by rewrite Z.eqb_refl.
  - apply not_elem_of_cons in H as [Hc Hl].
    destruct (Z.eqb_spec c sep) as [->|_]; [done|]. by rewrite IH.
Qed.

Lemma slice_after_prefix (p s : jsstring) :
  slice (p ++ s) (length p) (length (p ++ s)) = s.
Proof.
  unfold slice, sliceIndex, length. cbv zeta. rewrite length_app.
  destruct (Z.ltb_spec (Z.of_nat (List.length p)) 0); [lia|].
  destruct (Z.ltb_spec (Z.of_nat (List.length p + List.length s)) 0); [lia|].
  rewrite Z.min_l, Z.min_l by lia. rewrite Nat2Z.id, drop_app_length.
  apply take_ge. lia.
Qed.

(** One event on the wire, read back. *)
Lemma handle_frame (e : Event) (rest : jsstring) (st : Received) :
  JSON_parse (JSON_stringify e) = Some e -> LF ∉ JSON_stringify e ->
  fold_left (handle JSON_parse) (splitOn LF (frame JSON_stringify e ++ rest)) st
  = fold_left (handle JSON_parse) (splitOn LF rest) (absorb st e).
Proof.
  intros Hparse Hlf. unfold frame. rewrite <- !app_assoc.
  rewrite (app_assoc (lit "data: ")). cbn [app].
  rewrite splitOn_line.
  2:{ rewrite elem_of_app. intros [H|H]; [|done].
      revert H. vm_compute. intros H.
      repeat (apply elem_of_cons in H as [H|H]; [discriminate H|]).
      by apply elem_of_nil in H. }
  change (splitOn LF (LF :: rest)) with ([] :: splitOn LF rest).
  cbn [fold_left]. f_equal.
  assert (Hstart : startsWith (lit "data: " ++ JSON_stringify e) (lit "data: ")
                   = true) by (apply startsWith_spec; by eexists).
  assert (H1 : handle JSON_parse st (lit "data: " ++ JSON_stringify e)
               = absorb st e).
  { unfold handle. rewrite Hstart.
    change 6 with (length (lit "data: ")).
    by rewrite slice_after_prefix, Hparse. }
  rewrite H1. reflexivity.
Qed.

Lemma handle_frames (events : list Event) : forall st,
  Forall (fun e => JSON_parse (JSON_stringify e) = Some e
                   /\ LF ∉ JSON_stringify e) events ->
  fold_left (handle JSON_parse)
    (splitOn LF (List.concat (List.map (frame JSON_stringify) events))) st
  = fold_left absorb events st.
Proof.
  induction events as [|e events IH]; intros st H; [done|].
  inversion H as [|? ? [He1 He2] Hes]; subst.
  change (List.concat (List.map (frame JSON_stringify) (e :: events)))
    with (frame JSON_stringify e
          ++ List.concat (List.map (frame JSON_stringify) events)).
  rewrite handle_frame by done. by apply IH.
Qed.

Lemma receive_frames (groups : list (list Event)) : forall st,
  Forall (fun e => JSON_parse (JSON_stringify e) = Some e
                   /\ LF ∉ JSON_stringify e) (List.concat groups) ->
  fold_left (fun st read => fold_left (handle JSON_parse) (splitOn LF read) st)
    (List.map (fun g => List.concat (List.map (frame JSON_stringify) g)) groups)
    st
  = fold_left absorb (List.concat groups) st.
Proof.
  induction groups as [|g groups IH]; intros st H; [done|].
  change (List.concat (g :: groups)) with (g ++ List.concat groups) in *.
  apply Forall_app in H as [Hg Hgs]. cbn [List.map fold_left].
  rewrite handle_frames by done. rewrite fold_left_app. by apply IH.
Qed.

Lemma absorb_relay (response : Generation) : forall st,
  fold_left absorb (relay response) st
  = {| fullContent := fullContent st ++ List.concat (yielded response);
       sources_ := sources_ st |}.
Proof.
  induction response as [| |content rest IH]; intros st;
    cbn [relay yielded fold_left absorb].
  - destruct st. cbn. by rewrite app_nil_r.
  - destruct st. cbn. by rewrite app_nil_r.
  - rewrite fold_left_app, IH.
    change (List.concat (content :: yielded rest))
      with (content ++ List.concat (yielded rest)).
    destruct content as [|c content]; cbn [truthy fold_left absorb].
    + done.
    + cbn [fullContent sources_]. by rewrite <- app_assoc.
Qed.

(** X17. What the chat interface makes of the events of an answer.  When
    every event comes back from [JSON.parse] as it went into
    [JSON.stringify], whose text holds no line feed, and every read of the
    body delivers whole events, the interface ends with the sources of the
    first event and, as content, the chunks of the model put end to end,
    whether the model came to its end or broke: the [error] event changes
    nothing of what the interface holds. *)
Theorem reader_recovers_the_answer (previewLength : Z)
  (relevantDocs : list MatchDocumentsResult) (response : Generation)
  (groups : list (list Event)) :
  Forall (fun e => JSON_parse (JSON_stringify e) = Some e
                   /\ LF ∉ JSON_stringify e)
         (start previewLength relevantDocs response) ->
  List.concat groups = start previewLength relevantDocs response ->
  receive JSON_parse
    (List.map (fun g => List.concat (List.map (frame JSON_stringify) g)) groups)
  = {| fullContent := List.concat (yielded response);
       sources_ := List.map (preview previewLength) relevantDocs |}.
Proof.
  intros Hjson Hgroups. unfold receive. rewrite <- Hgroups in Hjson.
  rewrite receive_frames by done. rewrite Hgroups. unfold start.
  cbn [fold_left absorb fullContent]. by rewrite absorb_relay.
Qed.

Lemma splitOn_whole (sep : Z) (s : jsstring) :
  sep ∉ s -> splitOn sep s = [s].
Proof.
  induction s as [|c s IH]; intros H; cbn [splitOn]; [done|].
  apply not_elem_of_cons in H as [Hc Hs].
  destruct (Z.eqb_spec c sep) as [->|_]; [done|]. by rewrite IH.
Qed.

Lemma receive_app (before after : list jsstring) :
  receive JSON_parse (before ++ after)
  = fold_left
      (fun st read => fold_left (handle JSON_parse) (splitOn LF read) st)
      after (receive JSON_parse before).
Proof. unfold receive. by rewrite fold_left_app. Qed.

(** X18. An event that a read of the body cuts in two is lost.  When the
    text of an event arrives in two reads, the first of which ends inside
    the text at a place where what has arrived does not parse, the interface
    holds after the two reads what it held before them, and goes on from
    there; the same event arriving in one read is taken in. *)
Theorem event_cut_between_reads_is_lost (e : Event) (head rest : jsstring)
  (before after : list jsstring) :
  JSON_stringify e = head ++ rest ->
  LF ∉ JSON_stringify e ->
  JSON_parse (JSON_stringify e) = Some e ->
  JSON_parse head = None ->
  startsWith rest (lit "data: ") = false ->
  receive JSON_parse
    (before ++ [lit "data: " ++ head; rest ++ [LF; LF]] ++ after)
  = receive JSON_parse (before ++ after)
  /\ receive JSON_parse (before ++ [frame JSON_stringify e])
     = absorb (receive JSON_parse before) e.
Proof.
  intros Hcut Hlf Hwhole Hhead Hrest.
  assert (Hh : (LF ∉ head) /\ (LF ∉ rest)).
  { rewrite Hcut in Hlf. split; intros H; apply Hlf; apply elem_of_app; auto. }
  destruct Hh as [Hh Hr]. split.
  - rewrite !receive_app. rewrite fold_left_app. f_equal.
    generalize (receive JSON_parse before). intros st. cbn [fold_left].
    assert (H1 : splitOn LF (lit "data: " ++ head) = [lit "data: " ++ head]).
    { apply splitOn_whole. rewrite elem_of_app. intros [H|H]; [|done].
      revert H. vm_compute. intros H.
      repeat (apply elem_of_cons in H as [H|H]; [discriminate H|]).
      by apply elem_of_nil in H. }
    assert (H2 : splitOn LF (rest ++ [LF; LF]) = [rest; []; []]).
    { change [LF; LF] with (LF :: [LF]). by rewrite splitOn_line. }
    rewrite H1, H2. cbn [fold_left].
    assert (Hstart : startsWith (lit "data: " ++ head) (lit "data: ") = true)
      by (apply startsWith_spec; by eexists).
    assert (E1 : handle JSON_parse st (lit "data: " ++ head) = st).
    { unfold handle. rewrite Hstart.
      change 6 with (length (lit "data: ")).
      by rewrite slice_after_prefix, Hhead. }
    assert (E2 : handle JSON_parse st rest = st).
    { unfold handle. by rewrite Hrest. }
    assert (E3 : handle JSON_parse st [] = st) by done.
    by rewrite E1, E2, E3.
  - rewrite receive_app. cbn [fold_left].
    rewrite <- (app_nil_r (frame JSON_stringify e)).
    by rewrite handle_frame.
Qed.

End Reading.

Lemma event_cut_between_reads_is_lost_witness :
  receive (Fixture.parse [])
    ([] ++ [lit "data: " ++ []; (lit "C" ++ lit "مرحبا") ++ [LF; LF]] ++ [])
  = receive (Fixture.parse []) ([] ++ [])
  /\ receive (Fixture.parse [])
       ([] ++ [frame Fixture.stringify (chunk (lit "مرحبا"))])
     = absorb (receive (Fixture.parse []) []) (chunk (lit "مرحبا")).
Proof.
  apply (event_cut_between_reads_is_lost Fixture.stringify (Fixture.parse [])
           (chunk (lit "مرحبا")) [] (lit "C" ++ lit "مرحبا") [] []).
  - reflexivity.
  - vm_compute. intros H.
    repeat (apply elem_of_cons in H as [H|H]; [discriminate|]).
    by apply elem_of_nil in H.
  - reflexivity.
  - reflexivity.
  - reflexivity.
Defined.

Lemma reader_recovers_the_answer_witness :
  receive (Fixture.parse [preview 200 Sample.docA])
    (List.map
       (fun g => List.concat (List.map (frame Fixture.stringify) g))
       [[sources [preview 200 Sample.docA]; chunk (lit "مرحبا")];
        [chunk (lit " بكم"); done]])
  = {| fullContent := List.concat (yielded Fixture.response);
       sources_ := List.map (preview 200) [Sample.docA] |}.
Proof.
  apply (reader_recovers_the_answer Fixture.stringify
           (Fixture.parse [preview 200 Sample.docA]) 200 [Sample.docA]
           Fixture.response
           [[sources [preview 200 Sample.docA]; chunk (lit "مرحبا")];
            [chunk (lit " بكم"); done]]).
  - repeat constructor; vm_compute; intros H;
      repeat (apply elem_of_cons in H as [H|H]; [discriminate|]);
      by apply elem_of_nil in H.
  - reflexivity.
Defined.

End Events.


(** ** The handler that answers in one piece *)

Section GetHandler.

Import Retrieval Stream.

Variable prompt : jsstring -> jsstring.
Variable invoke : jsstring -> option jsstring.
Variable JSON_parse : jsstring -> option Parsed.
Variable embedQuery : jsstring -> option Embedding.
Variable rpc : Embedding -> jsstring -> Q -> Z -> Reply Scored.
Variable SYSTEM_PROMPT : jsstring.
Variable QUESTION_TEMPLATE : jsstring.
Variable chatModel_invoke : jsstring -> option jsstring.

Ltac stage_in H :=
  match type of H with
  | context [match ?x with Some _ => _ | None => _ end] =>
      destruct x eqn:?; cbn [bind] in H
  | context [if ?b then _ else _] => destruct b eqn:?; cbn [bind] in H
  end.

Lemma ChatGet_gather_merged analysis question st :
  ChatGet.gather embedQuery rpc analysis question = Ok st ->
  exists seen, MergedFrom seen st.
Proof.
  unfold ChatGet.gather, embed. cbn [bind]. intros H.
  repeat stage_in H; try done; injection H as <-; eexists;
    repeat apply MergedFrom_addDocs; apply MergedFrom_nothing.
Qed.

(** The three searches behind the result of the three stages. *)
Lemma ChatGet_gather_searches analysis question st :
  ChatGet.gather embedQuery rpc analysis question = Ok st ->
  let optimizedQuery := strOr (search_query analysis) question in
  exists e1 byProgram byCode,
    embedQuery optimizedQuery = Some e1
    /\ ((exists p e2,
           program analysis = Some p /\ truthy p = true
           /\ p <> optimizedQuery /\ embedQuery p = Some e2
           /\ byProgram = [Chat.matchDocuments rpc e2 p (1 # 10) 5])
        \/ ((truthy_opt (program analysis) = false
             \/ program analysis = Some optimizedQuery)
            /\ byProgram = []))
    /\ ((exists c e3,
           code analysis = Some c /\ truthy c = true
           /\ embedQuery c = Some e3
           /\ byCode = [Chat.matchDocuments rpc e3 c (5 # 100) 5])
        \/ (truthy_opt (code analysis) = false /\ byCode = []))
    /\ st = fold_left addDocs
              ([Chat.matchDocuments rpc e1 optimizedQuery (1 # 10) 8]
               ++ byProgram ++ byCode)
              nothing.
Proof.
  unfold ChatGet.gather, embed. cbv zeta.
  destruct (embedQuery (strOr (search_query analysis) question)) as [e1|];
    cbn [bind]; [|done].
  intros H. exists e1.
  assert (Hprogram : exists byProgram st2,
            match program analysis with
            | Some p =>
                if truthy p
                   && negb (bool_decide
                              (p = strOr (search_query analysis) question))
                then
                  await progEmbedding <-
                    match embedQuery p with
                    | Some e => Ok e
                    | None => Raised (EmbeddingFailed p)
                    end;
                  Ok (addDocs
                        (addDocs nothing
                           (Chat.matchDocuments rpc e1
                              (strOr (search_query analysis) question)
                              (1 # 10) 8))
                        (Chat.matchDocuments rpc progEmbedding p (1 # 10) 5))
                else Ok (addDocs nothing
                           (Chat.matchDocuments rpc e1
                              (strOr (search_query analysis) question)
                              (1 # 10) 8))
            | None => Ok (addDocs nothing
                            (Chat.matchDocuments rpc e1
                               (strOr (search_query analysis) question)
                               (1 # 10) 8))
            end = Ok st2
            /\ ((exists p e2,
                   program analysis = Some p /\ truthy p = true
                   /\ p <> strOr (search_query analysis) question
                   /\ embedQuery p = Some e2
                   /\ byProgram = [Chat.matchDocuments rpc e2 p (1 # 10) 5])
                \/ ((truthy_opt (program analysis) = false
                     \/ program analysis
                        = Some (strOr (search_query analysis) question))
                    /\ byProgram = []))
            /\ st2 = fold_left addDocs
                       ([Chat.matchDocuments rpc e1
                           (strOr (search_query analysis) question)
                           (1 # 10) 8] ++ byProgram)
                       nothing).
  { destruct (program analysis) as [p|] eqn:Ep.
    - destruct (truthy p) eqn:Hp; cbn [andb].
      + destruct (bool_decide (p = _)) eqn:Hd; cbn [negb].
        * apply bool_decide_eq_true in Hd. eexists [], _.
          split; [reflexivity|]. split; [|reflexivity].
          right. split; [|done]. right. by rewrite Hd.
        * apply bool_decide_eq_false in Hd.
          destruct (embedQuery p) as [e2|] eqn:E2; cbn [bind].
          -- eexists _, _. split; [reflexivity|].
             split; [left; by exists p, e2|reflexivity].
          -- exfalso. cbn [andb negb bind] in H. done.
      + eexists [], _. split; [reflexivity|]. split; [|reflexivity].
        right. split; [|done]. left. cbn [truthy_opt]. done.
    - eexists [], _. split; [reflexivity|]. split; [|reflexivity].
      right. split; [|done]. by left. }
  destruct Hprogram as (byProgram & st2 & E & Hby & Hst2).
  rewrite E in H. cbn [bind] in H. exists byProgram.
  destruct (code analysis) as [c|] eqn:Ec.
  - destruct (truthy c) eqn:Hc.
    + destruct (embedQuery c) as [e3|] eqn:E3; cbn [bind] in H; [|done].
      injection H as <-.
      exists [Chat.matchDocuments rpc e3 c (5 # 100) 5].
      split; [done|]. split; [exact Hby|]. split.
      * left. by exists c, e3.
      * rewrite Hst2.
        rewrite (app_assoc [_] byProgram [_]). symmetry.
        apply (fold_left_app addDocs _ [_] nothing).
    + injection H as <-. exists []. split; [done|]. split; [exact Hby|].
      split; [right; by split|]. rewrite Hst2. by rewrite app_nil_r.
  - injection H as <-. exists []. split; [done|]. split; [exact Hby|].
    split; [right; by split|]. rewrite Hst2. by rewrite app_nil_r.
Qed.

(** X19. The handler that answers in one piece, for a question whose
    analysis is an object.  When it answers, the model was asked with the
    context of the first 12 documents in the order of the comparator, and
    the sources returned are the previews of all the documents of the three
    stages in that order, as many as the stages gathered and none twice: the
    documents of the search for the primary query, then the new ones of the
    search for the program name, then the new ones of the search for the
    code.  When the analysis names no institution, or the three stages
    gathered five documents or more, the streaming handler gives the model
    that same context; otherwise it fails when the embedding of the
    institution fails, and else adds the new documents of the search for
    the institution before it sorts and cuts. *)
Theorem GET_lists_every_source_and_cuts_the_context
  (question : jsstring) (analysis : QueryAnalysis) :
  truthy question = true ->
  Chat.analyzeQuery prompt invoke JSON_parse question = Value analysis ->
  forall answer srcs,
    ChatGet.GET prompt invoke JSON_parse embedQuery rpc SYSTEM_PROMPT
      QUESTION_TEMPLATE chatModel_invoke (Some question)
    = ChatGet.Answers answer srcs ->
    let optimizedQuery := strOr (search_query analysis) question in
    let cmp := Chat.byRelevance (program analysis) in
    exists st e1 byProgram byCode,
      ChatGet.gather embedQuery rpc analysis question = Ok st
      /\ embedQuery optimizedQuery = Some e1
      /\ ((exists p e2,
             program analysis = Some p /\ truthy p = true
             /\ p <> optimizedQuery /\ embedQuery p = Some e2
             /\ byProgram = [Chat.matchDocuments rpc e2 p (1 # 10) 5])
          \/ ((truthy_opt (program analysis) = false
               \/ program analysis = Some optimizedQuery)
              /\ byProgram = []))
      /\ ((exists c e3,
             code analysis = Some c /\ truthy c = true
             /\ embedQuery c = Some e3
             /\ byCode = [Chat.matchDocuments rpc e3 c (5 # 100) 5])
          \/ (truthy_opt (code analysis) = false /\ byCode = []))
      /\ st = fold_left addDocs
                ([Chat.matchDocuments rpc e1 optimizedQuery (1 # 10) 8]
                 ++ byProgram ++ byCode)
                nothing
      /\ srcs = List.map (preview 200) (sort cmp (relevantDocs st))
      /\ List.length srcs = List.length (relevantDocs st)
      /\ sort cmp (relevantDocs st) ≡ₚ relevantDocs st
      /\ NoDup (List.map source_id srcs)
      /\ (forall i j a b,
            sort cmp (relevantDocs st) !! i = Some a ->
            sort cmp (relevantDocs st) !! j = Some b -> (i < j)%nat ->
            before cmp a b)
      /\ chatModel_invoke
           (Prompts.finalPrompt SYSTEM_PROMPT QUESTION_TEMPLATE
              (Chat.formatContext (take 12 (sort cmp (relevantDocs st))))
              question)
         = Some answer
      /\ (truthy_opt (university analysis) = false
          \/ (5 <= List.length (relevantDocs st))%nat ->
          Chat.POST prompt invoke JSON_parse embedQuery rpc (Some question)
          = Chat.Streams (take 12 (sort cmp (relevantDocs st)))
              (Chat.formatContext (take 12 (sort cmp (relevantDocs st)))))
      /\ (forall u,
            university analysis = Some u -> truthy u = true ->
            (List.length (relevantDocs st) < 5)%nat ->
            Chat.POST prompt invoke JSON_parse embedQuery rpc (Some question)
            = match embedQuery u with
              | None => Chat.Status500
              | Some e4 =>
                  let docs :=
                    take 12
                      (sort cmp
                         (relevantDocs
                            (addDocs st
                               (Chat.matchDocuments rpc e4 u (1 # 10) 5)))) in
                  Chat.Streams docs (Chat.formatContext docs)
              end).
Proof.
  intros Hq Ha answer srcs H. cbv zeta. unfold ChatGet.GET in H.
  rewrite Hq, Ha in H.
  destruct (ChatGet.gather embedQuery rpc analysis question) as [|st] eqn:E;
    [done|].
  cbv zeta in H.
  destruct (chatModel_invoke _) as [a|] eqn:Ei; [|done].
  injection H as <- <-.
  set (cmp := Chat.byRelevance (program analysis)) in *.
  destruct (ChatGet_gather_searches _ _ _ E)
    as (e1 & byProgram & byCode & H1 & H2 & H3 & H4).
  destruct (ChatGet_gather_merged _ _ _ E) as [seen Hm].
  exists st, e1, byProgram, byCode.
  split; [done|]. split; [exact H1|]. split; [exact H2|].
  split; [exact H3|]. split; [exact H4|]. split; [done|].
  assert (Hperm : sort cmp (relevantDocs st) ≡ₚ relevantDocs st)
    by apply sort_perm.
  split.
  { rewrite length_map. by apply Permutation_length. }
  split; [exact Hperm|]. split.
  { rewrite List.map_map. cbn [preview source_id].
    change (NoDup (id <$> sort cmp (relevantDocs st))).
    rewrite Hperm. by destruct Hm. }
  split.
  { intros i j x y Hx Hy Hij.
    exact (StronglySorted_lookup _ _
             (sort_sorted cmp (byRelevance_total _) (byRelevance_trans _)
                (relevantDocs st)) i j x y Hx Hy Hij). }
  split; [exact Ei|]. split.
  - intros Hno. unfold Chat.POST. rewrite Hq, Ha.
    unfold Chat.retrieve. rewrite gather_three_then_fourth, E. cbn [bind].
    destruct (university analysis) as [u|]; cbn [bind]; [|done].
    cbn [truthy_opt] in Hno.
    destruct (Z.ltb_spec (Z.of_nat (List.length (relevantDocs st))) 5);
      destruct (truthy u) eqn:Hu; cbn [andb bind]; try done.
    destruct Hno as [Hno|Hno]; [congruence|lia].
  - intros u Hu Htruthy Hfew. unfold Chat.POST. rewrite Hq, Ha.
    unfold Chat.retrieve. rewrite gather_three_then_fourth, E. cbn [bind].
    rewrite Hu, Htruthy, andb_true_r.
    destruct (Z.ltb_spec (Z.of_nat (List.length (relevantDocs st))) 5);
      [|lia].
    unfold embed. by destruct (embedQuery u).
Qed.

End GetHandler.

Section GetHandlerExample.

Import Retrieval Stream.

Lemma GET_lists_every_source_and_cuts_the_context_witness :
  exists st,
    ChatGet.gather Sample.embeds Sample.answers Sample.analysis Sample.question
    = Ok st
    /\ List.map source_id
         (List.map (preview 200)
            (sort (Chat.byRelevance (program Sample.analysis))
                  (relevantDocs st)))
       = [1; 2].
Proof.
  destruct (GET_lists_every_source_and_cuts_the_context
              Sample.template Sample.chatter
              (fun _ => Some (Value Sample.analysis))
              Sample.embeds Sample.answers [] [] (fun _ => Some [])
              Sample.question Sample.analysis eq_refl eq_refl
              [] _ eq_refl)
    as (st & e1 & byProgram & byCode & E & _).
  exists st. split; [exact E|].
  vm_compute in E. injection E as <-. vm_compute. reflexivity.
Defined.

End GetHandlerExample.


(** ** The route with a second search *)

Section TwoStage.

Import Retrieval.

Local Open Scope Q_scope.

Lemma bySimilarity_total (a b : MatchDocumentsResult) :
  before ChatTwoStage.bySimilarity a b \/ before ChatTwoStage.bySimilarity b a.
Proof. unfold before, ChatTwoStage.bySimilarity. lra. Qed.

Lemma bySimilarity_trans (a b c : MatchDocumentsResult) :
  before ChatTwoStage.bySimilarity a b ->
  before ChatTwoStage.bySimilarity b c ->
  before ChatTwoStage.bySimilarity a c.
Proof. unfold before, ChatTwoStage.bySimilarity. lra. Qed.

Local Close Scope Q_scope.

(** What the loop of the merge keeps of the second search. *)
Lemma merge_added (ids : gset Z) (secondaryDocs : list MatchDocumentsResult) :
  let added :=
    List.filter (fun doc => negb (bool_decide (id doc ∈ ids))) secondaryDocs in
  added `sublist_of` secondaryDocs
  /\ Forall (fun d => id d ∉ ids) added
  /\ (forall d, d ∈ secondaryDocs -> id d ∉ ids -> d ∈ added).
Proof.
  induction secondaryDocs as [|d l IH]; cbn [List.filter].
  - split; [done|]. split; [constructor|]. intros d H.
    by apply elem_of_nil in H.
  - destruct IH as (IH1 & IH2 & IH3).
    destruct (bool_decide (id d ∈ ids)) eqn:E; cbn [negb].
    + apply bool_decide_eq_true in E. split; [by constructor|].
      split; [done|]. intros x Hx Hn.
      apply elem_of_cons in Hx as [->|Hx]; [done|]. by apply IH3.
    + apply bool_decide_eq_false in E. split; [by constructor|].
      split; [by constructor|]. intros x Hx Hn.
      apply elem_of_cons in Hx as [->|Hx]; [by left|].
      right. by apply IH3.
Qed.

(** X20. The route with a second search.  The second search is made only
    when the first found fewer than three documents and the analysis holds
    a code or a program name, and it asks for the code when there is one.
    Its documents are added behind those of the first search unless their id
    is among the ids of the first search: the ids of the second search are
    not recorded, so a document the store returns twice in it is kept twice,
    and no id is kept twice when neither search returns one twice.  The
    documents handed on are those merged, by falling similarity. *)
Theorem second_search_adds_what_the_first_has_not
  (embedQuery : jsstring -> option Embedding)
  (rpc : Embedding -> jsstring -> Q -> Z -> Reply Scored)
  (analysis : QueryAnalysis) (message : jsstring) :
  (forall docs,
     ChatTwoStage.retrieve embedQuery rpc analysis message = Ok docs ->
     exists queryEmbedding,
       let optimizedQuery := strOr (search_query analysis) message in
       let first :=
         Chat.matchDocuments rpc queryEmbedding optimizedQuery (15 # 100) 10 in
       let secondaryQuery :=
         if truthy_opt (code analysis) then strOr (code analysis) []
         else strOr (program analysis) [] in
       embedQuery optimizedQuery = Some queryEmbedding
       /\ (forall i j a b,
             docs !! i = Some a -> docs !! j = Some b -> (i < j)%nat ->
             (similarity b <= similarity a)%Q)
       /\ ((3 <= List.length first)%nat
           \/ (truthy_opt (code analysis) = false
               /\ truthy_opt (program analysis) = false) ->
           docs ≡ₚ first)
       /\ ((List.length first < 3)%nat ->
           truthy_opt (code analysis) = true
           \/ truthy_opt (program analysis) = true ->
           exists secondaryEmbedding,
             embedQuery secondaryQuery = Some secondaryEmbedding
             /\ docs ≡ₚ ChatTwoStage.merge first
                          (Chat.matchDocuments rpc secondaryEmbedding
                             secondaryQuery (15 # 100) 5)))
  /\ (forall first second,
        exists added,
          ChatTwoStage.merge first second = first ++ added
          /\ added `sublist_of` second
          /\ (forall d, d ∈ added <->
                        d ∈ second /\ id d ∉ List.map id first)
          /\ (NoDup (List.map id first) -> NoDup (List.map id second) ->
              NoDup (List.map id (ChatTwoStage.merge first second))))
  /\ (forall first d,
        id d ∉ List.map id first ->
        ChatTwoStage.merge first [d; d] = first ++ [d; d]).
Proof.
  assert (Hset : forall (first : list MatchDocumentsResult) i,
            i ∈ (list_to_set (List.map id first) : gset Z)
            <-> i ∈ List.map id first).
  { intros first i. apply elem_of_list_to_set. }
  split; [|split].
  - intros docs H. unfold ChatTwoStage.retrieve in H.
    unfold embed in H at 1.
    destruct (embedQuery (strOr (search_query analysis) message))
      as [e|] eqn:Ee; cbn [bind] in H; [|done].
    exists e. cbv zeta.
    set (first := Chat.matchDocuments rpc e _ _ _) in *.
    split; [done|].
    assert (Hsorted : forall merged,
              docs = sort ChatTwoStage.bySimilarity merged ->
              forall i j a b,
                docs !! i = Some a -> docs !! j = Some b -> (i < j)%nat ->
                (similarity b <= similarity a)%Q).
    { intros merged -> i j a b Ha Hb Hij.
      pose proof (StronglySorted_lookup _ _
                    (sort_sorted ChatTwoStage.bySimilarity bySimilarity_total
                       bySimilarity_trans merged) i j a b Ha Hb Hij) as Hab.
      unfold before, ChatTwoStage.bySimilarity in Hab. lra. }
    destruct (Z.ltb_spec (Z.of_nat (List.length first)) 3) as [Hlt|Hge];
      cbn [andb] in H.
    + destruct (truthy_opt (code analysis) || truthy_opt (program analysis))
        eqn:Hcp.
      * assert (Hq : strOr (code analysis) (strOr (program analysis) [])
                     = if truthy_opt (code analysis)
                       then strOr (code analysis) []
                       else strOr (program analysis) []).
        { unfold strOr, truthy_opt.
          destruct (code analysis) as [c|]; [|done]. by destruct (truthy c). }
        rewrite Hq in H. unfold embed in H.
        destruct (embedQuery (if truthy_opt (code analysis) then _ else _))
          as [e2|] eqn:Ee2;
          cbn [bind] in H; [|done].
        injection H as <-. split; [by eapply Hsorted|]. split.
        -- intros [Hthree|[Hc Hp]]; [lia|]. rewrite Hc, Hp in Hcp. done.
        -- intros _ _. exists e2. split; [done|]. apply sort_perm.
      * cbn [bind] in H. injection H as <-.
        split; [by eapply Hsorted|]. split.
        -- intros _. apply sort_perm.
        -- intros _ Hor. apply orb_false_iff in Hcp as [Hc Hp].
           rewrite Hc, Hp in Hor. by destruct Hor.
    + cbn [bind] in H. injection H as <-.
      split; [by eapply Hsorted|]. split.
      * intros _. apply sort_perm.
      * intros Hfew. lia.
  - intros first second. unfold ChatTwoStage.merge. cbv zeta.
    destruct (merge_added (list_to_set (List.map id first)) second)
      as (H1 & H2 & H3).
    eexists. split; [done|]. split; [exact H1|]. split.
    + intros d. split.
      * intros Hd. split.
        -- eapply elem_of_submseteq; [exact Hd|]. by apply sublist_submseteq.
        -- rewrite Forall_forall in H2. rewrite <- Hset. by apply H2.
      * intros [Hd Hn]. apply H3; [done|]. by rewrite Hset.
    + intros Hf Hs.
      change (NoDup (id <$> (first ++ List.filter
                (fun doc => negb (bool_decide
                   (id doc ∈ (list_to_set (List.map id first) : gset Z))))
                second))).
      rewrite fmap_app. apply NoDup_app. split; [exact Hf|]. split.
      * intros i Hi Hadded. apply list_elem_of_fmap in Hadded as (d & -> & Hd).
        rewrite Forall_forall in H2. apply (H2 d Hd). by rewrite Hset.
      * eapply sublist_NoDup; [exact Hs|]. by apply fmap_sublist.
  - intros first d Hd. unfold ChatTwoStage.merge. cbv zeta.
    cbn [List.filter].
    rewrite (bool_decide_eq_false_2 _); [done|]. by rewrite Hset.
Qed.

End TwoStage.


(** ** What the chat model is given to read *)

Section Contexts.

Import Retrieval.

Lemma occursIn_here (p rest : jsstring) : occursIn p (p ++ rest).
Proof. by exists [], rest. Qed.

Lemma occursIn_last (p : jsstring) : occursIn p p.
Proof. exists [], []. by rewrite app_nil_r. Qed.

Lemma occursIn_skip (p a s : jsstring) : occursIn p s -> occursIn p (a ++ s).
Proof. intros (b & c & ->). exists (a ++ b), c. by rewrite <- app_assoc. Qed.

Lemma occursIn_join (sep piece : jsstring) (parts : list jsstring) :
  piece ∈ parts -> occursIn piece (join sep parts).
Proof.
  induction parts as [|p ps IH]; intros H; [by apply elem_of_nil in H|].
  apply elem_of_cons in H as [->|H].
  - destruct ps; [apply occursIn_last|apply occursIn_here].
  - destruct ps as [|q ps]; [by apply elem_of_nil in H|].
    change (occursIn piece (p ++ sep ++ join sep (q :: ps))).
    by apply occursIn_skip, occursIn_skip, IH.
Qed.

Lemma join_head (sep : jsstring) (c : Z) (r : jsstring)
  (others : list jsstring) :
  exists rest, join sep ((c :: r) :: others) = c :: rest.
Proof. destruct others; simpl; eauto. Qed.

Ltac inside :=
  cbv zeta;
  repeat first [apply occursIn_here | apply occursIn_last | apply occursIn_skip].

Lemma Chat_content_inside i doc : occursIn (content doc) (Chat.formatDoc i doc).
Proof. unfold Chat.formatDoc. inside. Qed.

Lemma ChatMulti_content_inside i doc :
  occursIn (content doc) (ChatMulti.formatDoc i doc).
Proof. unfold ChatMulti.formatDoc. inside. Qed.

Lemma ChatSimple_content_inside i doc :
  occursIn (content doc) (ChatSimple.formatDoc i doc).
Proof. unfold ChatSimple.formatDoc. inside. Qed.

Lemma Lib_content_inside i doc : occursIn (content doc) (Lib.formatDoc i doc).
Proof. unfold Lib.formatDoc. inside. Qed.

(** A formatter that returns a sentence for no document and joins the
    blocks of the documents otherwise, where a block and the sentence start
    with different characters. *)
Lemma formatter_facts
  (formatDoc : nat -> MatchDocumentsResult -> jsstring)
  (noInformation divider : jsstring) (c c' : Z) (r' : jsstring)
  (docs : list MatchDocumentsResult) :
  (forall i d, exists r, formatDoc i d = c :: r) ->
  noInformation = c' :: r' -> c <> c' ->
  (forall i d, occursIn (content d) (formatDoc i d)) ->
  let formatContext :=
    match docs with
    | [] => noInformation
    | _ => join divider (imap formatDoc docs)
    end in
  (forall d, d ∈ docs -> occursIn (content d) formatContext)
  /\ (formatContext = noInformation <-> docs = []).
Proof.
  intros Hhead Hno Hc Hin. cbv zeta. split.
  - intros d Hd. destruct docs as [|d0 docs]; [by apply elem_of_nil in Hd|].
    apply list_elem_of_lookup in Hd as [i Hi].
    apply occursIn_trans with (formatDoc i d); [apply Hin|].
    apply occursIn_join. apply elem_of_lookup_imap. by exists i, d.
  - split; [|by intros ->].
    destruct docs as [|d0 docs]; [done|]. intros H. exfalso.
    change (join divider (formatDoc 0%nat d0 :: imap (formatDoc ∘ S) docs)
            = noInformation) in H.
    destruct (Hhead 0%nat d0) as [r Hr]. rewrite Hr in H.
    destruct (join_head divider c r (imap (formatDoc ∘ S) docs)) as [rest E].
    pose proof (eq_trans (eq_sym E) (eq_trans H Hno)) as Hcc.
    by injection Hcc.
Qed.

Ltac starts := intros i d; eexists; unfold Chat.formatDoc, ChatMulti.formatDoc,
  ChatSimple.formatDoc, Lib.formatDoc; cbv zeta;
  match goal with
  | |- lit ?s ++ ?l = _ =>
      let v := eval vm_compute in (lit s) in
      change (lit s) with v; reflexivity
  end.

(** X21. Whatever documents a request retrieves, each formatter puts the
    whole content of every one of them in the context of the chat model,
    and returns its fixed sentence for no document and for no document
    only: the route, the variant with the multi-strategy search, the routes
    with one and two searches, and the library. *)
Theorem context_holds_every_document_whole
  (docs : list MatchDocumentsResult) :
  ((forall d, d ∈ docs -> occursIn (content d) (Chat.formatContext docs))
   /\ (Chat.formatContext docs = Chat.noInformation <-> docs = []))
  /\ ((forall d, d ∈ docs ->
         occursIn (content d) (ChatMulti.formatContext docs))
      /\ (ChatMulti.formatContext docs = ChatMulti.noInformation
          <-> docs = []))
  /\ ((forall d, d ∈ docs ->
         occursIn (content d) (ChatSimple.formatContext docs))
      /\ (ChatSimple.formatContext docs = ChatSimple.noInformation
          <-> docs = []))
  /\ ((forall d, d ∈ docs -> occursIn (content d) (Lib.formatContext docs))
      /\ (Lib.formatContext docs = Lib.noInformation <-> docs = [])).
Proof.
  split; [|split; [|split]].
  - apply (formatter_facts Chat.formatDoc Chat.noInformation Chat.divider
             9552 1604 (tail Chat.noInformation));
      [starts|by vm_compute|done|apply Chat_content_inside].
  - apply (formatter_facts ChatMulti.formatDoc ChatMulti.noInformation
             ChatMulti.divider 9552 1604 (tail ChatMulti.noInformation));
      [starts|by vm_compute|done|apply ChatMulti_content_inside].
  - apply (formatter_facts ChatSimple.formatDoc ChatSimple.noInformation
             ChatSimple.divider 9552 1604 (tail ChatSimple.noInformation));
      [starts|by vm_compute|done|apply ChatSimple_content_inside].
  - apply (formatter_facts Lib.formatDoc Lib.noInformation [LF; LF]
             45 1604 (tail Lib.noInformation));
      [starts|by vm_compute|done|apply Lib_content_inside].
Qed.

End Contexts.


(** ** The answers of the library *)

Section Library.

Import Retrieval.

Variable embedQuery : jsstring -> option Embedding.
Variable rpc : Embedding -> jsstring -> Q -> Z -> Reply MatchDocumentsResult.
Variable SYSTEM_PROMPT : jsstring.
Variable QUESTION_TEMPLATE : jsstring.
Variable chain_invoke : jsstring -> option jsstring.
Variable chain_stream : jsstring -> Stream.Generation.

(** What the loop of the generator yields for a stream, and how it ends. *)
Lemma relayAll_shape (response : Stream.Generation) :
  LibRag.relayAll response
  = (List.map LibRag.chunk (Stream.yielded response)
     ++ (if Stream.completes response then [LibRag.done] else []),
     if Stream.completes response then None else Some LibRag.ChainFailed).
Proof.
  induction response as [| |content rest IH]; [done|done|].
  cbn [LibRag.relayAll Stream.yielded Stream.completes]. by rewrite IH.
Qed.

Lemma omap_chunks (contents : list jsstring) (tail : list LibRag.Event) :
  omap (fun e => match e with LibRag.chunk data => Some data | _ => None end)
       (List.map LibRag.chunk contents ++ tail)
  = contents
    ++ omap (fun e => match e with
                      | LibRag.chunk data => Some data
                      | _ => None
                      end) tail.
Proof. induction contents as [|c cs IH]; simpl in *; [done|by f_equal]. Qed.

Lemma omap_relay (response : Stream.Generation) :
  omap (fun e => match e with Stream.chunk data => Some data | _ => None end)
       (Stream.relay response)
  = List.filter truthy (Stream.yielded response).
Proof.
  induction response as [| |content rest IH]; [done|done|].
  cbn [Stream.relay Stream.yielded List.filter].
  rewrite omap_app, IH. by destruct (truthy content).
Qed.

(** X22. The two answers of the library to one question.  The generator
    yields nothing exactly when retrieval fails, and then it throws what
    retrieval threw, as the function that answers in one piece does.
    Otherwise its first event carries the documents as the store returned
    them, whole and in that order, which are also the sources of the answer
    in one piece; then comes a chunk event for every chunk of the model, in
    order and the empty ones included; [done] is the last event when the
    model comes to its end, and when the model breaks there is no last
    event: the generator throws.  The chunks the route sends for the same
    stream are those of the generator without the empty ones. *)
Theorem library_generator_yields_sources_then_every_chunk
  (question : jsstring) :
  let retrieved := Lib.retrieveRelevantDocs embedQuery rpc question (2 # 10) 10 in
  let generated :=
    LibRag.streamRAGResponse embedQuery rpc SYSTEM_PROMPT QUESTION_TEMPLATE
      chain_stream question in
  let answered :=
    LibRag.createRAGResponse embedQuery rpc SYSTEM_PROMPT QUESTION_TEMPLATE
      chain_invoke question in
  (forall why,
     retrieved = Raised why
     <-> LibRag.yields generated = []
         /\ LibRag.thrown generated = Some (LibRag.RetrievalFailed why))
  /\ (forall why,
        retrieved = Raised why <-> answered = inl (LibRag.RetrievalFailed why))
  /\ (forall relevantDocs,
        retrieved = Ok relevantDocs ->
        let response :=
          chain_stream
            (LibRag.template SYSTEM_PROMPT QUESTION_TEMPLATE relevantDocs
               question) in
        LibRag.yields generated
        = LibRag.sources relevantDocs
          :: List.map LibRag.chunk (Stream.yielded response)
          ++ (if Stream.completes response then [LibRag.done] else [])
        /\ (LibRag.thrown generated = None
            <-> Stream.completes response = true)
        /\ (LibRag.thrown generated = Some LibRag.ChainFailed
            <-> Stream.completes response = false)
        /\ (forall previewLength docs,
              omap (fun e => match e with
                             | Stream.chunk data => Some data
                             | _ => None
                             end)
                   (Stream.start previewLength docs response)
              = List.filter truthy
                  (omap (fun e => match e with
                                  | LibRag.chunk data => Some data
                                  | _ => None
                                  end)
                        (LibRag.yields generated)))
        /\ (forall answer sources,
              answered = inr (answer, sources) -> sources = relevantDocs)).
Proof.
  intros retrieved generated answered.
  unfold LibRag.streamRAGResponse in generated.
  unfold LibRag.createRAGResponse in answered.
  fold retrieved in generated, answered. subst generated answered.
  split; [|split].
  - intros why. destruct retrieved as [why'|docs].
    + cbn [LibRag.yields LibRag.thrown].
      split; [by intros [= ->]|]. by intros [_ [= ->]].
    + destruct (LibRag.relayAll _). cbn [LibRag.yields LibRag.thrown].
      split; [done|]. by intros [? _].
  - intros why. destruct retrieved as [why'|docs].
    + split; [by intros [= ->]|]. by intros [= ->].
    + split; [done|]. by destruct (chain_invoke _).
  - intros relevantDocs ->. cbv zeta. rewrite relayAll_shape.
    cbn [LibRag.yields LibRag.thrown].
    split; [done|].
    split; [by destruct (Stream.completes _)|].
    split; [by destruct (Stream.completes _)|].
    split.
    + intros previewLength docs. unfold Stream.start.
      cbn [omap list_omap].
      change (list_omap ?f ?l) with (omap f l).
      rewrite omap_relay, omap_chunks.
      destruct (Stream.completes _); simpl; by rewrite app_nil_r.
    + intros answer sources. destruct (chain_invoke _); [|done].
      by intros [= _ ->].
Qed.

End Library.
